(** * DrNex: the live audio session, its capture and playback paths

    A shallow embedding of the voice core of the application:
    - [AudioUtils]: the PCM encoder and decoder (utils/audioUtils);
    - [Live]: [connectLiveTriageSession] and [startLiveDictation]
      (services/geminiService);
    - [Modal]: the playback scheduling of [VoiceAvatarModal];
    - [System]: the modal wired to the avatar-mode session, and a run of
      its effect from the start of the setup.

    JavaScript numbers are modelled as exact rationals ([Q]); where a
    rounding step decides what is shown, in the guard test of the speaking
    indicator, the result is rounded as IEEE binary64 does
    ([Number.binary64]).  Promises are an explicit settle state with the
    list of reactions still waiting. *)

From Stdlib Require Import ZArith QArith Qround Qabs Qminmax Qpower List Bool String Ascii Lia Lqa.
Import ListNotations.

Local Open Scope Z_scope.

(* ================================================================= *)
(** ** utils/audioUtils *)

Module AudioUtils.

(** A capture frame: the samples of one [onaudioprocess] delivery. *)
Definition SampleFrame := list Q.

(** Raw bytes, each in [0, 256). *)
Definition Bytes := list Z.

Definition is_byte (b : Z) : Prop := 0 <= b < 256.

(** *** Base64 text *)

Definition alphabet : list ascii :=
  list_ascii_of_string
    "ABCDEFGHIJKLMNOPQRSTUVWXYZabcdefghijklmnopqrstuvwxyz0123456789+/".

Definition pad : ascii := "="%char.

Definition b64char (n : Z) : ascii := nth (Z.to_nat n) alphabet pad.

Fixpoint index_of (c : ascii) (l : list ascii) (i : Z) : option Z :=
  match l with
  | [] => None
  | x :: r => if Ascii.eqb c x then Some i else index_of c r (i + 1)
  end.

Definition b64val (c : ascii) : option Z := index_of c alphabet 0.

(** Modelled from the spec: the base64 text encoding of the byte buffer
    (the encoder of utils/audioUtils is not among the sources; the spec
    says the chunk is "represented for transport as a base64-text
    encoding of the byte buffer").  Standard alphabet, [=] padding. *)
Fixpoint encode (bs : Bytes) : list ascii :=
  match bs with
  | [] => []
  | [a] => [b64char (a / 4); b64char ((a mod 4) * 16); pad; pad]
  | [a; b] =>
      [b64char (a / 4); b64char ((a mod 4) * 16 + b / 16);
       b64char ((b mod 16) * 4); pad]
  | a :: b :: c :: r =>
      b64char (a / 4) :: b64char ((a mod 4) * 16 + b / 16)
      :: b64char ((b mod 16) * 4 + c / 64) :: b64char (c mod 64)
      :: encode r
  end.

(** Modelled from the spec: "decodes the base64 text to raw bytes"
    (base64ToUint8Array of utils/audioUtils is not among the sources).
    Text that is not base64 has no bytes. *)
Fixpoint decode (cs : list ascii) : option Bytes :=
  match cs with
  | [] => Some []
  | c1 :: c2 :: c3 :: c4 :: r =>
      match b64val c1, b64val c2 with
      | Some x1, Some x2 =>
          let a := x1 * 4 + x2 / 16 in
          if Ascii.eqb c3 pad then
            match r with
            | [] => if Ascii.eqb c4 pad then Some [a] else None
            | _ => None
            end
          else
            match b64val c3 with
            | Some x3 =>
                let b := (x2 mod 16) * 16 + x3 / 4 in
                if Ascii.eqb c4 pad then
                  match r with
                  | [] => Some [a; b]
                  | _ => None
                  end
                else
                  match b64val c4, decode r with
                  | Some x4, Some rest =>
                      Some (a :: b :: (x3 mod 4) * 64 + x4 :: rest)
                  | _, _ => None
                  end
            | None => None
            end
      | _, _ => None
      end
  | _ => None
  end.

Definition base64ToUint8Array (base64 : string) : option Bytes :=
  decode (list_ascii_of_string base64).

(** *** 16-bit PCM *)

(** Truncation toward zero, the conversion of a number stored into an
    integer typed array. *)
Definition Qtrunc (x : Q) : Z :=
  if Qle_bool 0 x then Qfloor x else Qceiling x.

Definition clamp (s : Q) : Q := Qmax (-1) (Qmin 1 s).

Definition int16_min : Z := -32768.
Definition int16_max : Z := 32767.

Definition saturate (v : Z) : Z := Z.max int16_min (Z.min int16_max v).

(** Modelled from the spec: "for each sample, clamp to [-1, 1], scale to
    the 16-bit signed integer range" (the encoder of utils/audioUtils is
    not among the sources).  The step is one part in 2^15, the spec's
    quantization unit; full scale +1 lands on the largest 16-bit value. *)
Definition quantize (s : Q) : Z :=
  saturate (Qtrunc (clamp s * inject_Z 32768)).

(** Little-endian bytes of a 16-bit two's-complement integer. *)
Definition int16_bytes (v : Z) : Bytes :=
  let u := v mod 65536 in [u mod 256; u / 256].

Definition int16_of_bytes (lo hi : Z) : Z :=
  let u := lo + 256 * hi in
  if 32768 <=? u then u - 65536 else u.

Definition pcm_bytes (frame : SampleFrame) : Bytes :=
  flat_map (fun s => int16_bytes (quantize s)) frame.

Record Blob := { data : string; mimeType : string }.

(** Modelled from the spec: the Sample Encoder, createPcmBlob of
    utils/audioUtils (not among the sources): "write as little-endian
    16-bit integers into a contiguous byte buffer", tagged with the
    16 kHz linear-PCM mime descriptor, as base64 text. *)
Definition createPcmBlob (frame : SampleFrame) : Blob :=
  {| data := string_of_list_ascii (encode (pcm_bytes frame));
     mimeType := "audio/pcm;rate=16000" |}.

Fixpoint int16_samples (bs : Bytes) : list Z :=
  match bs with
  | lo :: hi :: r => int16_of_bytes lo hi :: int16_samples r
  | _ => []
  end.

Record PlaybackBuffer := {
  channelData : list Q;
  sampleRate : Z;
  numberOfChannels : Z;
  duration : Q
}.

Inductive DecodeError := MisalignedFrame.

(** Modelled from the spec: the Sample Decoder, decodeAudioData of
    utils/audioUtils (not among the sources): "reinterprets as 16-bit
    PCM samples, and constructs a PlaybackBuffer whose duration = sample
    count / target sample rate.  Fails with DecodeError if byte length is
    not a whole multiple of 2".  Samples are normalised by 2^15. *)
Definition decodeAudioData (bytes : Bytes) (rate channels : Z)
  : DecodeError + PlaybackBuffer :=
  if Nat.odd (List.length bytes) then inl MisalignedFrame
  else
    let samples := map (fun v => inject_Z v / inject_Z 32768)%Q
                       (int16_samples bytes) in
    inr {| channelData := samples;
           sampleRate := rate;
           numberOfChannels := channels;
           duration := (inject_Z (Z.of_nat (List.length samples)) / inject_Z rate)%Q |}.

(** The alphabet is read back digit by digit, and holds no padding. *)
Definition sextet_ok (n : Z) : bool :=
  match b64val (b64char n) with
  | Some k => (k =? n) && negb (Ascii.eqb (b64char n) pad)
  | None => false
  end.

(** A short frame, with both ends of the range. *)
Definition sample_frame : SampleFrame :=
  [1; -1; 1 # 2; 0; -(1 # 3); 32767 # 32768]%Q.

End AudioUtils.

(* ================================================================= *)
(** ** services/geminiService: the live sessions *)

Module Live.

Import AudioUtils.

(** *** Inbound messages *)

Record InlineData := { inline_data : option string }.
Record Part := { inlineData : option InlineData }.
Record ModelTurn := { parts : option (list Part) }.
Record Transcription := { text : option string }.
Record ServerContent := {
  modelTurn : option ModelTurn;
  inputTranscription : option Transcription
}.
Record LiveServerMessage := { serverContent : option ServerContent }.

(** [o ?. f]: optional chaining. *)
Definition chain {A B} (o : option A) (f : A -> option B) : option B :=
  match o with
  | Some a => f a
  | None => None
  end.

(** A string is truthy when it is not empty. *)
Definition truthy (o : option string) : option string :=
  match o with
  | Some EmptyString => None
  | other => other
  end.

(** [msg.serverContent?.modelTurn?.parts?.[0]?.inlineData?.data] *)
Definition audioData (msg : LiveServerMessage) : option string :=
  chain (chain (chain (chain (serverContent msg) modelTurn) parts)
               (fun ps => chain (hd_error ps) inlineData))
        inline_data.

(** [msg.serverContent?.inputTranscription?.text] *)
Definition transcriptionText (msg : LiveServerMessage) : option string :=
  chain (chain (serverContent msg) inputTranscription) text.

(** *** The caller's hooks *)

Definition JsError := string.

Inductive Callback :=
| OnOpen
| OnAudioData (base64 : string)
| OnTranscription (fragment : string)
| OnError (err : JsError)
| OnClose.

Inductive Mode := Avatar | Dictation.

(** *** Session state *)

Inductive PromiseState := Pending | Fulfilled | Rejected.

(** The continuations attached to [sessionPromise] with [then]. *)
Inductive Reaction :=
| SetActive                  (* s => { activeSession = s; } *)
| SendIfLive (blob : Blob)   (* session => { if (!isCleaningUp) session.sendRealtimeInput(..) } *)
| CloseSession.              (* s => s.close() *)

Inductive ContextState := Running | Closed.

Record St := {
  isCleaningUp : bool;
  activeSession : bool;            (* activeSession !== null *)
  sessionPromise : PromiseState;
  reactions : list Reaction;       (* waiting on sessionPromise, oldest first *)
  trackStops : list nat;           (* per media track: calls of t.stop() *)
  sourceDisconnects : nat;         (* calls of source.disconnect() *)
  processorDisconnects : nat;      (* calls of processor.disconnect() *)
  contextState : ContextState;     (* audioContext.state *)
  contextCloses : nat;             (* calls of audioContext.close() *)
  sent : list Blob;                (* session.sendRealtimeInput, oldest first *)
  sessionCloses : nat              (* calls of session.close() *)
}.

Definition set_cleaning (s : St) : St :=
  {| isCleaningUp := true; activeSession := activeSession s;
     sessionPromise := sessionPromise s; reactions := reactions s;
     trackStops := trackStops s; sourceDisconnects := sourceDisconnects s;
     processorDisconnects := processorDisconnects s;
     contextState := contextState s; contextCloses := contextCloses s;
     sent := sent s; sessionCloses := sessionCloses s |}.

Definition set_active (s : St) : St :=
  {| isCleaningUp := isCleaningUp s; activeSession := true;
     sessionPromise := sessionPromise s; reactions := reactions s;
     trackStops := trackStops s; sourceDisconnects := sourceDisconnects s;
     processorDisconnects := processorDisconnects s;
     contextState := contextState s; contextCloses := contextCloses s;
     sent := sent s; sessionCloses := sessionCloses s |}.

Definition settle (p : PromiseState) (s : St) : St :=
  {| isCleaningUp := isCleaningUp s; activeSession := activeSession s;
     sessionPromise := p; reactions := [];
     trackStops := trackStops s; sourceDisconnects := sourceDisconnects s;
     processorDisconnects := processorDisconnects s;
     contextState := contextState s; contextCloses := contextCloses s;
     sent := sent s; sessionCloses := sessionCloses s |}.

Definition enqueue (r : Reaction) (s : St) : St :=
  {| isCleaningUp := isCleaningUp s; activeSession := activeSession s;
     sessionPromise := sessionPromise s; reactions := reactions s ++ [r];
     trackStops := trackStops s; sourceDisconnects := sourceDisconnects s;
     processorDisconnects := processorDisconnects s;
     contextState := contextState s; contextCloses := contextCloses s;
     sent := sent s; sessionCloses := sessionCloses s |}.

Definition sendRealtimeInput (b : Blob) (s : St) : St :=
  {| isCleaningUp := isCleaningUp s; activeSession := activeSession s;
     sessionPromise := sessionPromise s; reactions := reactions s;
     trackStops := trackStops s; sourceDisconnects := sourceDisconnects s;
     processorDisconnects := processorDisconnects s;
     contextState := contextState s; contextCloses := contextCloses s;
     sent := sent s ++ [b]; sessionCloses := sessionCloses s |}.

Definition session_close (s : St) : St :=
  {| isCleaningUp := isCleaningUp s; activeSession := activeSession s;
     sessionPromise := sessionPromise s; reactions := reactions s;
     trackStops := trackStops s; sourceDisconnects := sourceDisconnects s;
     processorDisconnects := processorDisconnects s;
     contextState := contextState s; contextCloses := contextCloses s;
     sent := sent s; sessionCloses := S (sessionCloses s) |}.

(** [stream.getTracks().forEach(t => t.stop()); source.disconnect();
    processor.disconnect()] *)
Definition release_capture (s : St) : St :=
  {| isCleaningUp := isCleaningUp s; activeSession := activeSession s;
     sessionPromise := sessionPromise s; reactions := reactions s;
     trackStops := map S (trackStops s);
     sourceDisconnects := S (sourceDisconnects s);
     processorDisconnects := S (processorDisconnects s);
     contextState := contextState s; contextCloses := contextCloses s;
     sent := sent s; sessionCloses := sessionCloses s |}.

(** [audioContext.close()]: the call is counted; the [state] attribute
    turns to closed later, when the platform reports it. *)
Definition context_close (s : St) : St :=
  {| isCleaningUp := isCleaningUp s; activeSession := activeSession s;
     sessionPromise := sessionPromise s; reactions := reactions s;
     trackStops := trackStops s; sourceDisconnects := sourceDisconnects s;
     processorDisconnects := processorDisconnects s;
     contextState := contextState s; contextCloses := S (contextCloses s);
     sent := sent s; sessionCloses := sessionCloses s |}.

Definition context_closed (s : St) : St :=
  {| isCleaningUp := isCleaningUp s; activeSession := activeSession s;
     sessionPromise := sessionPromise s; reactions := reactions s;
     trackStops := trackStops s; sourceDisconnects := sourceDisconnects s;
     processorDisconnects := processorDisconnects s;
     contextState := Closed; contextCloses := contextCloses s;
     sent := sent s; sessionCloses := sessionCloses s |}.

(** *** Promise reactions *)

(** The body of a reaction, run with the resolved session. *)
Definition react (r : Reaction) (s : St) : St :=
  match r with
  | SetActive => set_active s
  | SendIfLive blob => if isCleaningUp s then s else sendRealtimeInput blob s
  | CloseSession => session_close s
  end.

(** [sessionPromise.then(r)]: kept while the handshake is pending, run
    at once on a fulfilled promise, never run on a rejected one.  Every
    caller below ends with this call, so running the reaction at once is
    the microtask that follows the caller's synchronous body. *)
Definition then_ (r : Reaction) (s : St) : St :=
  match sessionPromise s with
  | Pending => enqueue r s
  | Fulfilled => react r s
  | Rejected => s
  end.

(** *** Setup *)

Inductive SetupError :=
| ResumeFailed (err : JsError)        (* audioContext.resume() rejects *)
| UserMediaFailed (err : JsError).    (* getUserMedia rejects: denied, or no device *)

(** What the platform answers during setup. *)
Record Device := {
  resume : option JsError;                 (* None: resumed *)
  getUserMedia : JsError + nat             (* the error, or the stream's track count *)
}.

(** State right after [ai.live.connect] and the wiring of the tap:
    [sessionPromise.then(s => { activeSession = s; })] is the first
    reaction waiting. *)
Definition connected (tracks : nat) : St :=
  {| isCleaningUp := false; activeSession := false;
     sessionPromise := Pending; reactions := [SetActive];
     trackStops := repeat 0%nat tracks;
     sourceDisconnects := 0; processorDisconnects := 0;
     contextState := Running; contextCloses := 0;
     sent := []; sessionCloses := 0 |}.

(** The body of [connectLiveTriageSession] up to its [return]: either
    the awaited setup throws, and [ai.live.connect] is never reached (no
    callback is registered), or the session exists. *)
Definition connectLiveTriageSession (dev : Device) : SetupError + St :=
  match resume dev with
  | Some err => inl (ResumeFailed err)
  | None =>
      match getUserMedia dev with
      | inl err => inl (UserMediaFailed err)
      | inr tracks => inr (connected tracks)
      end
  end.

(** [startLiveDictation] has the same setup. *)
Definition startLiveDictation (dev : Device) : SetupError + St :=
  match resume dev with
  | Some err => inl (ResumeFailed err)
  | None =>
      match getUserMedia dev with
      | inl err => inl (UserMediaFailed err)
      | inr tracks => inr (connected tracks)
      end
  end.

(** *** Events and handlers *)

Inductive Event :=
| Resolve                          (* the handshake succeeds *)
| Reject (err : JsError)           (* the handshake fails *)
| SocketOpen                       (* callbacks.onopen *)
| SocketMessage (msg : LiveServerMessage)   (* callbacks.onmessage *)
| SocketClose                      (* callbacks.onclose *)
| SocketError (err : JsError)      (* callbacks.onerror *)
| AudioProcess (frame : SampleFrame)  (* processor.onaudioprocess *)
| ContextClosed                    (* audioContext.state becomes closed *)
| Stop.                            (* the returned function is called *)

Definition onopen (m : Mode) : list Callback :=
  match m with
  | Avatar => [OnOpen]
  | Dictation => []
  end.

Definition onmessage (m : Mode) (msg : LiveServerMessage) : list Callback :=
  match m with
  | Avatar =>
      match truthy (audioData msg) with
      | Some d => [OnAudioData d]
      | None => []
      end
  | Dictation =>
      match truthy (transcriptionText msg) with
      | Some t => [OnTranscription t]
      | None => []
      end
  end.

Definition onclose (s : St) : list Callback :=
  if isCleaningUp s then [] else [OnClose].

Definition onerror (m : Mode) (err : JsError) : list Callback :=
  match m with
  | Avatar => [OnClose]
  | Dictation => [OnError err]
  end.

Definition onaudioprocess (frame : SampleFrame) (s : St) : St :=
  let pcmBlob := createPcmBlob frame in
  then_ (SendIfLive pcmBlob) s.

(** The function returned to the caller. *)
Definition stop (s : St) : St :=
  let s := set_cleaning s in
  let s := release_capture s in
  let s := match contextState s with
           | Closed => s
           | Running => context_close s
           end in
  if activeSession s then session_close s else then_ CloseSession s.

(** The handshake settles once; a fulfilled promise runs its reactions
    in the order they were attached. *)
Definition resolve (s : St) : St :=
  match sessionPromise s with
  | Pending => fold_left (fun acc r => react r acc) (reactions s) (settle Fulfilled s)
  | _ => s
  end.

(** On rejection no [then] reaction runs; dictation mode alone attaches
    [.catch(onError)]. *)
Definition reject (m : Mode) (err : JsError) (s : St) : St * list Callback :=
  match sessionPromise s with
  | Pending =>
      (settle Rejected s,
       match m with Avatar => [] | Dictation => [OnError err] end)
  | _ => (s, [])
  end.

(** One event: the new state and the hooks called.  A hook is the last
    thing its handler does, so what the caller does inside it is the
    events that follow. *)
Definition handle (m : Mode) (e : Event) (s : St) : St * list Callback :=
  match e with
  | Resolve => (resolve s, [])
  | Reject err => reject m err s
  | SocketOpen => (s, onopen m)
  | SocketMessage msg => (s, onmessage m msg)
  | SocketClose => (s, onclose s)
  | SocketError err => (s, onerror m err)
  | AudioProcess frame => (onaudioprocess frame s, [])
  | ContextClosed =>
      (match contextCloses s with
       | O => s
       | S _ => context_closed s
       end, [])
  | Stop => (stop s, [])
  end.

(** Running a trace: the final state and the hooks called, in order. *)
Fixpoint run (m : Mode) (es : list Event) (s : St) : St * list Callback :=
  match es with
  | [] => (s, [])
  | e :: rest =>
      let '(s1, out1) := handle m e s in
      let '(s2, out2) := run m rest s1 in
      (s2, out1 ++ out2)
  end.

Definition state_after (m : Mode) (es : list Event) (s : St) : St :=
  fst (run m es s).

Definition calls (m : Mode) (es : list Event) (s : St) : list Callback :=
  snd (run m es s).

(** A whole execution, from the call of the start function on: when
    setup throws there is no session and no event reaches a callback. *)
Definition execution (m : Mode) (dev : Device) (es : list Event)
  : SetupError + St * list Callback :=
  match (match m with
         | Avatar => connectLiveTriageSession dev
         | Dictation => startLiveDictation dev
         end) with
  | inl err => inl err
  | inr s => inr (run m es s)
  end.

Definition hooks_called (r : SetupError + St * list Callback) : list Callback :=
  match r with
  | inl _ => []
  | inr (_, out) => out
  end.

(** *** Observations on traces and states *)

Definition is_stop (e : Event) : bool :=
  match e with
  | Stop => true
  | _ => false
  end.

(** How many times the stop function is called in a trace. *)
Definition stops (es : list Event) : nat :=
  List.length (filter is_stop es).

Definition has_stop (es : list Event) : bool := existsb is_stop es.

Definition settles (e : Event) : bool :=
  match e with
  | Resolve | Reject _ => true
  | _ => false
  end.

(** The handshake does not settle during the trace. *)
Definition still_pending (es : list Event) : bool :=
  forallb (fun e => negb (settles e)) es.

(** The chunks of the frames the tap delivers during a trace. *)
Fixpoint chunks_of (es : list Event) : list Blob :=
  match es with
  | [] => []
  | AudioProcess frame :: rest => createPcmBlob frame :: chunks_of rest
  | _ :: rest => chunks_of rest
  end.

(** The chunks held by the reactions waiting on the handshake. *)
Fixpoint held (rs : list Reaction) : list Blob :=
  match rs with
  | [] => []
  | SendIfLive b :: rest => b :: held rest
  | _ :: rest => held rest
  end.

(** The session closes the waiting reactions will make. *)
Fixpoint closes_held (rs : list Reaction) : nat :=
  match rs with
  | [] => 0%nat
  | CloseSession :: rest => S (closes_held rest)
  | _ :: rest => closes_held rest
  end.

(** Every release step has run exactly once. *)
Definition released_once (s : St) : Prop :=
  Forall (fun n => n = 1%nat) (trackStops s) /\
  sourceDisconnects s = 1%nat /\
  processorDisconnects s = 1%nat /\
  contextCloses s = 1%nat /\
  sessionCloses s = 1%nat.

(** What dictation mode may hand to the caller while [es] runs. *)
Definition dictation_hook (es : list Event) (c : Callback) : Prop :=
  match c with
  | OnTranscription t =>
      t <> EmptyString /\
      exists msg, In (SocketMessage msg) es /\ transcriptionText msg = Some t
  | OnError _ | OnClose => True
  | OnOpen | OnAudioData _ => False
  end.

(** A platform on which the microphone is refused. *)
Definition no_microphone : Device :=
  {| resume := None; getUserMedia := inl "NotAllowedError"%string |}.

(** The frame is never transmitted, whatever follows its delivery. *)
Definition dropped_for_good (m : Mode) (s : St) (frame : SampleFrame)
           (es : list Event) : Prop :=
  ~ In (createPcmBlob frame) (sent (state_after m (AudioProcess frame :: es) s)).

Definition is_set_active (r : Reaction) : bool :=
  match r with
  | SetActive => true
  | _ => false
  end.

(** What [n] calls of the stop function leave behind. *)
Definition torn_down (n : nat) (s : St) : Prop :=
  Forall (fun k => k = n) (trackStops s) /\
  sourceDisconnects s = n /\
  processorDisconnects s = n /\
  (contextCloses s <= n)%nat /\
  (1 <= n -> 1 <= contextCloses s)%nat /\
  (contextState s = Closed -> 1 <= contextCloses s)%nat /\
  match sessionPromise s with
  | Pending =>
      activeSession s = false /\ sessionCloses s = 0%nat /\
      closes_held (reactions s) = n /\
      existsb is_set_active (reactions s) = true
  | Fulfilled => activeSession s = true /\ sessionCloses s = n
  | Rejected => activeSession s = false /\ sessionCloses s = 0%nat
  end.

(** [audioContext.state !== 'closed'], as a call of the stop function
    finds it. *)
Definition context_open (s : St) : bool :=
  match contextState s with
  | Running => true
  | Closed => false
  end.

(** The calls of the stop function in a trace that find the audio
    context not closed. *)
Fixpoint stops_on_open_context (m : Mode) (es : list Event) (s : St) : nat :=
  match es with
  | [] => 0
  | e :: rest =>
      ((if is_stop e && context_open s then 1 else 0)
       + stops_on_open_context m rest (fst (handle m e s)))%nat
  end.

(** A message that carries [d] as the audio of its first part. *)
Definition audio_message (d : string) : LiveServerMessage :=
  {| serverContent :=
       Some {| modelTurn :=
                 Some {| parts := Some [{| inlineData := Some {| inline_data := Some d |} |}] |};
               inputTranscription := None |} |}.

End Live.

(* ================================================================= *)
(** ** Numbers: rounding to binary64 *)

Module Number.

Local Open Scope Q_scope.

(** The binary exponent of [a]: the floor of its logarithm to base two,
    for [0 < a]. *)
Definition ilog2 (a : Q) : Z :=
  let k := (Z.log2 (Qnum a) - Z.log2 (Zpos (Qden a)))%Z in
  if Qle_bool (2 ^ k) a then k else (k - 1)%Z.

(** The nearest integer, a tie going to the even one. *)
Definition nearest_even (t : Q) : Z :=
  let f := Qfloor t in
  match Qcompare (t - inject_Z f) (1 # 2) with
  | Lt => f
  | Gt => (f + 1)%Z
  | Eq => if Z.even f then f else (f + 1)%Z
  end.

(** The double nearest to [x]: 53 significant bits, subnormal below
    [2 ^ -1022], ties to even.  Times and durations are far from the
    overflow threshold [2 ^ 1024], where a double becomes infinite. *)
Definition binary64 (x : Q) : Q :=
  match Qnum x with
  | Z0 => 0
  | _ =>
      let a := Qabs x in
      let e := Z.max (-1074) (ilog2 a - 52) in
      let y := inject_Z (nearest_even (a / 2 ^ e)) * 2 ^ e in
      if Qle_bool 0 x then y else - y
  end.


End Number.

(* ================================================================= *)
(** ** components/VoiceAvatarModal: playback scheduling *)

Module Modal.

Import AudioUtils.

Local Open Scope Q_scope.

Inductive Status := Connecting | Connected | Failed | Disconnected.

(** One call of [source.start]; [clockAt] and [cursorBefore] record
    [ctx.currentTime] and [nextStartTimeRef.current] as the handler read
    them. *)
Record Started := {
  startAt : Q;
  dur : Q;                (* buffer.duration *)
  clockAt : Q;
  cursorBefore : Q
}.

(** Why a run of the asynchronous [onAudioData] callback rejected. *)
Inductive Rejection :=
| InvalidBase64
| Decode (err : DecodeError).

(** The playback context, as far as the component reads it. *)
Record AudioContext := { currentTime : Q }.

Record St := {
  status : Status;
  isTalking : bool;
  audioContextRef : option AudioContext;
  nextStartTimeRef : Q;
  cleanup : bool;
  started : list Started;          (* oldest first *)
  rejections : list Rejection      (* oldest first *)
}.

Definition setStatus (v : Status) (m : St) : St :=
  {| status := v; isTalking := isTalking m; audioContextRef := audioContextRef m;
     nextStartTimeRef := nextStartTimeRef m; cleanup := cleanup m;
     started := started m; rejections := rejections m |}.

Definition setIsTalking (v : bool) (m : St) : St :=
  {| status := status m; isTalking := v; audioContextRef := audioContextRef m;
     nextStartTimeRef := nextStartTimeRef m; cleanup := cleanup m;
     started := started m; rejections := rejections m |}.

Definition setClock (t : Q) (m : St) : St :=
  {| status := status m; isTalking := isTalking m; audioContextRef := Some {| currentTime := t |};
     nextStartTimeRef := nextStartTimeRef m; cleanup := cleanup m;
     started := started m; rejections := rejections m |}.

Definition setCleanup (m : St) : St :=
  {| status := status m; isTalking := isTalking m; audioContextRef := audioContextRef m;
     nextStartTimeRef := nextStartTimeRef m; cleanup := true;
     started := started m; rejections := rejections m |}.

Definition rejected (r : Rejection) (m : St) : St :=
  {| status := status m; isTalking := isTalking m; audioContextRef := audioContextRef m;
     nextStartTimeRef := nextStartTimeRef m; cleanup := cleanup m;
     started := started m; rejections := rejections m ++ [r] |}.

(** [source.start(when)] followed by [nextStartTimeRef.current +=
    buffer.duration]. *)
Definition schedule (now cursor when d : Q) (m : St) : St :=
  {| status := status m; isTalking := isTalking m; audioContextRef := audioContextRef m;
     nextStartTimeRef := when + d; cleanup := cleanup m;
     started := started m ++
       [{| startAt := when; dur := d; clockAt := now; cursorBefore := cursor |}];
     rejections := rejections m |}.

Definition Qltb (x y : Q) : bool := negb (Qle_bool y x).

Definition guard : Q := 1 # 10.

(** [nextStartTimeRef.current - 0.1] as the code computes it: the
    literal is the double nearest to a tenth, and the difference is
    rounded to a double. *)
Definition guard_point (cursor : Q) : Q :=
  Number.binary64 (cursor - Number.binary64 guard).

(** The caller's [onAudioData] hook.  The decoder does its work without
    waiting on anything, so the part after [await] runs before any other
    event. *)
Definition onAudioData (base64Audio : string) (m : St) : St :=
  if cleanup m then m
  else
    let m := setIsTalking true m in
    match audioContextRef m with
    | None => m
    | Some ctx =>
        match base64ToUint8Array base64Audio with
        | None => rejected InvalidBase64 m
        | Some audioData =>
            match decodeAudioData audioData 24000 1 with
            | inl err => rejected (Decode err) m
            | inr buffer =>
                let now := currentTime ctx in
                let cursor := nextStartTimeRef m in
                let when := if Qltb cursor now then now else cursor in
                schedule now cursor when (duration buffer) m
            end
        end
    end.

(** [source.onended] *)
Definition onended (m : St) : St :=
  match audioContextRef m with
  | None => m
  | Some ctx =>
      if Qle_bool (guard_point (nextStartTimeRef m)) (currentTime ctx)
      then setIsTalking false m
      else m
  end.

Definition onOpen (m : St) : St :=
  if cleanup m then m else setStatus Connected m.

Definition onClose (m : St) : St :=
  if cleanup m then m else setStatus Disconnected m.

Inductive Event :=
| Hook (c : Live.Callback)     (* a hook called by the session *)
| SourceEnded                  (* a started source finished playing *)
| ClockAdvance (dt : Q)        (* the output clock moves on *)
| EffectCleanup.               (* the effect's cleanup runs *)

Definition handle (e : Event) (m : St) : St :=
  match e with
  | Hook Live.OnOpen => onOpen m
  | Hook (Live.OnAudioData d) => onAudioData d m
  | Hook Live.OnClose => onClose m
  | Hook _ => m
  | SourceEnded => onended m
  | ClockAdvance dt =>
      match audioContextRef m with
      | None => m
      | Some ctx => setClock (currentTime ctx + dt) m
      end
  | EffectCleanup => setCleanup m
  end.

Definition run (es : list Event) (m : St) : St :=
  fold_left (fun acc e => handle e acc) es m.

(** The component as mounted, and the state in which [startSession]
    leaves it once the playback context exists.  The refs and
    [isTalking] outlive the effect. *)
Definition mounted : St :=
  {| status := Connecting; isTalking := false; audioContextRef := None;
     nextStartTimeRef := 0; cleanup := false; started := []; rejections := [] |}.

Definition startSession (m : St) : St :=
  {| status := Connecting; isTalking := isTalking m;
     audioContextRef := Some {| currentTime := 0 |};
     nextStartTimeRef := nextStartTimeRef m; cleanup := false;
     started := []; rejections := [] |}.



(** *** Observations on the schedule *)

(** Where the cursor stands after the starts of [l], from [cursor]. *)
Definition cursor_end (cursor : Q) (l : list Started) : Q :=
  fold_left (fun _ b => startAt b + dur b) l cursor.

(** A start made by the handler: at the later of clock and cursor, and
    so not before the clock. *)
Definition well_placed (b : Started) : Prop :=
  startAt b == Qmax (clockAt b) (cursorBefore b) /\
  clockAt b <= startAt b /\
  0 <= dur b.

(** [b] is the start made right after [a]. *)
Definition follows (a b : Started) : Prop :=
  cursorBefore b = startAt a + dur a /\
  startAt a <= startAt b /\
  startAt a + dur a <= startAt b /\
  (clockAt b <= startAt a + dur a -> startAt b == startAt a + dur a).

(** The starts of a session, in order, from the cursor it began with. *)
Fixpoint chained (cursor : Q) (l : list Started) : Prop :=
  match l with
  | [] => True
  | b :: r =>
      cursorBefore b = cursor /\ well_placed b /\ chained (startAt b + dur b) r
  end.


(** The clock has not reached the point where [source.onended] clears
    the indicator. *)
Definition before_guard_point (m : St) : Prop :=
  match audioContextRef m with
  | None => False
  | Some ctx => currentTime ctx < guard_point (nextStartTimeRef m)
  end.

(** The indicator is on whenever the clock is before that point. *)
Definition covers_horizon (m : St) : Prop :=
  before_guard_point m -> isTalking m = true.


(** The schedule of a session and its cursor, as one invariant. *)
Definition scheduled_from (c : Q) (m : St) : Prop :=
  chained c (started m) /\ nextStartTimeRef m = cursor_end c (started m).

(** *** A short session *)

(** Two samples, at 24 kHz a twelve-thousandth of a second. *)
Definition two_samples : string := "/38AgA==".

(** Three bytes: not a whole number of 16-bit samples. *)
Definition three_bytes : string := "AAAA".

(** A burst, a malformed chunk, a pause longer than the audio queued,
    and one more chunk. *)
Definition jittery_session : list Event :=
  [ Hook (Live.OnAudioData two_samples);
    ClockAdvance (1 # 24000);
    Hook (Live.OnAudioData three_bytes);
    Hook (Live.OnAudioData two_samples);
    ClockAdvance 1;
    SourceEnded;
    Hook (Live.OnAudioData two_samples) ].


(** The scenario of two chunks of 4096 samples each, the second arriving
    50 ms after the first. *)
Definition frame_4096 : string := data (createPcmBlob (repeat 0 4096)).

Definition two_chunks_with_jitter : list Event :=
  [ Hook (Live.OnAudioData frame_4096);
    ClockAdvance (50 # 1000);
    Hook (Live.OnAudioData frame_4096) ].

(** Two component states that differ at most in the indicator and in
    the rejections recorded. *)
Definition alike (a b : St) : Prop :=
  status a = status b /\
  audioContextRef a = audioContextRef b /\
  nextStartTimeRef a = nextStartTimeRef b /\
  cleanup a = cleanup b /\
  started a = started b.

End Modal.

(* ================================================================= *)
(** ** The modal wired to the avatar-mode session *)

Module System.

(** Whose stop function [stopSessionRef.current] holds.  The ref
    outlives the effect and is never cleared: it is empty until the first
    session is made, and each [startSession] that gets its session
    overwrites it. *)
Inductive StopFunction :=
| OfThisSession       (* the session this run of the effect made *)
| OfAnotherSession.   (* a session made by another run of the effect *)

(** A run of the effect once [connectLiveTriageSession] has returned. *)
Record St := {
  live : Live.St;
  modal : Modal.St;
  stopSessionRef : option StopFunction
}.

Inductive Event :=
| Session (e : Live.Event)       (* something happens to the session *)
| Playback (e : Modal.Event)     (* something happens in the component *)
| OtherSessionMade.              (* another run of the effect stores its stop function *)

Definition deliver (out : list Live.Callback) (m : Modal.St) : Modal.St :=
  fold_left (fun acc c => Modal.handle (Modal.Hook c) acc) out m.

(** The effect's cleanup sets [cleanup] and calls
    [stopSessionRef.current] if it is set; a stop function of another
    session acts on that session, not on this one.  What the cleanup does
    to the component's own stream, processor and source, which the
    session never sees, is left out. *)
Definition effectCleanup (s : St) : St :=
  {| live := match stopSessionRef s with
             | Some OfThisSession => Live.stop (live s)
             | _ => live s
             end;
     modal := Modal.setCleanup (modal s);
     stopSessionRef := stopSessionRef s |}.

(** The session's hooks are the component's handlers.  [Session
    Live.Stop] is a call of this session's stop function from elsewhere:
    by the cleanup of another run of the effect that finds it in the
    ref. *)
Definition handle (e : Event) (s : St) : St :=
  match e with
  | Session ev =>
      let '(l, out) := Live.handle Live.Avatar ev (live s) in
      {| live := l; modal := deliver out (modal s);
         stopSessionRef := stopSessionRef s |}
  | Playback Modal.EffectCleanup => effectCleanup s
  | Playback ev =>
      {| live := live s; modal := Modal.handle ev (modal s);
         stopSessionRef := stopSessionRef s |}
  | OtherSessionMade =>
      {| live := live s; modal := modal s;
         stopSessionRef := Some OfAnotherSession |}
  end.

Definition run (es : list Event) (s : St) : St :=
  fold_left (fun acc e => handle e acc) es s.

(** The session, the schedule and the ref are the same in both
    states. *)
Definition same_schedule (a b : St) : Prop :=
  live a = live b /\ Modal.alike (modal a) (modal b) /\
  stopSessionRef a = stopSessionRef b.

(** An avatar session with one media track, its handshake done, and the
    component as [startSession] leaves it. *)
Definition open_session : St :=
  {| live := Live.resolve (Live.connected 1);
     modal := Modal.startSession Modal.mounted;
     stopSessionRef := Some OfThisSession |}.

(** *** A run of the effect, from its start *)

(** [startSession] is still in its awaits and no session exists; or it
    has the session and has stored its stop function; or it has thrown
    and its [catch] has run. *)
Inductive Effect :=
| Awaiting (m : Modal.St) (ref : option StopFunction)
| Wired (s : St)
| Thrown (m : Modal.St) (ref : option StopFunction).

Inductive Step :=
| OwnStreamRefused               (* the component's getUserMedia rejects *)
| Returned (dev : Live.Device)   (* connectLiveTriageSession settles *)
| Then (e : Event).

(** What reaches the component while no session exists: no hook is
    called, and the cleanup finds in the ref no stop function of this
    run. *)
Definition without_session (e : Event) (m : Modal.St) (ref : option StopFunction)
  : Modal.St * option StopFunction :=
  match e with
  | Session _ => (m, ref)
  | Playback (Modal.Hook _) => (m, ref)
  | Playback ev => (Modal.handle ev m, ref)
  | OtherSessionMade => (m, Some OfAnotherSession)
  end.

(** [catch (err) { setStatus('error') }], which does not test
    [cleanup]. *)
Definition caught (m : Modal.St) : Modal.St := Modal.setStatus Modal.Failed m.

Definition proceed (x : Step) (w : Effect) : Effect :=
  match w with
  | Awaiting m ref =>
      match x with
      | OwnStreamRefused => Thrown (caught m) ref
      | Returned dev =>
          match Live.connectLiveTriageSession dev with
          | inr session =>
              Wired {| live := session; modal := m;
                       stopSessionRef := Some OfThisSession |}
          | inl _ => Thrown (caught m) ref
          end
      | Then e => let '(m', ref') := without_session e m ref in Awaiting m' ref'
      end
  | Wired s =>
      match x with
      | Then e => Wired (handle e s)
      | _ => Wired s
      end
  | Thrown m ref =>
      match x with
      | Then e => let '(m', ref') := without_session e m ref in Thrown m' ref'
      | _ => Thrown m ref
      end
  end.

Definition proceed_all (xs : list Step) (w : Effect) : Effect :=
  fold_left (fun acc x => proceed x acc) xs w.

(** The effect as it starts on a component in state [m]. *)
Definition startSession (m : Modal.St) (ref : option StopFunction) : Effect :=
  Awaiting (Modal.startSession m) ref.

(** The component, in whatever phase. *)
Definition shown (w : Effect) : Modal.St :=
  match w with
  | Awaiting m _ | Thrown m _ => m
  | Wired s => modal s
  end.

Definition awaiting (w : Effect) : bool :=
  match w with
  | Awaiting _ _ => true
  | _ => false
  end.

(** The cleanup would find this run's stop function in the ref. *)
Definition holds_own_stop (w : Effect) : bool :=
  match w with
  | Wired s =>
      match stopSessionRef s with
      | Some OfThisSession => true
      | _ => false
      end
  | _ => false
  end.

(** The chunks sent on this run's session, if it has one. *)
Definition sent_on (w : Effect) : list AudioUtils.Blob :=
  match w with
  | Wired s => Live.sent (live s)
  | _ => []
  end.

Definition cleanupStep : Step := Then (Playback Modal.EffectCleanup).

(** The steps leave the setup unsettled. *)
Definition unsettled (xs : list Step) : bool :=
  forallb (fun x => match x with Then _ => true | _ => false end) xs.

(** The steps hold no cleanup of this run. *)
Definition no_cleanup (xs : list Step) : bool :=
  forallb (fun x => match x with
                    | Then (Playback Modal.EffectCleanup) => false
                    | _ => true
                    end) xs.

(** What happens to the session in the steps. *)
Fixpoint session_events (xs : list Step) : list Live.Event :=
  match xs with
  | [] => []
  | Then (Session e) :: rest => e :: session_events rest
  | _ :: rest => session_events rest
  end.

End System.

(* ================================================================= *)
(** ** Reading traces of a live session *)

Module Traces.

Import AudioUtils Live.

(** The events up to the first call of the stop function. *)
Fixpoint before_stop (es : list Event) : list Event :=
  match es with
  | [] => []
  | Stop :: _ => []
  | e :: rest => e :: before_stop rest
  end.

(** The handshake has succeeded by the end of the trace. *)
Fixpoint opened (es : list Event) : bool :=
  match es with
  | [] => false
  | Resolve :: _ => true
  | Reject _ :: _ => false
  | _ :: rest => opened rest
  end.

(** The error of a handshake that has failed by the end of the trace. *)
Fixpoint handshake_error (es : list Event) : option JsError :=
  match es with
  | [] => None
  | Resolve :: _ => None
  | Reject err :: _ => Some err
  | _ :: rest => handshake_error rest
  end.

(** An event that comes through one of the socket callbacks. *)
Definition is_socket (e : Event) : bool :=
  match e with
  | SocketOpen | SocketMessage _ | SocketClose | SocketError _ => true
  | _ => false
  end.

Definition no_socket (es : list Event) : bool :=
  forallb (fun e => negb (is_socket e)) es.

(** The audio of the first part of a message. *)
Definition first_part_audio (msg : LiveServerMessage) : option string :=
  match serverContent msg with
  | Some content =>
      match modelTurn content with
      | Some turn =>
          match parts turn with
          | Some (p :: _) =>
              match inlineData p with
              | Some i => inline_data i
              | None => None
              end
          | _ => None
          end
      | None => None
      end
  | None => None
  end.

(** What avatar mode may hand to the caller while [es] runs. *)
Definition avatar_hook (es : list Event) (c : Callback) : Prop :=
  match c with
  | OnAudioData d =>
      d <> EmptyString /\
      exists msg, In (SocketMessage msg) es /\ first_part_audio msg = Some d
  | OnOpen | OnClose => True
  | OnTranscription _ | OnError _ => False
  end.

(** A message whose parts are [ps]. *)
Definition message_of_parts (ps : list Part) : LiveServerMessage :=
  {| serverContent :=
       Some {| modelTurn := Some {| parts := Some ps |};
               inputTranscription := None |} |}.

(** A frame captured during the handshake, one after it, a stop, and a
    frame the tap still delivers afterwards. *)
Definition capture_then_stop : list Event :=
  [ AudioProcess sample_frame; SocketOpen; Resolve;
    AudioProcess [0%Q]; Stop; AudioProcess [1%Q] ].

(** A handshake that fails, then a stop. *)
Definition failed_handshake : list Event :=
  [ AudioProcess sample_frame; Reject "unreachable"%string; Stop; Resolve ].

End Traces.

(* ================================================================= *)
(** ** Reading the schedule of a session *)

Module Schedule.

Import Modal.

Local Open Scope Q_scope.

(** The playing time of the buffers started. *)
Definition total (l : list Started) : Q :=
  fold_right (fun b acc => dur b + acc) 0 l.

(** The buffer was scheduled before the clock had passed the cursor. *)
Definition in_time (b : Started) : Prop := clockAt b <= cursorBefore b.

End Schedule.

(* ================================================================= *)
(** ** After the effect's cleanup *)

Module Cleanup.

Import System.

(** What a cleaned-up component keeps, whatever reaches it. *)
Definition settled (a b : Modal.St) : Prop :=
  Modal.cleanup b = true /\
  Modal.status b = Modal.status a /\
  Modal.started b = Modal.started a /\
  Modal.nextStartTimeRef b = Modal.nextStartTimeRef a /\
  Modal.rejections b = Modal.rejections a /\
  (Modal.isTalking b = true -> Modal.isTalking a = true).

(** A run of the effect after its cleanup, against where it stood when
    the cleanup ran: the status may still turn to the error of a setup
    that throws late; the session, if the cleanup could stop it, is
    stopped and has sent nothing more. *)
Definition cleaned (w0 w : Effect) : Prop :=
  Modal.cleanup (shown w) = true /\
  Modal.started (shown w) = Modal.started (shown w0) /\
  Modal.nextStartTimeRef (shown w) = Modal.nextStartTimeRef (shown w0) /\
  Modal.rejections (shown w) = Modal.rejections (shown w0) /\
  (Modal.isTalking (shown w) = true -> Modal.isTalking (shown w0) = true) /\
  (Modal.status (shown w) = Modal.status (shown w0) \/
   Modal.status (shown w) = Modal.Failed /\ awaiting w0 = true) /\
  (awaiting w = true ->
   awaiting w0 = true /\ Modal.status (shown w) = Modal.status (shown w0)) /\
  (holds_own_stop w0 = true ->
   match w with
   | Wired s => Live.isCleaningUp (live s) = true /\ Live.sent (live s) = sent_on w0
   | _ => False
   end).

(** The modal is closed while the microphone is still being asked for;
    then the session is made, its handshake succeeds and a frame is
    captured. *)
Definition closed_while_connecting : list Step :=
  [ cleanupStep;
    Returned {| Live.resume := None; Live.getUserMedia := inr 1%nat |};
    Then (Session Live.Resolve);
    Then (Session (Live.AudioProcess [1 # 2; -1 # 2]%Q)) ].

(** The modal is closed on an open session, which then still captures
    a frame and receives audio. *)
Definition closed_while_open : list Step :=
  [ Then (Session (Live.AudioProcess [1 # 2; -1 # 2]%Q));
    Then (Session (Live.SocketMessage (Live.audio_message Modal.two_samples))) ].

End Cleanup.

(* ================================================================= *)
(** ** Strings as the components use them *)

Module Js.

(** A string is its sequence of code units; the code units of this
    development are those below 256. *)
Definition text := list ascii.

Definition lit (s : string) : text := list_ascii_of_string s.

(** White space and line terminators, as [trim] and the class [\s] see
    them: TAB, LF, VT, FF, CR, SP and NBSP. *)
Definition is_space (c : ascii) : bool :=
  match nat_of_ascii c with
  | 9 | 10 | 11 | 12 | 13 | 32 | 160 => true
  | _ => false
  end%nat.

(** Line terminators, which [.] does not match: LF and CR. *)
Definition is_line_terminator (c : ascii) : bool :=
  match nat_of_ascii c with
  | 10 | 13 => true
  | _ => false
  end%nat.

Fixpoint trimStart (s : text) : text :=
  match s with
  | c :: rest => if is_space c then trimStart rest else s
  | [] => []
  end.

Definition trimEnd (s : text) : text := rev (trimStart (rev s)).

Definition trim (s : text) : text := trimEnd (trimStart s).

Definition is_empty {A} (s : list A) : bool :=
  match s with
  | [] => true
  | _ => false
  end.

(** [s.endsWith(' ')] *)
Definition endsWithSpace (s : text) : bool :=
  match rev s with
  | c :: _ => Ascii.eqb c " "
  | [] => false
  end.

Fixpoint startsWith (p s : text) : bool :=
  match p, s with
  | [], _ => true
  | a :: p', b :: s' => Ascii.eqb a b && startsWith p' s'
  | _ :: _, [] => false
  end.

(** [s.includes(p)] *)
Fixpoint includes (p s : text) : bool :=
  startsWith p s ||
  match s with
  | [] => false
  | _ :: rest => includes p rest
  end.

(** [s.split('\n')] *)
Fixpoint lines (s : text) : list text :=
  match s with
  | [] => [[]]
  | c :: rest =>
      if Ascii.eqb c "010" then [] :: lines rest
      else match lines rest with
           | l :: ls => (c :: l) :: ls
           | [] => [[c]]
           end
  end.

(** [ws.join(' ')] *)
Fixpoint join (ws : list text) : text :=
  match ws with
  | [] => []
  | [w] => w
  | w :: rest => w ++ lit " " ++ join rest
  end.

End Js.

(* ================================================================= *)
(** ** App: dictation into the input field *)

Module Dictation.

Import Js.

(** The updater that the transcription hook passes to [setInputText]:
    the fragment is trimmed, a blank one is ignored, and a space is put
    before it unless the input is empty or already ends with one. *)
Definition onTranscription (fragment : text) (prev : text) : text :=
  let trimmed := trim fragment in
  if is_empty trimmed then prev
  else if (0 <? List.length prev)%nat && negb (endsWithSpace prev)
       then prev ++ lit " " ++ trimmed
       else prev ++ trimmed.

(** The input field after the fragments of a dictation, in order. *)
Definition dictate (fragments : list text) (input : text) : text :=
  fold_left (fun prev fragment => onTranscription fragment prev) fragments input.

(** The fragments that carry text, trimmed. *)
Definition words (fragments : list text) : list text :=
  filter (fun w => negb (is_empty w)) (map trim fragments).

(** The separator put between the input and the first word. *)
Definition separator (input : text) (ws : list text) : text :=
  if (0 <? List.length input)%nat && negb (endsWithSpace input) && negb (is_empty ws)
  then lit " " else [].

Definition heard : list text :=
  [ lit "  me duele "; lit "   "; lit "la cabeza"; lit ""; lit " hoy" ].

End Dictation.

(* ================================================================= *)
(** ** components/ChatArea: formatting a message *)

Module ChatArea.

Import Js.

(** A closing [**] comes before any line terminator: what is left for
    [(.*?)\*\*] to match after an opening [**]. *)
Fixpoint closes (s : text) : bool :=
  startsWith (lit "**") s ||
  match s with
  | [] => false
  | c :: rest => if is_line_terminator c then false else closes rest
  end.

Definition push (c : ascii) (parts : list text) : list text :=
  match parts with
  | p :: ps => (c :: p) :: ps
  | [] => [[c]]
  end.

(** [cleanLine.split(/\*\*(.*?)\*\*/g)], read from left to right:
    outside a match, [**] opens one when a closing [**] follows on the
    line, and the text up to the nearest closing [**] is the captured
    part; any other character goes to the part being read. *)
Fixpoint scan (inside : bool) (s : text) : list text :=
  match s with
  | [] => [[]]
  | c :: rest =>
      match rest with
      | d :: rest' =>
          if Ascii.eqb c "*" && Ascii.eqb d "*" && (inside || closes rest')
          then [] :: scan (negb inside) rest'
          else push c (scan inside rest)
      | [] => push c (scan inside rest)
      end
  end.

Definition splitBold (s : text) : list text := scan false s.

(** [/^[\*\-]\s+/.test(cleanLine)] *)
Definition isListLine (s : text) : bool :=
  match s with
  | c :: d :: _ => (Ascii.eqb c "*" || Ascii.eqb c "-") && is_space d
  | _ => false
  end.

(** [cleanLine.replace(/^[\*\-]\s+/, '')] on a list line. *)
Definition dropMarker (s : text) : text :=
  match s with
  | _ :: rest => trimStart rest
  | [] => []
  end.

(** What a line is rendered as: a spacer, or a row, with a bullet when
    [isList], whose parts at odd indices are bold. *)
Inductive Block :=
| Spacer
| Row (isList : bool) (parts : list text).

Definition formatLine (line : text) : Block :=
  let cleanLine := trim line in
  let isList := isListLine cleanLine in
  let cleanLine := if isList then dropMarker cleanLine else cleanLine in
  if is_empty cleanLine && negb isList then Spacer
  else Row isList (splitBold cleanLine).

Definition formatMessageText (t : text) : option (list Block) :=
  if is_empty t then None else Some (map formatLine (lines t)).

(** The parts written back, the bold ones between their markers. *)
Fixpoint render (bold : bool) (parts : list text) : text :=
  match parts with
  | [] => []
  | p :: rest =>
      (if bold then lit "**" ++ p ++ lit "**" else p) ++ render (negb bold) rest
  end.

(** The text a line shows, once trimmed and without its list marker. *)
Definition shown (line : text) : text :=
  if isListLine (trim line) then dropMarker (trim line) else trim line.

Definition is_newline (c : ascii) : bool := Ascii.eqb c "010".

Definition reply : text :=
  lit "* **Reposo**: descansa
- toma agua

Si hay **fiebre alta** ve a *urgencias*".

End ChatArea.

(* ================================================================= *)
(** ** services/geminiService: cleaning a response *)

Module Cleaning.

Import Js.

(** Upper case of a code unit below 128; the others are left alone, and
    never match a letter of a pattern. *)
Definition upper (c : ascii) : ascii :=
  let n := nat_of_ascii c in
  if ((97 <=? n) && (n <=? 122))%nat then ascii_of_nat (n - 32) else c.

(** Two code units match under the [i] flag. *)
Definition same_letter (a b : ascii) : bool := Ascii.eqb (upper a) (upper b).

Definition is_digit (c : ascii) : bool :=
  let n := nat_of_ascii c in ((48 <=? n) && (n <=? 57))%nat.

(** The text after [p] when [s] begins with [p], letters compared
    without case. *)
Fixpoint after_ci (p s : text) : option text :=
  match p, s with
  | [], _ => Some s
  | a :: p', b :: s' => if same_letter a b then after_ci p' s' else None
  | _ :: _, [] => None
  end.

Definition begins_ci (p s : text) : bool :=
  match after_ci p s with
  | Some _ => true
  | None => false
  end.

(** The pieces the patterns are made of. *)
Inductive Atom :=
| Ci (l : text)               (* a literal, under the [i] flag *)
| LazyAny                     (* [[\s\S]*?] *)
| Ahead (alts : list text)    (* [(?=a|b)], under the [i] flag *)
| Digits.                     (* [\d+] *)

(** [[\s\S]*?] before [k]: as few characters as [k] allows. *)
Fixpoint lazy_any (k : text -> option text) (s : text) : option text :=
  match k s with
  | Some rest => Some rest
  | None =>
      match s with
      | [] => None
      | _ :: t => lazy_any k t
      end
  end.

(** [\d+] before [k]: as many digits as [k] allows, at least one. *)
Fixpoint digits (k : text -> option text) (s : text) : option text :=
  match s with
  | c :: t =>
      if is_digit c then
        match digits k t with
        | Some rest => Some rest
        | None => k t
        end
      else None
  | [] => None
  end.

(** A pattern matched at the start of a text: what is left after the
    match. *)
Fixpoint matcher (re : list Atom) : text -> option text :=
  match re with
  | [] => fun s => Some s
  | Ci l :: k =>
      fun s => match after_ci l s with
               | Some rest => matcher k rest
               | None => None
               end
  | LazyAny :: k => lazy_any (matcher k)
  | Ahead alts :: k =>
      fun s => if existsb (fun a => begins_ci a s) alts then matcher k s else None
  | Digits :: k => digits (matcher k)
  end.

(** [s.replace(re, '')] without the [g] flag: the leftmost match goes. *)
Fixpoint replaceFirst (re : list Atom) (s : text) : text :=
  match matcher re s with
  | Some rest => rest
  | None =>
      match s with
      | [] => []
      | c :: t => c :: replaceFirst re t
      end
  end.

(** [s.replace(/^\* \*\*/gm, '')]: every ["* **"] that begins a line
    goes. *)
Fixpoint stripBullets (lineStart : bool) (s : text) : text :=
  match s with
  | [] => []
  | c :: t =>
      match t with
      | c2 :: c3 :: c4 :: t' =>
          if lineStart && Ascii.eqb c "*" && Ascii.eqb c2 " "
             && Ascii.eqb c3 "*" && Ascii.eqb c4 "*"
          then stripBullets false t'
          else c :: stripBullets (is_line_terminator c) t
      | _ => c :: stripBullets (is_line_terminator c) t
      end
  end.

(** The patterns, in the order they are applied. *)
Definition patterns : list (list Atom) :=
  [ [Ci (lit "Constraint Checklist & Confidence Score:"); LazyAny;
     Ahead [lit "Mental Sandbox"]];
    [Ci (lit "Mental Sandbox:"); LazyAny;
     Ahead [lit "Let's execute"; lit "Let's reply"]];
    [Ci (lit "Constraint Checklist"); LazyAny; Ci (lit "Confidence Score: ");
     Digits; Ci (lit "/"); Digits];
    [Ci (lit "Confidence Score: "); Digits; Ci (lit "/"); Digits];
    [Ci (lit "Mental Sandbox:")];
    [Ci (lit "Let's execute the tool call")] ].

Definition answer : text := lit "Answer:".

(** The last of [s.split("Answer:")] when there are several: the text
    after the last ["Answer:"], which cannot overlap itself. *)
Fixpoint afterLast (p s : text) : option text :=
  match s with
  | [] => None
  | _ :: t =>
      match afterLast p t with
      | Some rest => Some rest
      | None => if startsWith p s then Some (skipn (List.length p) s) else None
      end
  end.

Definition cleanResponseText (t : text) : text :=
  if is_empty t then []
  else
    let cleaned := fold_left (fun acc re => replaceFirst re acc) patterns t in
    let cleaned := stripBullets true cleaned in
    match afterLast answer cleaned with
    | Some last => trim last
    | None => trim cleaned
    end.

(** [a] can be got from [b] by deleting characters. *)
Inductive subseq : text -> text -> Prop :=
| subseq_nil : subseq [] []
| subseq_drop a c b : subseq a b -> subseq a (c :: b)
| subseq_keep a c b : subseq a b -> subseq (c :: a) (c :: b).

(** [b] is what is left of [s] after some first characters. *)
Definition suffix (b s : text) : Prop := exists pre, s = pre ++ b.

(** What a matcher leaves is the end of what it was given. *)
Definition leaves_suffix (k : text -> option text) : Prop :=
  forall s rest, k s = Some rest -> suffix rest s.

(** Neither the first nor the last character is white space. *)
Definition trimmed (s : text) : Prop :=
  trimStart s = s /\ trimEnd s = s.

(** [p] occurs in [s], letters compared without case. *)
Fixpoint includes_ci (p s : text) : bool :=
  begins_ci p s ||
  match s with
  | [] => false
  | _ :: t => includes_ci p t
  end.

(** ["* **"] begins some line of [s]. *)
Fixpoint has_bullet (lineStart : bool) (s : text) : bool :=
  (lineStart && startsWith (lit "* **") s) ||
  match s with
  | [] => false
  | c :: t => has_bullet (is_line_terminator c) t
  end.

(** The markers that make the cleaner act. *)
Definition markers : list text :=
  [ lit "Constraint Checklist"; lit "Confidence Score: ";
    lit "Mental Sandbox:"; lit "Let's execute the tool call" ].

(** A reply without any of the artifacts. *)
Definition ordinary (t : text) : bool :=
  forallb (fun m => negb (includes_ci m t)) markers
  && negb (has_bullet true t)
  && negb (includes answer t).

Definition plain_reply : text :=
  lit "  Toma **agua** y descansa.
- Si sigue la fiebre, ve a urgencias.  ".

Definition raw_reply : text :=
  lit "Constraint Checklist & Confidence Score: ok Confidence Score: 5/5
Mental Sandbox: try this. Let's execute the tool call
* **Reposo** y agua.
Answer: descansa hoy. ".

End Cleaning.

(* ================================================================= *)
(** ** services/geminiService: the text chat *)

Module Chat.

Import Js Cleaning.

(** [s.toLowerCase()], on code units below 256. *)
Definition lower (c : ascii) : ascii :=
  let n := nat_of_ascii c in
  if ((65 <=? n) && (n <=? 90))%nat then ascii_of_nat (n + 32)
  else if ((192 <=? n) && (n <=? 222) && negb (n =? 215))%nat then ascii_of_nat (n + 32)
  else c.

Definition toLowerCase (s : text) : text := map lower s.

Definition a_acute : ascii := ascii_of_nat 225.
Definition e_acute : ascii := ascii_of_nat 233.
Definition i_acute : ascii := ascii_of_nat 237.
Definition o_acute : ascii := ascii_of_nat 243.

Definition mapKeywords : list text :=
  [ lit "clinic"; lit "cl" ++ i_acute :: lit "nica"; lit "hospital";
    lit "pharmacy"; lit "farmacia"; lit "droguer" ++ i_acute :: lit "a";
    lit "medicina"; lit "medicine"; lit "buy"; lit "comprar"; lit "receta";
    lit "prescription"; lit "cerca"; lit "near";
    lit "ubicaci" ++ o_acute :: lit "n"; lit "location"; lit "donde";
    lit "where"; lit "urgencia"; lit "emergency"; lit "doctor";
    lit "m" ++ e_acute :: lit "dico"; lit "especialista";
    lit "centro de salud"; lit "health center"; lit "estoy";
    lit "aqu" ++ [i_acute]; lit "ayuda"; lit "help"; lit "dolor"; lit "pain";
    lit "sangre"; lit "blood"; lit "accidente"; lit "accident";
    lit "infarto"; lit "heart attack"; lit "me siento mal"; lit "dizzy";
    lit "mareado"; lit "perdido"; lit "lost" ].

(** [mapKeywords.some(keyword => lowerMsg.includes(keyword))] *)
Definition needsMaps (userMessage : text) : bool :=
  let lowerMsg := toLowerCase userMessage in
  existsb (fun keyword => includes keyword lowerMsg) mapKeywords.

(** *** What the service answers *)

Record Place := { uri : option text; title : option text }.
Record GroundingChunk := { maps : option Place }.
Record GroundingMetadata := { groundingChunks : option (list GroundingChunk) }.
Record Candidate := { groundingMetadata : option GroundingMetadata }.
(** [responseText] is [response.text]. *)
Record Response := { responseText : option text; candidates : option (list Candidate) }.

(** A string is truthy when it is defined and not empty. *)
Definition truthy (o : option text) : bool :=
  match o with
  | Some (_ :: _) => true
  | _ => false
  end.

(** [o || fallback] *)
Definition or_else (o : option text) (fallback : text) : text :=
  match o with
  | Some (c :: s) => c :: s
  | _ => fallback
  end.

(** [c.maps?.uri || c.maps?.title] *)
Definition has_place (c : GroundingChunk) : bool :=
  match maps c with
  | Some p => truthy (uri p) || truthy (title p)
  | None => false
  end.

(** [{ uri: c.maps.uri, title: c.maps.title }]; [c.maps] is defined on
    every chunk the filter keeps. *)
Definition link_of (c : GroundingChunk) : Place :=
  match maps c with
  | Some p => {| uri := uri p; title := title p |}
  | None => {| uri := None; title := None |}
  end.

(** [response.candidates?.[0]?.groundingMetadata?.groundingChunks
      ?.filter(..).map(..).slice(0, 5)] *)
Definition mapLinks (response : Response) : option (list Place) :=
  match candidates response with
  | Some (first :: _) =>
      match groundingMetadata first with
      | Some meta =>
          match groundingChunks meta with
          | Some chunks => Some (firstn 5 (map link_of (filter has_place chunks)))
          | None => None
          end
      | None => None
      end
  | _ => None
  end.

(** *** Requests *)

Inductive Sender := User | Bot.

Inductive Kind := Text | AudioTranscription | MapResult.

Record Message := {
  id : Z;                           (* the clock reading it was made from *)
  body : text;
  sender : Sender;
  timestamp : Z;
  kind : Kind;
  links : option (list Place)       (* metadata.mapLinks *)
}.

Record Location := { latitude : Q; longitude : Q }.

Inductive Model := Flash | Pro.

Inductive Role := AsUser | AsModel.

(** One entry of [contents]; the system instruction is built from the
    location alone. *)
Inductive Content :=
| Instruction (location : option Location)
| Turn (role : Role) (said : text).

Record Request := {
  model : Model;
  contents : list Content;
  googleMaps : option Location;     (* tools and toolConfig of the maps call *)
  thinkingBudget : option nat
}.

Definition contents_of (location : option Location) (history : list Message)
           (userMessage : text) : list Content :=
  Instruction location
  :: map (fun m => Turn (match sender m with User => AsUser | Bot => AsModel end)
                        (body m)) history
  ++ [Turn AsUser userMessage].

Definition JsError := string.

(** What the platform gives: the position, if any, and the answer of
    the service to each request. *)
Record Env := {
  getCurrentLocation : option Location;
  generateContent : Request -> JsError + Response
}.

Definition not_found : text :=
  lit "Lo siento, no pude encontrar esa informaci" ++ o_acute :: lit "n.".

Definition maps_trouble : text :=
  lit "Lo siento, tuve un problema buscando la ubicaci" ++ o_acute
      :: lit "n. Por favor intenta de nuevo.".

Definition service_error : text := lit "Error en el servicio.".

Record Reply := { reply_text : text; reply_links : option (list Place) }.

Definition maps_request (location : Location) (history : list Message)
           (userMessage : text) : Request :=
  {| model := Flash;
     contents := contents_of (Some location) history userMessage;
     googleMaps := Some location; thinkingBudget := None |}.

Definition pro_request (location : option Location) (history : list Message)
           (userMessage : text) : Request :=
  {| model := Pro;
     contents := contents_of location history userMessage;
     googleMaps := None; thinkingBudget := Some 1024%nat |}.

Definition fallback_request (location : option Location) (history : list Message)
           (userMessage : text) : Request :=
  {| model := Flash;
     contents := contents_of location history userMessage;
     googleMaps := None; thinkingBudget := None |}.

(** The [try] block of the chat path: the text of the stronger model,
    or nothing when the call fails or the cleaned text is empty. *)
Definition pro_text (env : Env) (location : option Location)
           (history : list Message) (userMessage : text) : option text :=
  match generateContent env (pro_request location history userMessage) with
  | inr response =>
      let t := cleanResponseText (or_else (responseText response) []) in
      if is_empty t then None else Some t
  | inl _ => None
  end.

(** The branch taken when the message asks for a place and the position
    is known: one call, whose failure is answered by an apology. *)
Definition maps_reply (env : Env) (here : Location) (history : list Message)
           (userMessage : text) : JsError + Reply :=
  match generateContent env (maps_request here history userMessage) with
  | inr response =>
      inr {| reply_text := cleanResponseText (or_else (responseText response) not_found);
             reply_links := mapLinks response |}
  | inl _ => inr {| reply_text := maps_trouble; reply_links := None |}
  end.

(** The other branch: the stronger model, then the fallback, whose
    failure is the caller's. *)
Definition chat_reply (env : Env) (location : option Location)
           (history : list Message) (userMessage : text) : JsError + Reply :=
  match pro_text env location history userMessage with
  | Some t => inr {| reply_text := t; reply_links := None |}
  | None =>
      match generateContent env (fallback_request location history userMessage) with
      | inr response =>
          inr {| reply_text := cleanResponseText (or_else (responseText response) service_error);
                 reply_links := None |}
      | inl err => inl err
      end
  end.

Definition sendMessageToDrGemini (env : Env) (history : list Message)
           (userMessage : text) : JsError + Reply :=
  let location := getCurrentLocation env in
  match needsMaps userMessage, location with
  | true, Some here => maps_reply env here history userMessage
  | _, _ => chat_reply env location history userMessage
  end.

(** The message goes the maps way. *)
Definition by_maps (env : Env) (userMessage : text) : bool :=
  needsMaps userMessage &&
  match getCurrentLocation env with
  | Some _ => true
  | None => false
  end.

End Chat.

(* ================================================================= *)
(** ** components/ChatArea: the places of a reply *)

Module Places.

Import Js Chat.

Definition search : text := lit "https://www.google.com/maps/search/?api=1&query=".

(** [link.uri || `https://www.google.com/maps/search/?api=1&query=${
    encodeURIComponent(link.title)}`]; the encoding is the platform's. *)
Definition safeUrl (encodeURIComponent : option text -> text) (link : Place) : text :=
  match uri link with
  | Some (c :: s) => c :: s
  | _ => search ++ encodeURIComponent (title link)
  end.

(** [msg.metadata?.mapLinks && msg.metadata.mapLinks.length > 0] *)
Definition places_shown (m : Message) : bool :=
  match links m with
  | Some (_ :: _) => true
  | _ => false
  end.

(** A link that can be followed: it has a uri, or a title to search
    for. *)
Definition has_target (link : Place) : Prop :=
  truthy (uri link) = true \/ truthy (title link) = true.

(** [response.candidates?.[0]?.groundingMetadata?.groundingChunks] *)
Definition grounding (response : Response) : option (list GroundingChunk) :=
  match candidates response with
  | Some (first :: _) =>
      match groundingMetadata first with
      | Some meta => groundingChunks meta
      | None => None
      end
  | _ => None
  end.

(** [taken n chunks found]: going through [chunks] from the first,
    [found] holds the place of every chunk that carries a non-empty uri
    or a non-empty title, in that order, until [n] places are taken. *)
Inductive taken : nat -> list GroundingChunk -> list Place -> Prop :=
| taken_enough chunks : taken 0 chunks []
| taken_all n : taken n [] []
| taken_skip n c chunks found :
    has_place c = false -> taken n chunks found -> taken n (c :: chunks) found
| taken_keep n c p chunks found :
    maps c = Some p -> has_place c = true -> taken n chunks found ->
    taken (S n) (c :: chunks) (p :: found).

Definition six_places : Response :=
  {| responseText := Some (lit "Answer: Estas son las opciones.");
     candidates :=
       Some [ {| groundingMetadata :=
                   Some {| groundingChunks :=
                     Some [ {| maps := Some {| uri := Some (lit "u1"); title := Some (lit "A") |} |};
                            {| maps := None |};
                            {| maps := Some {| uri := None; title := Some (lit "B") |} |};
                            {| maps := Some {| uri := Some []; title := None |} |};
                            {| maps := Some {| uri := Some (lit "u3"); title := None |} |};
                            {| maps := Some {| uri := Some (lit "u4"); title := Some (lit "D") |} |};
                            {| maps := Some {| uri := Some (lit "u5"); title := Some (lit "E") |} |};
                            {| maps := Some {| uri := Some (lit "u6"); title := Some (lit "F") |} |} ] |} |} ] |}.

End Places.

(* ================================================================= *)
(** ** Some answers of the service *)

Module Answers.

Import Js Chat.

(** A service that is down. *)
Definition service_down : Env :=
  {| getCurrentLocation := None;
     generateContent := fun _ => inl "503"%string |}.

(** A service whose stronger model fails and whose other model answers,
    with a known position. *)
Definition pro_down : Env :=
  {| getCurrentLocation := Some {| latitude := 4; longitude := -74 |};
     generateContent := fun request =>
       match model request with
       | Pro => inl "overloaded"%string
       | Flash => inr Places.six_places
       end |}.

End Answers.

(* ================================================================= *)
(** ** App: the chat and the microphone *)

Module App.

Import Js Chat.

(** A call of [sendMessageToDrGemini] that is still awaited, with the
    arguments it was given. *)
Record Asked := { asked_history : list Message; asked_text : text }.

Record St := {
  messages : list Message;
  inputText : text;
  isTyping : bool;
  isRecording : bool;
  stopDictationRef : option nat;    (* the stop function of that session *)
  sessions : list Live.St;          (* the dictation sessions made, oldest first *)
  starting : nat;                   (* calls of startLiveDictation still in their setup *)
  asked : list Asked;               (* oldest first *)
  alerts : nat                      (* calls of alert *)
}.

Definition inverted_question : ascii := ascii_of_nat 191.

Definition greeting (now : Z) : Message :=
  {| id := 1;
     body := lit "Hola, soy el Dr. Nex. Soy tu asistente m" ++ e_acute ::
             lit "dico de triaje. " ++ inverted_question ::
             lit "Cu" ++ a_acute :: lit "les son tus s" ++ i_acute ::
             lit "ntomas hoy?";
     sender := Bot; timestamp := now; kind := Text; links := None |}.

Definition initial : St :=
  {| messages := [greeting 0]; inputText := []; isTyping := false;
     isRecording := false; stopDictationRef := None; sessions := [];
     starting := 0; asked := []; alerts := 0 |}.

Definition setMessages (f : list Message -> list Message) (s : St) : St :=
  {| messages := f (messages s); inputText := inputText s; isTyping := isTyping s;
     isRecording := isRecording s; stopDictationRef := stopDictationRef s;
     sessions := sessions s; starting := starting s; asked := asked s;
     alerts := alerts s |}.

Definition setInputText (f : text -> text) (s : St) : St :=
  {| messages := messages s; inputText := f (inputText s); isTyping := isTyping s;
     isRecording := isRecording s; stopDictationRef := stopDictationRef s;
     sessions := sessions s; starting := starting s; asked := asked s;
     alerts := alerts s |}.

Definition setIsTyping (v : bool) (s : St) : St :=
  {| messages := messages s; inputText := inputText s; isTyping := v;
     isRecording := isRecording s; stopDictationRef := stopDictationRef s;
     sessions := sessions s; starting := starting s; asked := asked s;
     alerts := alerts s |}.

Definition setIsRecording (v : bool) (s : St) : St :=
  {| messages := messages s; inputText := inputText s; isTyping := isTyping s;
     isRecording := v; stopDictationRef := stopDictationRef s;
     sessions := sessions s; starting := starting s; asked := asked s;
     alerts := alerts s |}.

Definition setRef (r : option nat) (s : St) : St :=
  {| messages := messages s; inputText := inputText s; isTyping := isTyping s;
     isRecording := isRecording s; stopDictationRef := r;
     sessions := sessions s; starting := starting s; asked := asked s;
     alerts := alerts s |}.

Definition setSessions (l : list Live.St) (s : St) : St :=
  {| messages := messages s; inputText := inputText s; isTyping := isTyping s;
     isRecording := isRecording s; stopDictationRef := stopDictationRef s;
     sessions := l; starting := starting s; asked := asked s;
     alerts := alerts s |}.

Definition setStarting (n : nat) (s : St) : St :=
  {| messages := messages s; inputText := inputText s; isTyping := isTyping s;
     isRecording := isRecording s; stopDictationRef := stopDictationRef s;
     sessions := sessions s; starting := n; asked := asked s;
     alerts := alerts s |}.

Definition setAsked (l : list Asked) (s : St) : St :=
  {| messages := messages s; inputText := inputText s; isTyping := isTyping s;
     isRecording := isRecording s; stopDictationRef := stopDictationRef s;
     sessions := sessions s; starting := starting s; asked := l;
     alerts := alerts s |}.

Definition alert (s : St) : St :=
  {| messages := messages s; inputText := inputText s; isTyping := isTyping s;
     isRecording := isRecording s; stopDictationRef := stopDictationRef s;
     sessions := sessions s; starting := starting s; asked := asked s;
     alerts := S (alerts s) |}.

(** The list with its [i]-th element put through [f]. *)
Fixpoint at_index {A} (i : nat) (f : A -> A) (l : list A) : list A :=
  match l, i with
  | [], _ => []
  | x :: r, O => f x :: r
  | x :: r, S j => x :: at_index j f r
  end.

(** [if (stopDictationRef.current) { stopDictationRef.current();
    stopDictationRef.current = null; }] *)
Definition stopDictation (s : St) : St :=
  match stopDictationRef s with
  | Some i => setRef None (setSessions (at_index i Live.stop (sessions s)) s)
  | None => s
  end.

(** *** The hooks given to [startLiveDictation] *)

Definition onTranscription (fragment : string) (s : St) : St :=
  setInputText (Dictation.onTranscription (list_ascii_of_string fragment)) s.

Definition onError (s : St) : St :=
  stopDictation (setIsRecording false s).

Definition onClose (s : St) : St :=
  setRef None (setIsRecording false s).

Definition hook (c : Live.Callback) (s : St) : St :=
  match c with
  | Live.OnTranscription fragment => onTranscription fragment s
  | Live.OnError _ => onError s
  | Live.OnClose => onClose s
  | _ => s
  end.

(** *** The handlers *)

Definition handleMicClick (s : St) : St :=
  if isRecording s then setIsRecording false (stopDictation s)
  else setStarting (S (starting s)) (setIsRecording true s).

(** The rest of [handleMicClick] once [startLiveDictation] has settled:
    the stop function is kept, or the failure is told. *)
Definition started (dev : Live.Device) (s : St) : St :=
  match starting s with
  | O => s
  | S n =>
      let s := setStarting n s in
      match Live.startLiveDictation dev with
      | inr session =>
          setRef (Some (List.length (sessions s)))
                 (setSessions (sessions s ++ [session]) s)
      | inl _ => alert (setIsRecording false s)
      end
  end.

Definition handleSend (now : Z) (s : St) : St :=
  let textToSend := inputText s in
  if is_empty (trim textToSend) then s
  else
    let s1 := if isRecording s then setIsRecording false (stopDictation s) else s in
    let userMsg := {| id := now; body := textToSend; sender := User;
                      timestamp := now; kind := Text; links := None |} in
    let s2 := setMessages (fun prev => prev ++ [userMsg]) s1 in
    let s3 := setIsTyping true (setInputText (fun _ => []) s2) in
    setAsked (asked s3 ++ [{| asked_history := messages s; asked_text := textToSend |}]) s3.

Fixpoint without {A} (k : nat) (l : list A) : list A :=
  match l, k with
  | [], _ => []
  | _ :: r, O => r
  | x :: r, S j => x :: without j r
  end.

(** The rest of [handleSend] once the [k]-th awaited call settles. *)
Definition answered (k : nat) (env : Env) (now : Z) (s : St) : St :=
  match nth_error (asked s) k with
  | None => s
  | Some call =>
      let s := setAsked (without k (asked s)) s in
      let s :=
        match sendMessageToDrGemini env (asked_history call) (asked_text call) with
        | inr reply =>
            let botMsg := {| id := now + 1; body := reply_text reply; sender := Bot;
                             timestamp := now;
                             kind := match reply_links reply with
                                     | Some _ => MapResult
                                     | None => Text
                                     end;
                             links := reply_links reply |} in
            setMessages (fun prev => prev ++ [botMsg]) s
        | inl _ => s
        end in
      setIsTyping false s
  end.

(** The round button of the chat area:
    [isRecording ? onMicClick : (inputRaw.trim() ? onSend : onMicClick)]. *)
Definition button (now : Z) (s : St) : St :=
  if isRecording s then handleMicClick s
  else if is_empty (trim (inputText s)) then handleMicClick s
  else handleSend now s.

Inductive Event :=
| Typed (value : text)                 (* the input field changes *)
| Enter (now : Z)                      (* the Enter key: onSend *)
| Button (now : Z)                     (* the round button *)
| Started (dev : Live.Device)          (* a setup of startLiveDictation ends *)
| Session (i : nat) (e : Live.Event)   (* something happens to session i *)
| Answered (k : nat) (env : Env) (now : Z).   (* an awaited call settles *)

(** The session's events reach its callbacks; the stop function is the
    App's to call. *)
Definition session (i : nat) (e : Live.Event) (s : St) : St :=
  match e, nth_error (sessions s) i with
  | Live.Stop, _ => s
  | _, None => s
  | _, Some st =>
      let '(st', out) := Live.handle Live.Dictation e st in
      fold_left (fun acc c => hook c acc) out
                (setSessions (at_index i (fun _ => st') (sessions s)) s)
  end.

Definition handle (e : Event) (s : St) : St :=
  match e with
  | Typed value => setInputText (fun _ => value) s
  | Enter now => handleSend now s
  | Button now => button now s
  | Started dev => started dev s
  | Session i ev => session i ev s
  | Answered k env now => answered k env now s
  end.

Definition run (es : list Event) (s : St) : St :=
  fold_left (fun acc e => handle e acc) es s.

(** *** Observations *)

(** A session on which the stop function ran once, or never. *)
Definition released_at_most_once (st : Live.St) : Prop :=
  Live.torn_down (if Live.isCleaningUp st then 1 else 0) st.

(** The session still holds the microphone: no step of its teardown has
    run. *)
Definition still_capturing (st : Live.St) : Prop :=
  Live.isCleaningUp st = false /\
  Forall (fun k => k = 0%nat) (Live.trackStops st) /\
  Live.sourceDisconnects st = 0%nat /\
  Live.processorDisconnects st = 0%nat /\
  Live.contextCloses st = 0%nat /\
  Live.sessionCloses st = 0%nat.

(** The stop function kept in the ref belongs to a session that was
    made and has not been stopped. *)
Definition ref_is_fresh (s : St) : Prop :=
  forall i, stopDictationRef s = Some i ->
            exists st, nth_error (sessions s) i = Some st /\
                       Live.isCleaningUp st = false.

Definition tidy (s : St) : Prop :=
  Forall released_at_most_once (sessions s) /\ ref_is_fresh s.

(** Session [i] runs and nothing holds its stop function. *)
Definition orphan (i : nat) (s : St) : Prop :=
  stopDictationRef s <> Some i /\
  exists st, nth_error (sessions s) i = Some st /\ Live.isCleaningUp st = false.

(** What a message of the conversation looks like. *)
Definition sound (msg : Message) : Prop :=
  match sender msg with
  | User =>
      is_empty (trim (body msg)) = false /\ kind msg = Text /\ links msg = None
  | Bot =>
      Cleaning.trimmed (body msg) /\
      includes Cleaning.answer (body msg) = false /\
      (kind msg = MapResult <-> links msg <> None) /\
      (forall found, links msg = Some found ->
                     (List.length found <= 5)%nat /\ Forall Places.has_target found)
  end.

Definition microphone : Live.Device :=
  {| Live.resume := None; Live.getUserMedia := inr 1%nat |}.

Definition says (fragment : string) : Live.LiveServerMessage :=
  {| Live.serverContent :=
       Some {| Live.modelTurn := None;
               Live.inputTranscription := Some {| Live.text := Some fragment |} |} |}.

(** The microphone is switched on and something is dictated; then the
    far end closes, and the user goes on. *)
Definition dictating : list Event :=
  [ Button 10; Started microphone; Session 0 Live.Resolve;
    Session 0 (Live.SocketMessage (says "me duele")) ].

Definition and_on : list Event :=
  [ Typed (lit "hola"); Enter 20; Button 30; Started microphone; Button 40 ].

End App.

(* ================================================================= *)
(** ** Rounding to binary64 *)

Module NumberFacts.

Import Number.

Local Open Scope Q_scope.

Lemma pow2_pos k : 0 < 2 ^ k.
Proof. apply Qpower_0_lt. reflexivity. Qed.

Lemma pow2_plus a b : 2 ^ (a + b) == 2 ^ a * 2 ^ b.
Proof. apply Qpower_plus. discriminate. Qed.

Lemma pow2_nonneg_Z k : (0 <= k)%Z -> 2 ^ k == inject_Z (2 ^ k).
Proof. intro H. symmetry. apply (Zpower_Qpower 2 k H). Qed.







Lemma ilog2_lt a : 0 < a -> a < 2 ^ (ilog2 a + 1).
Proof.
  intro Ha. unfold ilog2.
  set (n := Qnum a). set (d := Zpos (Qden a)).
  destruct (Qle_bool (2 ^ (Z.log2 n - Z.log2 d)) a) eqn:E.
  - assert (Hn : (0 < n)%Z).
    { unfold Qlt in Ha. cbn in Ha. subst n. lia. }
    assert (Hd : (0 < d)%Z) by (subst d; lia).
    destruct (Z.log2_spec n Hn) as [_ Ln].
    destruct (Z.log2_spec d Hd) as [Ld _].
    pose proof (Z.log2_nonneg n) as Nn. pose proof (Z.log2_nonneg d) as Nd.
    assert (Ea : a == inject_Z n / inject_Z d).
    { subst n d. rewrite <- Qmake_Qdiv. now destruct a. }
    assert (Dq : 0 < inject_Z d).
    { change 0 with (inject_Z 0). now rewrite <- Zlt_Qlt. }
    rewrite Ea. apply Qlt_shift_div_r; [exact Dq|].
    apply Qlt_le_trans with (2 ^ (Z.log2 n - Z.log2 d + 1) * 2 ^ Z.log2 d).
    + rewrite <- pow2_plus.
      replace (Z.log2 n - Z.log2 d + 1 + Z.log2 d)%Z with (Z.succ (Z.log2 n)) by lia.
      rewrite pow2_nonneg_Z by lia. now rewrite <- Zlt_Qlt.
    + apply Qmult_le_l; [apply pow2_pos|].
      rewrite pow2_nonneg_Z by lia. now rewrite <- Zle_Qle.
  - replace (Z.log2 n - Z.log2 d - 1 + 1)%Z with (Z.log2 n - Z.log2 d)%Z by lia.
    apply Qnot_le_lt. intro H. apply Qle_bool_iff in H. congruence.
Qed.

Lemma nearest_even_range t k :
  0 <= t -> t < inject_Z k -> (0 <= nearest_even t <= k)%Z.
Proof.
  intros T0 Tk. unfold nearest_even.
  assert (F0 : (0 <= Qfloor t)%Z).
  { change 0%Z with (Qfloor 0). now apply Qfloor_resp_le. }
  assert (Fk : (Qfloor t < k)%Z).
  { apply Z.lt_nge. intro H. rewrite Zle_Qle in H.
    pose proof (Qfloor_le t). lra. }
  destruct (Qcompare _ _); [destruct (Z.even _)| |]; lia.
Qed.

(** The result is a double: at most 53 significant bits over an exponent
    not below that of the subnormals. *)
Lemma binary64_is_double x :
  exists m e : Z,
    binary64 x == inject_Z m * 2 ^ e /\
    (Z.abs m <= 2 ^ 53)%Z /\ (-1074 <= e)%Z.
Proof.
  assert (P : forall a, 0 < a ->
            let e := Z.max (-1074) (ilog2 a - 52) in
            (0 <= nearest_even (a / 2 ^ e) <= 2 ^ 53)%Z).
  { intros a Ha e. pose proof (pow2_pos e) as Pe.
    apply nearest_even_range.
    - apply Qle_shift_div_l; lra.
    - apply Qlt_shift_div_r; [exact Pe|].
      apply Qlt_le_trans with (2 ^ (ilog2 a + 1)); [now apply ilog2_lt|].
      change (inject_Z (2 ^ 53)) with (2 ^ 53).
      rewrite <- pow2_plus.
      apply Qpower_le_compat_l; [subst e; lia | discriminate]. }
  destruct x as [[|p|p] d]; unfold binary64; cbn [Qnum].
  - exists 0%Z, 0%Z. split; [reflexivity|]. split; [discriminate | lia].
  - change (Qabs (Z.pos p # d)) with (Z.pos p # d). cbn zeta.
    assert (Hx : 0 < Z.pos p # d) by reflexivity.
    specialize (P _ Hx). cbn zeta in P.
    replace (Qle_bool 0 (Z.pos p # d)) with true by reflexivity.
    eexists _, _. split; [reflexivity|]. split; lia.
  - change (Qabs (Z.neg p # d)) with (Z.pos p # d). cbn zeta.
    assert (Hx : 0 < Z.pos p # d) by reflexivity.
    specialize (P _ Hx). cbn zeta in P.
    replace (Qle_bool 0 (Z.neg p # d)) with false by reflexivity.
    set (e := Z.max (-1074) (ilog2 (Z.pos p # d) - 52)) in *.
    set (m := nearest_even _) in *.
    exists (- m)%Z, e. split; [|split; lia].
    rewrite inject_Z_opp. ring.
Qed.

(** The literal [0.1] is a little more than a tenth. *)
Example tenth_as_a_double :
  binary64 (1 # 10) == 3602879701896397 # 36028797018963968.
Proof. vm_compute. reflexivity. Qed.

(** A quarter less [0.1] is the double [0.15], below fifteen hundredths. *)
Example quarter_less_a_tenth :
  binary64 ((1 # 4) - binary64 (1 # 10)) == binary64 (15 # 100) /\
  binary64 (15 # 100) < 15 # 100.
Proof. split; vm_compute; reflexivity. Qed.

(** Ties go to the even neighbour. *)
Example ties_to_even :
  binary64 9007199254740993 == 9007199254740992 /\
  binary64 9007199254740995 == 9007199254740996.
Proof. split; vm_compute; reflexivity. Qed.

(** The sum of the doubles [0.1] and [0.2] is [0.30000000000000004]. *)
Example tenth_and_fifth :
  binary64 (binary64 (1 # 10) + binary64 (2 # 10)) ==
  5404319552844596 # 18014398509481984.
Proof. vm_compute. reflexivity. Qed.

(** Half the smallest subnormal goes to zero, one and a half to two. *)
Example smallest_subnormals :
  binary64 (2 ^ (-1075)) == 0 /\
  binary64 (3 * 2 ^ (-1075)) == 2 ^ (-1073).
Proof. split; vm_compute; reflexivity. Qed.

End NumberFacts.

(* ================================================================= *)
(** * Properties *)

(** ** The encoder and the decoder *)

Module AudioUtilsFacts.

Import AudioUtils.

Lemma list_ind3 {A} (P : list A -> Prop) :
  P [] ->
  (forall a, P [a]) ->
  (forall a b, P [a; b]) ->
  (forall a b c r, P r -> P (a :: b :: c :: r)) ->
  forall l, P l.
Proof.
  intros H0 H1 H2 H3.
  assert (step : forall l, P l /\ (forall a, P (a :: l)) /\ (forall a b, P (a :: b :: l))).
  { induction l as [|x l (IHa & IHb & IHc)]; repeat split; auto. }
  intro l. apply (step l).
Qed.

(** *** Base64 *)

Lemma sextets_ok : forallb (fun i => sextet_ok (Z.of_nat i)) (seq 0 64) = true.
Proof. vm_compute. reflexivity. Qed.

Lemma sextet_ok_all n : 0 <= n < 64 -> sextet_ok n = true.
Proof.
  intro Hn.
  pose proof sextets_ok as H.
  rewrite forallb_forall in H.
  specialize (H (Z.to_nat n)).
  rewrite Z2Nat.id in H by lia.
  apply H. apply in_seq. lia.
Qed.

Lemma b64val_b64char n : 0 <= n < 64 -> b64val (b64char n) = Some n.
Proof.
  intro Hn. pose proof (sextet_ok_all n Hn) as H.
  unfold sextet_ok in H.
  destruct (b64val (b64char n)) as [k|]; [|discriminate].
  apply andb_true_iff in H. destruct H as [H _].
  apply Z.eqb_eq in H. now subst.
Qed.

Lemma b64char_not_pad n : 0 <= n < 64 -> Ascii.eqb (b64char n) pad = false.
Proof.
  intro Hn. pose proof (sextet_ok_all n Hn) as H.
  unfold sextet_ok in H.
  destruct (b64val (b64char n)) as [k|]; [|discriminate].
  apply andb_true_iff in H. destruct H as [_ H].
  now apply negb_true_iff in H.
Qed.

Lemma pad_is_pad : Ascii.eqb pad pad = true.
Proof. reflexivity. Qed.

Ltac sextet :=
  match goal with
  | |- 0 <= _ < 64 => Z.to_euclidean_division_equations; lia
  end.

Lemma decode_encode (bs : Bytes) :
  Forall is_byte bs -> decode (encode bs) = Some bs.
Proof.
  induction bs as [|a|a b|a b c r IH] using list_ind3; intro Hb.
  - reflexivity.
  - inversion_clear Hb as [|? ? Ha _]. unfold is_byte in Ha.
    cbn [encode decode].
    rewrite !b64val_b64char by sextet.
    rewrite pad_is_pad. f_equal. f_equal.
    Z.to_euclidean_division_equations; lia.
  - inversion_clear Hb as [|? ? Ha Hb']. inversion_clear Hb' as [|? ? Hb _].
    unfold is_byte in Ha, Hb.
    cbn [encode decode].
    rewrite !b64val_b64char by sextet.
    rewrite b64char_not_pad by sextet.
    rewrite pad_is_pad.
    f_equal. f_equal; [|f_equal]; Z.to_euclidean_division_equations; lia.
  - inversion_clear Hb as [|? ? Ha Hb']. inversion_clear Hb' as [|? ? Hb Hc'].
    inversion_clear Hc' as [|? ? Hc Hr].
    unfold is_byte in Ha, Hb, Hc.
    cbn [encode decode].
    rewrite !b64val_b64char by sextet.
    rewrite !b64char_not_pad by sextet.
    rewrite (IH Hr).
    f_equal. f_equal; [|f_equal; [|f_equal]]; Z.to_euclidean_division_equations; lia.
Qed.

(** *** Quantization *)

Local Open Scope Q_scope.

Lemma Qtrunc_nonneg (x : Q) :
  0 <= x -> (0 <= Qtrunc x)%Z /\ inject_Z (Qtrunc x) <= x /\ x < inject_Z (Qtrunc x) + 1.
Proof.
  intro Hx. unfold Qtrunc.
  rewrite (proj2 (Qle_bool_iff 0 x) Hx).
  pose proof (Qfloor_le x) as Hlo.
  pose proof (Qlt_floor x) as Hhi.
  rewrite inject_Z_plus in Hhi.
  repeat split; try assumption.
  assert (H0 : (Qfloor 0 <= Qfloor x)%Z) by (apply Qfloor_resp_le; exact Hx).
  exact H0.
Qed.

Lemma Qtrunc_neg (x : Q) :
  x < 0 -> (Qtrunc x <= 0)%Z /\ x <= inject_Z (Qtrunc x) /\ inject_Z (Qtrunc x) - 1 < x.
Proof.
  intro Hx. unfold Qtrunc.
  destruct (Qle_bool 0 x) eqn:E.
  - apply Qle_bool_iff in E. lra.
  - pose proof (Qle_ceiling x) as Hhi.
    pose proof (Qceiling_lt x) as Hlo.
    unfold Z.sub in Hlo. rewrite inject_Z_plus in Hlo.
    change (inject_Z (-1)) with (-1) in Hlo.
    repeat split; try assumption.
    assert (H0 : (Qceiling x <= Qceiling 0)%Z) by (apply Qceiling_resp_le; lra).
    exact H0.
Qed.

Lemma clamp_id (s : Q) : -1 <= s <= 1 -> clamp s == s.
Proof.
  intros [Hlo Hhi]. unfold clamp.
  rewrite (Q.min_r 1 s) by exact Hhi.
  apply Q.max_r. exact Hlo.
Qed.

Lemma clamp_range (s : Q) : -1 <= clamp s <= 1.
Proof.
  unfold clamp. split.
  - apply Q.le_max_l.
  - apply Q.max_lub; [lra|]. apply Q.le_min_l.
Qed.

Lemma saturate_range (v : Z) : (int16_min <= saturate v <= int16_max)%Z.
Proof. unfold saturate, int16_min, int16_max. lia. Qed.

Lemma quantize_range (s : Q) : (-32768 <= quantize s <= 32767)%Z.
Proof. apply saturate_range. Qed.

(** The quantizer is off by at most one 16-bit step. *)
Lemma quantize_close (s : Q) :
  -1 <= s <= 1 ->
  Qabs (inject_Z (quantize s) / inject_Z 32768 - s) <= 1 # 32768.
Proof.
  intro Hs.
  pose proof (clamp_id s Hs) as Hc.
  unfold quantize.
  set (x := clamp s * inject_Z 32768).
  assert (Hx : x == s * inject_Z 32768) by (unfold x; rewrite Hc; reflexivity).
  assert (Hk : inject_Z 32768 == 32768) by reflexivity.
  assert (Hrange : -32768 <= x <= 32768) by (rewrite Hx, Hk; lra).
  assert (Hgoal : Qabs (inject_Z (saturate (Qtrunc x)) - x) <= 1).
  { apply Qabs_Qle_condition.
    destruct (Qlt_le_dec x 0) as [Hneg|Hpos].
    - destruct (Qtrunc_neg x Hneg) as (Hz & Hle & Hlt).
      assert (Hlow : (-32768 <= Qtrunc x)%Z).
      { apply Z.lt_pred_le. rewrite Zlt_Qlt.
        unfold Z.pred. rewrite inject_Z_plus.
        change (inject_Z (-1)) with (-1). change (inject_Z (-32768)) with (-32768).
        lra. }
      assert (Hsat : saturate (Qtrunc x) = Qtrunc x)
        by (unfold saturate, int16_min, int16_max; lia).
      rewrite Hsat. lra.
    - destruct (Qtrunc_nonneg x Hpos) as (Hz & Hle & Hlt).
      assert (Hup : (Qtrunc x <= 32768)%Z).
      { rewrite Zle_Qle. change (inject_Z 32768) with 32768. lra. }
      destruct (Z.eq_dec (Qtrunc x) 32768) as [Etop|Ntop].
      + rewrite Etop in *. change (inject_Z 32768) with 32768 in Hle.
        change (inject_Z (saturate 32768)) with 32767. lra.
      + assert (Hsat : saturate (Qtrunc x) = Qtrunc x)
          by (unfold saturate, int16_min, int16_max; lia).
        rewrite Hsat. lra. }
  apply Qabs_Qle_condition in Hgoal.
  apply Qabs_Qle_condition.
  set (v := inject_Z (saturate (Qtrunc x))) in *.
  clearbody v x.
  change (inject_Z 32768) with 32768 in *.
  unfold Qdiv. change (/ 32768) with (1 # 32768).
  lra.
Qed.

(** *** Little-endian 16-bit words *)

Local Open Scope Z_scope.

Lemma int16_bytes_are_bytes (v : Z) : Forall is_byte (int16_bytes v).
Proof.
  unfold int16_bytes, is_byte.
  repeat constructor; Z.to_euclidean_division_equations; lia.
Qed.

Lemma int16_of_int16_bytes (v : Z) :
  -32768 <= v <= 32767 ->
  int16_of_bytes ((v mod 65536) mod 256) ((v mod 65536) / 256) = v.
Proof.
  intro Hv. unfold int16_of_bytes.
  assert (E : (v mod 65536) mod 256 + 256 * ((v mod 65536) / 256) = v mod 65536)
    by (Z.to_euclidean_division_equations; lia).
  rewrite E.
  destruct (32768 <=? v mod 65536) eqn:C;
    [apply Z.leb_le in C | apply Z.leb_gt in C];
    Z.to_euclidean_division_equations; lia.
Qed.

Lemma pcm_bytes_are_bytes (frame : SampleFrame) : Forall is_byte (pcm_bytes frame).
Proof.
  unfold pcm_bytes.
  induction frame as [|s frame IH]; cbn [flat_map].
  - constructor.
  - apply Forall_app. split; [apply int16_bytes_are_bytes | exact IH].
Qed.

Lemma pcm_bytes_length (frame : SampleFrame) :
  List.length (pcm_bytes frame) = (2 * List.length frame)%nat.
Proof.
  unfold pcm_bytes.
  induction frame as [|s frame IH]; cbn [flat_map List.length app int16_bytes].
  - reflexivity.
  - rewrite IH. lia.
Qed.

Lemma int16_samples_pcm_bytes (frame : SampleFrame) :
  int16_samples (pcm_bytes frame) = map quantize frame.
Proof.
  unfold pcm_bytes.
  induction frame as [|s frame IH]; cbn [flat_map map int16_bytes app int16_samples].
  - reflexivity.
  - rewrite IH, int16_of_int16_bytes by apply quantize_range. reflexivity.
Qed.

Lemma odd_double (n : nat) : Nat.odd (2 * n) = false.
Proof.
  rewrite <- Nat.negb_even, Nat.even_mul. reflexivity.
Qed.

(** The chunk of a frame, taken back to bytes. *)
Lemma blob_bytes (frame : SampleFrame) :
  base64ToUint8Array (data (createPcmBlob frame)) = Some (pcm_bytes frame).
Proof.
  unfold base64ToUint8Array, createPcmBlob. cbn [data].
  rewrite list_ascii_of_string_of_list_ascii.
  apply decode_encode, pcm_bytes_are_bytes.
Qed.

Local Open Scope Q_scope.

(** C4.  For every frame of N samples each in [-1, 1], decoding the
    chunk made by the encoder succeeds and yields exactly N samples, each
    within 1/32768 of the sample it came from.  The encoder is a total
    function: it has no error result. *)
Theorem encode_decode_round_trip (frame : SampleFrame) (rate channels : Z) :
  Forall (fun s => -1 <= s <= 1) frame ->
  exists bytes buffer,
    base64ToUint8Array (data (createPcmBlob frame)) = Some bytes /\
    decodeAudioData bytes rate channels = inr buffer /\
    List.length (channelData buffer) = List.length frame /\
    Forall2 (fun s s' => Qabs (s' - s) <= 1 # 32768) frame (channelData buffer).
Proof.
  intro Hrange.
  exists (pcm_bytes frame).
  unfold decodeAudioData.
  rewrite pcm_bytes_length, odd_double, int16_samples_pcm_bytes.
  eexists. split; [apply blob_bytes|]. split; [reflexivity|].
  cbn [channelData]. split.
  - now rewrite !length_map.
  - rewrite map_map.
    induction Hrange as [|s frame Hs _ IH]; cbn [map]; constructor.
    + apply quantize_close, Hs.
    + exact IH.
Qed.

Lemma encode_decode_round_trip_witness :
  exists bytes buffer,
    base64ToUint8Array (data (createPcmBlob sample_frame)) = Some bytes /\
    decodeAudioData bytes 24000 1 = inr buffer /\
    List.length (channelData buffer) = List.length sample_frame /\
    Forall2 (fun s s' => Qabs (s' - s) <= 1 # 32768) sample_frame (channelData buffer).
Proof.
  apply (encode_decode_round_trip sample_frame 24000 1).
  unfold sample_frame.
  repeat constructor; vm_compute; discriminate.
Defined.
End AudioUtilsFacts.

(** ** The live sessions *)

Module LiveFacts.

Import AudioUtils Live.

(** *** Reactions *)

Lemma react_cleaning r s : isCleaningUp (react r s) = isCleaningUp s.
Proof. destruct r; cbn; [reflexivity | destruct (isCleaningUp s) eqn:E; cbn; auto | reflexivity]. Qed.

Lemma react_promise r s : sessionPromise (react r s) = sessionPromise s.
Proof. destruct r; cbn; [reflexivity | destruct (isCleaningUp s); reflexivity | reflexivity]. Qed.

Lemma react_sent_cleaning r s :
  isCleaningUp s = true -> sent (react r s) = sent s.
Proof. intro H. destruct r; cbn; [reflexivity | rewrite H; reflexivity | reflexivity]. Qed.

Lemma reactions_cleaning rs s :
  isCleaningUp (fold_left (fun acc r => react r acc) rs s) = isCleaningUp s.
Proof.
  revert s. induction rs as [|r rs IH]; intro s; cbn [fold_left].
  - reflexivity.
  - rewrite IH. apply react_cleaning.
Qed.

(** Running the waiting reactions sends the held chunks, in order,
    unless teardown has begun. *)
Lemma reactions_sent rs s :
  sent (fold_left (fun acc r => react r acc) rs s)
  = sent s ++ (if isCleaningUp s then [] else held rs).
Proof.
  revert s. induction rs as [|r rs IH]; intro s; cbn [fold_left held].
  - destruct (isCleaningUp s); now rewrite app_nil_r.
  - rewrite IH, react_cleaning.
    destruct r; cbn [react held].
    + reflexivity.
    + destruct (isCleaningUp s) eqn:E.
      * reflexivity.
      * cbn [sent sendRealtimeInput]. now rewrite <- app_assoc.
    + reflexivity.
Qed.

Lemma then_cleaning r s : isCleaningUp (then_ r s) = isCleaningUp s.
Proof.
  unfold then_. destruct (sessionPromise s); [reflexivity | apply react_cleaning | reflexivity].
Qed.

Lemma then_sent_cleaning r s :
  isCleaningUp s = true -> sent (then_ r s) = sent s.
Proof.
  intro H. unfold then_.
  destruct (sessionPromise s); [reflexivity | now apply react_sent_cleaning | reflexivity].
Qed.

(** *** Teardown silences the tap *)

Lemma stop_cleaning s : isCleaningUp (stop s) = true.
Proof.
  unfold stop. cbn.
  destruct (contextState s); cbn; destruct (activeSession s); cbn;
    try reflexivity; now rewrite then_cleaning.
Qed.

Lemma stop_sent s : sent (stop s) = sent s.
Proof.
  unfold stop. cbn.
  destruct (contextState s); cbn; destruct (activeSession s); cbn;
    try reflexivity; now rewrite then_sent_cleaning.
Qed.

Lemma handle_cleaning m e s :
  isCleaningUp s = true ->
  isCleaningUp (fst (handle m e s)) = true /\ sent (fst (handle m e s)) = sent s.
Proof.
  intro H. destruct e; cbn [handle fst]; auto.
  - unfold resolve. destruct (sessionPromise s); auto.
    rewrite reactions_cleaning, reactions_sent. cbn. rewrite H.
    now rewrite app_nil_r.
  - unfold reject. destruct (sessionPromise s); auto.
  - unfold onaudioprocess. now rewrite then_cleaning, then_sent_cleaning.
  - destruct (contextCloses s); auto.
  - now rewrite stop_cleaning, stop_sent.
Qed.

Lemma run_cons m e es s :
  run m (e :: es) s =
  (fst (run m es (fst (handle m e s))), snd (handle m e s) ++ snd (run m es (fst (handle m e s)))).
Proof.
  cbn [run]. destruct (handle m e s) as [s1 out1]. cbn [fst snd].
  destruct (run m es s1) as [s2 out2]. reflexivity.
Qed.

Lemma state_after_cons m e es s :
  state_after m (e :: es) s = state_after m es (fst (handle m e s)).
Proof. unfold state_after. now rewrite run_cons. Qed.

Lemma calls_cons m e es s :
  calls m (e :: es) s = snd (handle m e s) ++ calls m es (fst (handle m e s)).
Proof. unfold calls. now rewrite run_cons. Qed.

Lemma state_after_app m es1 es2 s :
  state_after m (es1 ++ es2) s = state_after m es2 (state_after m es1 s).
Proof.
  revert s. induction es1 as [|e es1 IH]; intro s.
  - reflexivity.
  - cbn [app]. rewrite !state_after_cons. apply IH.
Qed.

Lemma cleaning_forever m es s :
  isCleaningUp s = true ->
  isCleaningUp (state_after m es s) = true /\ sent (state_after m es s) = sent s.
Proof.
  revert s. induction es as [|e es IH]; intros s H.
  - auto.
  - rewrite state_after_cons.
    destruct (handle_cleaning m e s H) as [Hc Hs].
    destruct (IH _ Hc) as [Hc' Hs'].
    split; [exact Hc' | congruence].
Qed.

(** C9.  In both modes, once the stop function has been called no
    further chunk is sent on the session, whatever happens afterwards:
    frames the tap delivers later, and frames held on a handshake that
    resolves only after teardown, are all skipped. *)
Theorem no_send_after_stop (m : Mode) (s : St) (es : list Event) :
  sent (state_after m (Stop :: es) s) = sent s.
Proof.
  rewrite state_after_cons. cbn [handle fst].
  destruct (cleaning_forever m es (stop s) (stop_cleaning s)) as [_ H].
  rewrite H. apply stop_sent.
Qed.

(** C10.  In avatar mode, after the stop function has been called a
    remote close calls no hook, while a transport error calls onClose,
    after teardown as in any other state. *)
Theorem close_suppressed_error_reported (s : St) (es : list Event) (err : JsError) :
  let after := state_after Avatar (Stop :: es) s in
  snd (handle Avatar SocketClose after) = [] /\
  snd (handle Avatar (SocketError err) after) = [OnClose] /\
  forall s0, snd (handle Avatar (SocketError err) s0) = [OnClose].
Proof.
  cbn zeta. rewrite state_after_cons. cbn [handle fst snd].
  destruct (cleaning_forever Avatar es (stop s) (stop_cleaning s)) as [H _].
  unfold onclose. rewrite H. auto.
Qed.


(** *** Dictation *)

Lemma truthy_some o t : truthy o = Some t -> o = Some t /\ t <> EmptyString.
Proof.
  destruct o as [[|c r]|]; cbn; intro H; try discriminate.
  inversion H; subst. split; [reflexivity | discriminate].
Qed.

Lemma dictation_message msg :
  match truthy (transcriptionText msg) with
  | Some t => onmessage Dictation msg = [OnTranscription t]
  | None => onmessage Dictation msg = []
  end.
Proof. cbn [onmessage]. destruct (truthy (transcriptionText msg)); reflexivity. Qed.

Lemma dictation_hook_mono e es c : dictation_hook es c -> dictation_hook (e :: es) c.
Proof.
  destruct c; cbn; auto.
  intros [Ht [msg [Hin Hm]]]. split; [exact Ht|].
  exists msg. split; [now right | exact Hm].
Qed.

Lemma dictation_handle e s :
  Forall (dictation_hook [e]) (snd (handle Dictation e s)).
Proof.
  destruct e; cbn [handle snd].
  - constructor.
  - unfold reject. destruct (sessionPromise s); cbn; repeat constructor.
  - constructor.
  - pose proof (dictation_message msg) as H.
    destruct (truthy (transcriptionText msg)) as [t|] eqn:E; rewrite H.
    + apply truthy_some in E. destruct E as [E Hne].
      constructor; [|constructor]. cbn. split; [exact Hne|].
      exists msg. split; [now left | exact E].
    + constructor.
  - unfold onclose. destruct (isCleaningUp s); repeat constructor.
  - repeat constructor.
  - constructor.
  - constructor.
  - constructor.
Qed.

(** C8.  In dictation mode the only data handed to the caller is
    transcription text: audio data is never delivered, and the
    transcription hook is called exactly for the messages that carry a
    non-empty transcription text, with that text. *)
Theorem dictation_delivers_text_only (s : St) (es : list Event) :
  Forall (dictation_hook es) (calls Dictation es s) /\
  (forall msg d, ~ In (OnAudioData d) (snd (handle Dictation (SocketMessage msg) s))) /\
  (forall msg,
      snd (handle Dictation (SocketMessage msg) s) =
      match truthy (transcriptionText msg) with
      | Some t => [OnTranscription t]
      | None => []
      end).
Proof.
  split; [|split].
  - revert s. induction es as [|e es IH]; intro s.
    + constructor.
    + rewrite calls_cons. apply Forall_app. split.
      * eapply Forall_impl; [|apply dictation_handle].
        intros c Hc. destruct c; cbn in *; auto.
        destruct Hc as [Ht [msg [[Hin|[]] Hm]]]. split; [exact Ht|].
        exists msg. split; [left; exact Hin | exact Hm].
      * eapply Forall_impl; [|apply IH].
        intros c. apply dictation_hook_mono.
  - intros msg d. cbn [handle snd onmessage].
    destruct (truthy (transcriptionText msg)); cbn; intuition discriminate.
  - intro msg. reflexivity.
Qed.

(** *** Setup *)

(** C7.  When the microphone cannot be acquired, starting the avatar
    session fails (with the acquisition error, once the context has
    resumed) before [ai.live.connect] is reached, and onOpen is never
    called, whatever happens afterwards. *)
Theorem permission_denied_before_open (dev : Device) (err : JsError) :
  getUserMedia dev = inl err ->
  (exists e, connectLiveTriageSession dev = inl e /\
             (resume dev = None -> e = UserMediaFailed err)) /\
  (forall es, execution Avatar dev es = inl (UserMediaFailed err) \/
              exists e, execution Avatar dev es = inl (ResumeFailed e)) /\
  (forall es, ~ In OnOpen (hooks_called (execution Avatar dev es))).
Proof.
  intros Hg. unfold execution, connectLiveTriageSession. rewrite Hg.
  destruct (resume dev) as [e|]; cbn.
  - split; [exists (ResumeFailed e); split; [reflexivity | discriminate]|].
    split; [intros _; right; now exists e | auto].
  - split; [exists (UserMediaFailed err); auto|].
    split; [intros _; now left | auto].
Qed.

Lemma permission_denied_before_open_witness :
  (exists e, connectLiveTriageSession no_microphone = inl e /\
             (resume no_microphone = None -> e = UserMediaFailed "NotAllowedError"%string)) /\
  (forall es, execution Avatar no_microphone es = inl (UserMediaFailed "NotAllowedError"%string) \/
              exists e, execution Avatar no_microphone es = inl (ResumeFailed e)) /\
  (forall es, ~ In OnOpen (hooks_called (execution Avatar no_microphone es))).
Proof.
  apply (permission_denied_before_open no_microphone "NotAllowedError"%string).
  reflexivity.
Defined.

(** *** Frames captured during the handshake *)

Lemma held_app rs1 rs2 : held (rs1 ++ rs2) = held rs1 ++ held rs2.
Proof.
  induction rs1 as [|r rs1 IH]; [reflexivity|].
  destruct r; cbn [app held]; now rewrite IH.
Qed.

Lemma closes_held_app rs1 rs2 :
  closes_held (rs1 ++ rs2) = (closes_held rs1 + closes_held rs2)%nat.
Proof.
  induction rs1 as [|r rs1 IH]; [reflexivity|].
  destruct r; cbn [app closes_held]; rewrite IH; reflexivity.
Qed.

Lemma pending_handle m e s :
  sessionPromise s = Pending ->
  settles e = false ->
  let s' := fst (handle m e s) in
  sessionPromise s' = Pending /\
  sent s' = sent s /\
  isCleaningUp s' = isCleaningUp s || is_stop e /\
  held (reactions s') = held (reactions s) ++ chunks_of [e].
Proof.
  intros Hp He. cbn zeta.
  destruct e; try discriminate He; cbn [handle fst is_stop chunks_of];
    rewrite ?orb_false_r, ?orb_true_r, ?app_nil_r; auto.
  - unfold onaudioprocess, then_. rewrite Hp. cbn.
    rewrite held_app. auto.
  - destruct (contextCloses s); auto.
  - unfold stop. cbn.
    destruct (contextState s); cbn; destruct (activeSession s); cbn; auto;
      unfold then_; cbn; rewrite Hp; cbn; rewrite held_app, app_nil_r; auto.
Qed.

Lemma pending_run m mid s :
  sessionPromise s = Pending ->
  still_pending mid = true ->
  let s' := state_after m mid s in
  sessionPromise s' = Pending /\
  sent s' = sent s /\
  isCleaningUp s' = isCleaningUp s || has_stop mid /\
  held (reactions s') = held (reactions s) ++ chunks_of mid.
Proof.
  revert s. induction mid as [|e mid IH]; intros s Hp Hm; cbn zeta.
  - cbn. rewrite orb_false_r, app_nil_r. auto.
  - cbn [still_pending forallb] in Hm. apply andb_true_iff in Hm.
    destruct Hm as [He Hm]. apply negb_true_iff in He.
    rewrite state_after_cons.
    destruct (pending_handle m e s Hp He) as (P1 & P2 & P3 & P4).
    destruct (IH _ P1 Hm) as (Q1 & Q2 & Q3 & Q4).
    repeat split.
    + exact Q1.
    + congruence.
    + rewrite Q3, P3. cbn [has_stop existsb]. now rewrite orb_assoc.
    + rewrite Q4, P4, <- app_assoc. f_equal.
      destruct e; reflexivity.
Qed.

Lemma resolve_sent s :
  sessionPromise s = Pending ->
  sent (resolve s) = sent s ++ (if isCleaningUp s then [] else held (reactions s)).
Proof.
  intro Hp. unfold resolve. rewrite Hp. now rewrite reactions_sent.
Qed.

Lemma rejected_handle m e s :
  sessionPromise s = Rejected ->
  sessionPromise (fst (handle m e s)) = Rejected /\
  sent (fst (handle m e s)) = sent s /\
  sessionCloses (fst (handle m e s)) =
  (sessionCloses s + (if is_stop e && activeSession s then 1 else 0))%nat.
Proof.
  intro Hp.
  destruct e; cbn [handle fst is_stop andb]; rewrite ?Nat.add_0_r; auto.
  - unfold resolve. rewrite Hp. auto.
  - unfold reject. rewrite Hp. auto.
  - unfold onaudioprocess, then_. rewrite Hp. auto.
  - destruct (contextCloses s); auto.
  - unfold stop. cbn.
    destruct (contextState s); cbn; destruct (activeSession s); cbn;
      rewrite ?Nat.add_0_r, ?Nat.add_1_r; auto;
      unfold then_; cbn; rewrite Hp; auto.
Qed.

Lemma rejected_forever m es s :
  sessionPromise s = Rejected ->
  sessionPromise (state_after m es s) = Rejected /\
  sent (state_after m es s) = sent s.
Proof.
  revert s. induction es as [|e es IH]; intros s Hp.
  - auto.
  - rewrite state_after_cons.
    destruct (rejected_handle m e s Hp) as (P1 & P2 & _).
    destruct (IH _ P1) as (Q1 & Q2). split; congruence.
Qed.

(** C3, as the code has it.  A frame delivered while the handshake is
    pending is not transmitted then; its chunk is held on the session
    promise and transmitted, after the chunks held before it and in
    capture order, when the handshake resolves, unless the stop function
    was called in between; when the handshake fails it is never
    transmitted. *)
Theorem pending_frames_are_held
        (m : Mode) (s : St) (frame : SampleFrame) (mid rest : list Event)
        (err : JsError) :
  sessionPromise s = Pending ->
  still_pending mid = true ->
  sent (state_after m (AudioProcess frame :: mid) s) = sent s /\
  sent (state_after m (AudioProcess frame :: mid ++ [Resolve]) s) =
    sent s ++ (if isCleaningUp s || has_stop mid then []
               else held (reactions s) ++ createPcmBlob frame :: chunks_of mid) /\
  sent (state_after m (AudioProcess frame :: mid ++ Reject err :: rest) s) = sent s.
Proof.
  intros Hp Hm.
  assert (Hm' : still_pending (AudioProcess frame :: mid) = true) by exact Hm.
  destruct (pending_run m (AudioProcess frame :: mid) s Hp Hm') as (P1 & P2 & P3 & P4).
  cbn zeta in *. cbn [has_stop existsb is_stop orb chunks_of] in P3, P4.
  fold (has_stop mid) in P3.
  split; [exact P2|]. split.
  - rewrite app_comm_cons, state_after_app.
    set (s' := state_after m (AudioProcess frame :: mid) s) in *.
    rewrite state_after_cons. cbn [handle fst state_after run].
    rewrite (resolve_sent s' P1), P2, P3, P4. reflexivity.
  - rewrite app_comm_cons, state_after_app.
    set (s' := state_after m (AudioProcess frame :: mid) s) in *.
    rewrite state_after_cons. cbn [handle fst].
    assert (Hr : sessionPromise (fst (reject m err s')) = Rejected /\
                 sent (fst (reject m err s')) = sent s').
    { unfold reject. rewrite P1. cbn. auto. }
    destruct Hr as [R1 R2].
    destruct (rejected_forever m rest _ R1) as [_ R3]. congruence.
Qed.

Lemma pending_frames_are_held_witness :
  sent (state_after Avatar (AudioProcess sample_frame :: [SocketOpen]) (connected 1)) = [] /\
  sent (state_after Avatar (AudioProcess sample_frame :: [SocketOpen] ++ [Resolve]) (connected 1)) =
    [] ++ [createPcmBlob sample_frame] /\
  sent (state_after Avatar
          (AudioProcess sample_frame :: [SocketOpen] ++ Reject "refused"%string :: [Resolve])
          (connected 1)) = [].
Proof.
  apply (pending_frames_are_held Avatar (connected 1) sample_frame [SocketOpen] [Resolve]
           "refused"%string); reflexivity.
Defined.

(** C3, as stated, fails: a frame delivered while the handshake is
    pending is transmitted when the session opens. *)
Lemma pending_frame_is_sent_on_open :
  sessionPromise (connected 1) = Pending /\
  ~ dropped_for_good Avatar (connected 1) sample_frame [Resolve].
Proof.
  split; [reflexivity|].
  unfold dropped_for_good. intro H. apply H.
  vm_compute. left. reflexivity.
Qed.

(** *** Teardown *)

Local Open Scope nat_scope.

Lemma reactions_closes rs s :
  sessionCloses (fold_left (fun acc r => react r acc) rs s)
  = sessionCloses s + closes_held rs.
Proof.
  revert s. induction rs as [|r rs IH]; intro s; cbn [fold_left closes_held].
  - lia.
  - rewrite IH. destruct r; cbn [react].
    + reflexivity.
    + destruct (isCleaningUp s); reflexivity.
    + cbn. lia.
Qed.

Lemma reactions_active rs s :
  activeSession (fold_left (fun acc r => react r acc) rs s)
  = activeSession s || existsb is_set_active rs.
Proof.
  revert s. induction rs as [|r rs IH]; intro s; cbn [fold_left existsb].
  - now rewrite orb_false_r.
  - rewrite IH. destruct r; cbn [react is_set_active].
    + cbn. now rewrite orb_true_r.
    + destruct (isCleaningUp s); reflexivity.
    + reflexivity.
Qed.

(** Reactions touch nothing of the capture graph. *)
Lemma reactions_capture rs s :
  let s' := fold_left (fun acc r => react r acc) rs s in
  trackStops s' = trackStops s /\
  sourceDisconnects s' = sourceDisconnects s /\
  processorDisconnects s' = processorDisconnects s /\
  contextCloses s' = contextCloses s /\
  contextState s' = contextState s /\
  sessionPromise s' = sessionPromise s.
Proof.
  revert s. induction rs as [|r rs IH]; intro s; cbn zeta; cbn [fold_left].
  - repeat split.
  - destruct (IH (react r s)) as (A & B & C & D & E & F).
    rewrite A, B, C, D, E, F.
    destruct r; cbn [react]; [| destruct (isCleaningUp s) |]; repeat split.
Qed.

Ltac torn_finish :=
  repeat match goal with
         | H : _ /\ _ |- _ => destruct H
         end;
  repeat split; try assumption; try lia; try discriminate.

Lemma torn_down_handle m e n s :
  torn_down n s ->
  torn_down (n + (if is_stop e then 1 else 0)) (fst (handle m e s)).
Proof.
  intros (T & A & B & C & D & E & F).
  destruct e; cbn [handle fst is_stop]; rewrite ?Nat.add_0_r;
    try (unfold torn_down; repeat split; assumption).
  - (* Resolve *)
    unfold resolve.
    destruct (sessionPromise s) eqn:Hp;
      try (unfold torn_down; rewrite Hp; torn_finish; fail).
    destruct F as (F1 & F2 & F3 & F4).
    pose proof (reactions_capture (reactions s) (settle Fulfilled s)) as R.
    cbn zeta in R. destruct R as (R1 & R2 & R3 & R4 & R5 & R6).
    unfold torn_down.
    rewrite R1, R2, R3, R4, R5, R6, reactions_closes, reactions_active. cbn.
    rewrite F2, F3, F4, orb_true_r. torn_finish.
  - (* Reject *)
    unfold reject.
    destruct (sessionPromise s) eqn:Hp; cbn [fst];
      try (unfold torn_down; rewrite Hp; torn_finish; fail).
    unfold torn_down. cbn. torn_finish.
  - (* AudioProcess *)
    unfold onaudioprocess, then_.
    destruct (sessionPromise s) eqn:Hp.
    + destruct F as (F1 & F2 & F3 & F4).
      unfold torn_down. cbn. rewrite Hp, closes_held_app, existsb_app, F4. cbn.
      torn_finish.
    + cbn [react]. destruct (isCleaningUp s);
        unfold torn_down; cbn; rewrite Hp; torn_finish.
    + unfold torn_down. rewrite Hp. torn_finish.
  - (* ContextClosed *)
    destruct (contextCloses s) eqn:Hc.
    + unfold torn_down. rewrite Hc. torn_finish.
    + unfold torn_down. cbn. rewrite Hc in *. torn_finish.
  - (* Stop *)
    assert (T' : Forall (fun k => k = n + 1) (map S (trackStops s))).
    { apply Forall_map. eapply Forall_impl; [|exact T]. cbn. intros; lia. }
    unfold stop. cbn.
    destruct (contextState s) eqn:Hs; cbn;
      destruct (sessionPromise s) eqn:Hp;
      destruct F as (F1 & F');
      rewrite F1; cbn; unfold then_; cbn; rewrite ?Hp; cbn;
      unfold torn_down; cbn; rewrite ?Hp, ?Hs, ?closes_held_app, ?existsb_app; cbn;
      torn_finish;
      try (intros; specialize (E eq_refl); lia);
      try (rewrite orb_false_r; assumption).
Qed.

Lemma torn_down_run m es n s :
  torn_down n s -> torn_down (n + stops es) (state_after m es s).
Proof.
  revert n s. induction es as [|e es IH]; intros n s H.
  - unfold stops. cbn. now rewrite Nat.add_0_r.
  - rewrite state_after_cons.
    apply (torn_down_handle m e) in H. apply IH in H.
    replace (n + stops (e :: es)) with (n + (if is_stop e then 1 else 0) + stops es); [exact H|].
    unfold stops. cbn [filter]. destruct (is_stop e); cbn [List.length]; lia.
Qed.

Lemma torn_down_connected tracks : torn_down 0 (connected tracks).
Proof.
  unfold torn_down. cbn. repeat split; try lia; try discriminate.
  apply Forall_forall. intros k Hk. now apply repeat_spec in Hk.
Qed.

Lemma reactions_context rs s :
  contextCloses (fold_left (fun acc r => react r acc) rs s) = contextCloses s.
Proof.
  revert s. induction rs as [|r rs IH]; intro s; [reflexivity|].
  cbn [fold_left]. rewrite IH.
  destruct r; cbn [react]; [| destruct (isCleaningUp s) |]; reflexivity.
Qed.

Lemma stop_steps s :
  trackStops (stop s) = map S (trackStops s) /\
  sourceDisconnects (stop s) = S (sourceDisconnects s) /\
  processorDisconnects (stop s) = S (processorDisconnects s) /\
  contextCloses (stop s) =
    (contextCloses s + (if context_open s then 1 else 0))%nat /\
  match sessionPromise s with
  | Pending =>
      activeSession s = false ->
      sessionCloses (stop s) = sessionCloses s /\
      reactions (stop s) = reactions s ++ [CloseSession]
  | Fulfilled => sessionCloses (stop s) = S (sessionCloses s)
  | Rejected =>
      activeSession s = false -> sessionCloses (stop s) = sessionCloses s
  end.
Proof.
  unfold stop, context_open. cbn.
  destruct (contextState s); cbn;
    destruct (activeSession s) eqn:Ha; cbn;
    destruct (sessionPromise s) eqn:Hp;
    unfold then_; cbn; rewrite ?Hp; cbn;
    repeat split; try discriminate; try lia.
Qed.

Lemma context_closes_handle m e s :
  contextCloses (fst (handle m e s)) =
  (contextCloses s + (if is_stop e && context_open s then 1 else 0))%nat.
Proof.
  destruct e; cbn [handle fst is_stop andb]; rewrite ?Nat.add_0_r; try reflexivity.
  - unfold resolve. destruct (sessionPromise s); try reflexivity.
    now rewrite reactions_context.
  - unfold reject. destruct (sessionPromise s); reflexivity.
  - unfold onaudioprocess, then_.
    destruct (sessionPromise s); cbn; try reflexivity.
    destruct (isCleaningUp s); reflexivity.
  - destruct (contextCloses s) eqn:E; [exact E | exact E].
  - apply stop_steps.
Qed.

Lemma context_closes_run m es s :
  contextCloses (state_after m es s) =
  (contextCloses s + stops_on_open_context m es s)%nat.
Proof.
  revert s. induction es as [|e es IH]; intro s.
  - cbn. now rewrite Nat.add_0_r.
  - rewrite state_after_cons, IH, context_closes_handle.
    cbn [stops_on_open_context]. lia.
Qed.

(** C2, as the code has it.  The stop function has no guard of its own:
    each call stops every media track, disconnects the source and the
    processor, and closes the session once, at once on an open session
    and, during the handshake, by a reaction that runs when the handshake
    resolves (never when it fails); it closes the audio context unless
    it finds the context's state closed.  So after [n] calls, in any
    order relative to remote closes and transport errors, each of the
    other steps has run [n] times, and exactly once when [n = 1]; the
    audio context has been closed once for each call that found it not
    closed, which is at least once and at most [n] times. *)
Theorem teardown_runs_once_per_call (m : Mode) (tracks : nat) (es : list Event) :
  let n := stops es in
  let s := state_after m es (connected tracks) in
  Forall (fun k => k = n) (trackStops s) /\
  sourceDisconnects s = n /\
  processorDisconnects s = n /\
  contextCloses s <= n /\
  (1 <= n -> 1 <= contextCloses s) /\
  match sessionPromise s with
  | Pending =>
      sessionCloses s = 0 /\ closes_held (reactions s) = n /\
      sessionCloses (resolve s) = n
  | Fulfilled => sessionCloses s = n
  | Rejected => sessionCloses s = 0
  end /\
  (n = 1 -> sessionPromise s = Fulfilled -> released_once s) /\
  contextCloses s = stops_on_open_context m es (connected tracks) /\
  (forall s0 : St,
      trackStops (stop s0) = map S (trackStops s0) /\
      sourceDisconnects (stop s0) = S (sourceDisconnects s0) /\
      processorDisconnects (stop s0) = S (processorDisconnects s0) /\
      contextCloses (stop s0) =
        match contextState s0 with
        | Closed => contextCloses s0
        | Running => S (contextCloses s0)
        end /\
      (sessionPromise s0 = Fulfilled ->
       sessionCloses (stop s0) = S (sessionCloses s0))).
Proof.
  cbn zeta.
  pose proof (torn_down_run m es 0 _ (torn_down_connected tracks)) as H.
  cbn [Nat.add] in H.
  pose proof (torn_down_handle m Resolve _ _ H) as Hr.
  cbn [is_stop handle fst] in Hr. rewrite Nat.add_0_r in Hr.
  pose proof (context_closes_run m es (connected tracks)) as Hx.
  set (s := state_after m es (connected tracks)) in *.
  set (n := stops es) in *.
  destruct H as (T & A & B & C & D & E & F).
  split; [exact T|]. split; [exact A|]. split; [exact B|].
  split; [exact C|]. split; [exact D|]. split; [|split; [|split]].
  - destruct (sessionPromise s) eqn:Hp.
    + destruct F as (F1 & F2 & F3 & F4).
      split; [exact F2|]. split; [exact F3|].
      destruct Hr as (_ & _ & _ & _ & _ & _ & Hr).
      unfold resolve in *. rewrite Hp in *.
      pose proof (reactions_capture (reactions s) (settle Fulfilled s)) as R.
      cbn zeta in R. destruct R as (_ & _ & _ & _ & _ & R6).
      rewrite R6 in Hr. cbn in Hr. apply Hr.
    + apply F.
    + apply F.
  - intros Hn Hp. rewrite Hp in F. destruct F as [_ F].
    unfold released_once. rewrite <- Hn.
    split; [exact T|]. split; [exact A|]. split; [exact B|].
    split; [|exact F].
    assert (1 <= n) as Hn' by lia. specialize (D Hn'). lia.
  - exact Hx.
  - intro s0. destruct (stop_steps s0) as (S1 & S2 & S3 & S4 & S5).
    split; [exact S1|]. split; [exact S2|]. split; [exact S3|]. split.
    + rewrite S4. unfold context_open. destruct (contextState s0); lia.
    + intro Hp. now rewrite Hp in S5.
Qed.

(** One call during the handshake: nothing is closed until the
    handshake resolves, then the session is closed once. *)
Example stop_during_handshake :
  sessionCloses (state_after Avatar [AudioProcess sample_frame; Stop] (connected 1)) = 0 /\
  released_once (state_after Avatar [AudioProcess sample_frame; Stop; Resolve] (connected 1)) /\
  sent (state_after Avatar [AudioProcess sample_frame; Stop; Resolve] (connected 1)) = [].
Proof.
  split; [reflexivity|]. split; [|reflexivity].
  unfold released_once. cbn. repeat split. repeat constructor.
Qed.

(** C2, as stated, fails: two calls of the stop function on an open
    session close the session twice (and stop each track twice). *)
Lemma second_stop_releases_again :
  stops [Resolve; Stop; Stop] = 2 /\
  sessionCloses (state_after Avatar [Resolve; Stop; Stop] (connected 1)) = 2 /\
  ~ released_once (state_after Avatar [Resolve; Stop; Stop] (connected 1)).
Proof.
  split; [reflexivity|]. split; [reflexivity|].
  unfold released_once. vm_compute.
  intros (_ & H & _). discriminate H.
Qed.
End LiveFacts.

(** ** Playback scheduling *)

Module ModalFacts.

Import AudioUtils Modal.

Local Open Scope Q_scope.

Lemma decoded_duration_nonneg bytes buffer :
  decodeAudioData bytes 24000 1 = inr buffer -> 0 <= duration buffer.
Proof.
  unfold decodeAudioData.
  destruct (Nat.odd (List.length bytes)); [discriminate|].
  intro H. inversion H; subst; clear H. cbn [duration].
  set (n := List.length _).
  assert (Hn : 0 <= inject_Z (Z.of_nat n)).
  { change 0 with (inject_Z 0). rewrite <- Zle_Qle. lia. }
  unfold Qdiv. change (/ inject_Z 24000) with (1 # 24000).
  apply Qmult_le_0_compat; [exact Hn | discriminate].
Qed.

Lemma Qltb_true x y : Qltb x y = true -> x < y.
Proof.
  unfold Qltb. intro H. apply negb_true_iff in H.
  apply Qnot_le_lt. intro L. apply Qle_bool_iff in L. congruence.
Qed.

Lemma Qltb_false x y : Qltb x y = false -> y <= x.
Proof.
  unfold Qltb. intro H. apply negb_false_iff in H. now apply Qle_bool_iff.
Qed.

(** The clamped start is the later of clock and cursor. *)
Lemma clamped_start now cursor :
  let when := if Qltb cursor now then now else cursor in
  when == Qmax now cursor /\ now <= when /\ cursor <= when.
Proof.
  cbn zeta. destruct (Qltb cursor now) eqn:E.
  - apply Qltb_true in E. repeat split; try lra.
    symmetry. apply Q.max_l. lra.
  - apply Qltb_false in E. repeat split; try lra.
    symmetry. apply Q.max_r. exact E.
Qed.

Lemma cursor_end_snoc c l b : cursor_end c (l ++ [b]) = startAt b + dur b.
Proof. unfold cursor_end. now rewrite fold_left_app. Qed.

Lemma chained_snoc c l b :
  chained c l ->
  cursorBefore b = cursor_end c l ->
  well_placed b ->
  chained c (l ++ [b]).
Proof.
  revert c. induction l as [|a l IH]; intros c Hl Hb Hw; cbn [app chained].
  - cbn in Hb. auto.
  - destruct Hl as (H1 & H2 & H3).
    split; [exact H1|]. split; [exact H2|].
    apply IH; [exact H3 | exact Hb | exact Hw].
Qed.

Lemma onAudioData_scheduled c d m :
  scheduled_from c m -> scheduled_from c (onAudioData d m).
Proof.
  intros [Hc Hn]. unfold onAudioData.
  destruct (cleanup m); [split; assumption|].
  cbn [audioContextRef setIsTalking].
  destruct (audioContextRef m) as [[now]|]; [|split; assumption].
  destruct (base64ToUint8Array d) as [bytes|]; [|split; assumption].
  destruct (decodeAudioData bytes 24000 1) as [err|buffer] eqn:D; [split; assumption|].
  cbn [nextStartTimeRef setIsTalking currentTime].
  destruct (clamped_start now (nextStartTimeRef m)) as (W1 & W2 & W3).
  split; cbn [started nextStartTimeRef schedule setIsTalking].
  - apply chained_snoc; [exact Hc | exact Hn |].
    repeat split; cbn [startAt clockAt cursorBefore dur].
    + exact W1.
    + exact W2.
    + eapply decoded_duration_nonneg, D.
  - now rewrite cursor_end_snoc.
Qed.

Lemma handle_scheduled c e m :
  scheduled_from c m -> scheduled_from c (handle e m).
Proof.
  intro H. destruct e as [hook| |dt|]; cbn [handle].
  - destruct hook; try exact H.
    + unfold onOpen. destruct (cleanup m); exact H.
    + now apply onAudioData_scheduled.
    + unfold onClose. destruct (cleanup m); exact H.
  - unfold onended. destruct (audioContextRef m); [|exact H].
    destruct (Qle_bool _ _); exact H.
  - destruct (audioContextRef m); exact H.
  - exact H.
Qed.

Lemma run_scheduled c es m :
  scheduled_from c m -> scheduled_from c (run es m).
Proof.
  revert m. induction es as [|e es IH]; intros m H; [exact H|].
  apply IH, handle_scheduled, H.
Qed.

Lemma chained_well_placed c l : chained c l -> Forall well_placed l.
Proof.
  revert c. induction l as [|b l IH]; intros c H; constructor.
  - apply H.
  - apply (IH (startAt b + dur b)), H.
Qed.

Lemma chained_adjacent c l pre a b post :
  chained c l -> l = pre ++ a :: b :: post -> follows a b.
Proof.
  revert c l. induction pre as [|x pre IH]; intros c l H E; subst l.
  - cbn [app chained] in H.
    destruct H as (_ & (_ & _ & Da) & Hb & (Sb & Cb & _) & _).
    unfold follows. rewrite Hb in *.
    assert (M1 : startAt a + dur a <= startAt b)
      by (rewrite Sb; apply Q.le_max_r).
    repeat split; try lra.
    intro Hclk. rewrite Sb. apply Q.max_r. exact Hclk.
  - cbn [app chained] in H. destruct H as (_ & _ & H).
    eapply IH; [exact H | reflexivity].
Qed.

Lemma onAudioData_schedules d m ctx bytes buffer :
  cleanup m = false ->
  audioContextRef m = Some ctx ->
  base64ToUint8Array d = Some bytes ->
  decodeAudioData bytes 24000 1 = inr buffer ->
  let now := currentTime ctx in
  let cursor := nextStartTimeRef m in
  let when := if Qltb cursor now then now else cursor in
  when == Qmax now cursor /\
  started (onAudioData d m) =
    started m ++
    [{| startAt := when; dur := duration buffer; clockAt := now; cursorBefore := cursor |}] /\
  nextStartTimeRef (onAudioData d m) = when + duration buffer.
Proof.
  intros Hc Hctx Hb Hd. cbn zeta.
  split; [apply clamped_start|].
  unfold onAudioData. rewrite Hc. cbn [audioContextRef setIsTalking].
  rewrite Hctx, Hb, Hd. cbn. split; reflexivity.
Qed.

(** C1.  However the chunks of a session arrive, every decoded buffer
    is started at the later of the output clock and the cursor, hence not
    before the clock, and the cursor moves to that start plus the
    buffer's duration; the buffer decoded next finds the cursor there, so
    starts never decrease and never overlap, and a buffer scheduled
    before the clock has passed the cursor starts exactly where the
    previous one ends. *)
Theorem playback_is_chained (m0 : St) (es : list Event) :
  started m0 = [] ->
  let m := run es m0 in
  (forall d m1 ctx bytes buffer,
      cleanup m1 = false ->
      audioContextRef m1 = Some ctx ->
      base64ToUint8Array d = Some bytes ->
      decodeAudioData bytes 24000 1 = inr buffer ->
      let now := currentTime ctx in
      let cursor := nextStartTimeRef m1 in
      let when := if Qltb cursor now then now else cursor in
      when == Qmax now cursor /\
      started (onAudioData d m1) =
        started m1 ++
        [{| startAt := when; dur := duration buffer; clockAt := now;
            cursorBefore := cursor |}] /\
      nextStartTimeRef (onAudioData d m1) = when + duration buffer) /\
  Forall well_placed (started m) /\
  (forall b post, started m = b :: post -> cursorBefore b = nextStartTimeRef m0) /\
  (forall pre a b post, started m = pre ++ a :: b :: post -> follows a b) /\
  nextStartTimeRef m = cursor_end (nextStartTimeRef m0) (started m).
Proof.
  intros H0. cbn zeta.
  assert (I0 : scheduled_from (nextStartTimeRef m0) m0).
  { unfold scheduled_from. rewrite H0. split; [exact I | reflexivity]. }
  destruct (run_scheduled _ es _ I0) as [Hc Hn].
  split; [intros d m1 ctx bytes buffer; apply onAudioData_schedules|].
  split; [eapply chained_well_placed, Hc|].
  split; [|split; [|exact Hn]].
  - intros b post E. rewrite E in Hc. apply Hc.
  - intros pre a b post E. eapply chained_adjacent; [exact Hc | exact E].
Qed.

Lemma playback_is_chained_witness :
  let m0 := startSession mounted in
  let m := run jittery_session m0 in
  (forall d m1 ctx bytes buffer,
      cleanup m1 = false ->
      audioContextRef m1 = Some ctx ->
      base64ToUint8Array d = Some bytes ->
      decodeAudioData bytes 24000 1 = inr buffer ->
      let now := currentTime ctx in
      let cursor := nextStartTimeRef m1 in
      let when := if Qltb cursor now then now else cursor in
      when == Qmax now cursor /\
      started (onAudioData d m1) =
        started m1 ++
        [{| startAt := when; dur := duration buffer; clockAt := now;
            cursorBefore := cursor |}] /\
      nextStartTimeRef (onAudioData d m1) = when + duration buffer) /\
  Forall well_placed (started m) /\
  (forall b post, started m = b :: post -> cursorBefore b = nextStartTimeRef m0) /\
  (forall pre a b post, started m = pre ++ a :: b :: post -> follows a b) /\
  nextStartTimeRef m = cursor_end (nextStartTimeRef m0) (started m).
Proof.
  apply (playback_is_chained (startSession mounted) jittery_session).
  reflexivity.
Defined.

(** The session above starts three buffers: the second right where the
    first ends, the third at the clock, which has passed the cursor. *)
Example jittery_session_starts :
  map (fun b => (startAt b, dur b, clockAt b))
      (started (run jittery_session (startSession mounted)))
  = [ (0, 2 # 24000, 0);
      (2 # 24000, 2 # 24000, 1 # 24000);
      (24001 # 24000, 2 # 24000, 24001 # 24000) ].
Proof. reflexivity. Qed.

(** Two chunks of 4096 samples at 24 kHz, 50 ms apart: the second
    starts where the first ends, 4096/24000 s after it. *)
Example two_chunks_back_to_back :
  map (fun b => (startAt b, dur b, clockAt b))
      (started (run two_chunks_with_jitter (startSession mounted)))
  = [ (0, 4096 # 24000, 0);
      (4096 # 24000, 4096 # 24000, 50 # 1000) ].
Proof. vm_compute. reflexivity. Qed.

(** *** The speaking indicator *)









(** The hypothesis on the first state is needed.  The cursor and the
    indicator outlive the effect, while a modal opened again gets a new
    context whose clock starts at zero: after a session that has played
    out, the horizon is ahead and the indicator is off. *)
Example reopened_modal_not_covered :
  ~ covers_horizon
      (startSession
         (run (jittery_session ++ [ClockAdvance 1; SourceEnded]) (startSession mounted))).
Proof.
  unfold covers_horizon, before_guard_point. intro H.
  assert (A : isTalking
                (startSession
                   (run (jittery_session ++ [ClockAdvance 1; SourceEnded])
                        (startSession mounted))) = true).
  { apply H. vm_compute. reflexivity. }
  vm_compute in A. discriminate A.
Qed.

End ModalFacts.

(** ** The modal and the session together *)

Module SystemFacts.

Import AudioUtils System.

Local Open Scope Q_scope.

Lemma alike_refl m : Modal.alike m m.
Proof. repeat split. Qed.

Lemma alike_handle e a b :
  Modal.alike a b -> Modal.alike (Modal.handle e a) (Modal.handle e b).
Proof.
  destruct a as [st1 tk1 ct1 nx1 cl1 sd1 rj1], b as [st2 tk2 ct2 nx2 cl2 sd2 rj2].
  unfold Modal.alike. cbn. intros (-> & -> & -> & -> & ->).
  destruct e as [hook| |dt|]; cbn [Modal.handle].
  - destruct hook; try (repeat split; fail).
    + unfold Modal.onOpen. cbn. destruct cl2; repeat split.
    + unfold Modal.onAudioData. cbn. destruct cl2; [repeat split|].
      destruct ct2 as [[now]|]; [|repeat split].
      destruct (base64ToUint8Array base64); [|repeat split].
      destruct (decodeAudioData _ _ _); repeat split.
    + unfold Modal.onClose. cbn. destruct cl2; repeat split.
  - unfold Modal.onended. cbn. destruct ct2 as [now|]; [|repeat split].
    destruct (Qle_bool _ _); repeat split.
  - cbn. destruct ct2; repeat split.
  - repeat split.
Qed.

Lemma alike_deliver out a b :
  Modal.alike a b -> Modal.alike (deliver out a) (deliver out b).
Proof.
  revert a b. induction out as [|c out IH]; intros a b H; [exact H|].
  cbn [deliver fold_left]. apply IH, alike_handle, H.
Qed.

Lemma same_schedule_handle e a b :
  same_schedule a b -> same_schedule (handle e a) (handle e b).
Proof.
  intros (Hl & Hm & Hr). destruct e as [ev|ev|]; cbn [handle].
  - rewrite Hl. destruct (Live.handle Live.Avatar ev (live b)) as [l out].
    split; [reflexivity|]. split; [now apply alike_deliver | exact Hr].
  - destruct ev; unfold effectCleanup; cbn [live modal stopSessionRef];
      (split; [rewrite ?Hr, ?Hl; reflexivity|]);
      (split; [|exact Hr]);
      try (apply alike_handle; exact Hm).
    apply (alike_handle Modal.EffectCleanup _ _ Hm).
  - split; [exact Hl|]. split; [exact Hm | reflexivity].
Qed.

Lemma same_schedule_run es a b :
  same_schedule a b -> same_schedule (run es a) (run es b).
Proof.
  revert a b. induction es as [|e es IH]; intros a b H; [exact H|].
  apply IH, same_schedule_handle, H.
Qed.

Lemma misaligned bytes rate channels :
  Nat.odd (List.length bytes) = true ->
  decodeAudioData bytes rate channels = inl MisalignedFrame.
Proof. intro H. unfold decodeAudioData. now rewrite H. Qed.

(** A message with audio reaches the component's hook, and nothing
    else changes. *)
Lemma audio_message_handled msg d s :
  Live.truthy (Live.audioData msg) = Some d ->
  handle (Session (Live.SocketMessage msg)) s =
  {| live := live s; modal := Modal.onAudioData d (modal s);
     stopSessionRef := stopSessionRef s |}.
Proof.
  intro H. cbn [handle Live.handle Live.onmessage]. rewrite H. reflexivity.
Qed.

(** C6.  A chunk whose bytes are not a whole number of 16-bit samples
    makes the decoder fail; the failure is recorded for that chunk alone:
    the session is left as it was, nothing is scheduled and the cursor
    stays, and from then on session and schedule evolve as if the chunk
    had never arrived; in particular the next valid chunk is started at
    the later of clock and cursor and advances the cursor by its
    duration. *)
Theorem malformed_chunk_is_dropped
        (s : St) (msg : Live.LiveServerMessage) (d : string) (bytes : Bytes) (now : Q) :
  Live.truthy (Live.audioData msg) = Some d ->
  base64ToUint8Array d = Some bytes ->
  Nat.odd (List.length bytes) = true ->
  Modal.cleanup (modal s) = false ->
  Modal.audioContextRef (modal s) = Some {| Modal.currentTime := now |} ->
  let s' := handle (Session (Live.SocketMessage msg)) s in
  decodeAudioData bytes 24000 1 = inl MisalignedFrame /\
  live s' = live s /\
  Modal.rejections (modal s') =
    Modal.rejections (modal s) ++ [Modal.Decode MisalignedFrame] /\
  same_schedule s' s /\
  (forall es, same_schedule (run es s') (run es s)) /\
  (forall msg2 d2 bytes2 buffer,
      Live.truthy (Live.audioData msg2) = Some d2 ->
      base64ToUint8Array d2 = Some bytes2 ->
      decodeAudioData bytes2 24000 1 = inr buffer ->
      let cursor := Modal.nextStartTimeRef (modal s) in
      let when := if Modal.Qltb cursor now then now else cursor in
      let s2 := handle (Session (Live.SocketMessage msg2)) s' in
      live s2 = live s /\
      Modal.started (modal s2) =
        Modal.started (modal s) ++
        [{| Modal.startAt := when; Modal.dur := duration buffer;
            Modal.clockAt := now; Modal.cursorBefore := cursor |}] /\
      Modal.nextStartTimeRef (modal s2) = when + duration buffer).
Proof.
  intros Hd Hb Hodd Hc Hn. cbn zeta.
  pose proof (misaligned bytes 24000 1 Hodd) as Hfail.
  rewrite (audio_message_handled msg d s Hd).
  assert (E : Modal.onAudioData d (modal s) =
              Modal.rejected (Modal.Decode MisalignedFrame)
                             (Modal.setIsTalking true (modal s))).
  { unfold Modal.onAudioData. rewrite Hc. cbn [Modal.audioContextRef Modal.setIsTalking].
    rewrite Hn, Hb, Hfail. reflexivity. }
  assert (Hsame : same_schedule
                    {| live := live s; modal := Modal.onAudioData d (modal s);
                       stopSessionRef := stopSessionRef s |} s).
  { rewrite E. split; [reflexivity|]. repeat split. }
  split; [exact Hfail|]. split; [reflexivity|].
  split; [rewrite E; reflexivity|].
  split; [exact Hsame|].
  split; [intro es; apply same_schedule_run, Hsame|].
  intros msg2 d2 bytes2 buffer Hd2 Hb2 Hdec.
  rewrite (audio_message_handled msg2 d2 _ Hd2). cbn [live modal].
  rewrite E. unfold Modal.onAudioData. cbn. rewrite Hc, Hn, Hb2, Hdec.
  cbn. repeat split.
Qed.

Lemma malformed_chunk_is_dropped_witness :
  let s := open_session in
  let msg := Live.audio_message Modal.three_bytes in
  let s' := handle (Session (Live.SocketMessage msg)) s in
  decodeAudioData [0; 0; 0]%Z 24000 1 = inl MisalignedFrame /\
  live s' = live s /\
  Modal.rejections (modal s') =
    Modal.rejections (modal s) ++ [Modal.Decode MisalignedFrame] /\
  same_schedule s' s /\
  (forall es, same_schedule (run es s') (run es s)) /\
  (forall msg2 d2 bytes2 buffer,
      Live.truthy (Live.audioData msg2) = Some d2 ->
      base64ToUint8Array d2 = Some bytes2 ->
      decodeAudioData bytes2 24000 1 = inr buffer ->
      let cursor := Modal.nextStartTimeRef (modal s) in
      let when := if Modal.Qltb cursor 0 then 0 else cursor in
      let s2 := handle (Session (Live.SocketMessage msg2)) s' in
      live s2 = live s /\
      Modal.started (modal s2) =
        Modal.started (modal s) ++
        [{| Modal.startAt := when; Modal.dur := duration buffer;
            Modal.clockAt := 0; Modal.cursorBefore := cursor |}] /\
      Modal.nextStartTimeRef (modal s2) = when + duration buffer).
Proof.
  apply (malformed_chunk_is_dropped open_session
           (Live.audio_message Modal.three_bytes) Modal.three_bytes [0; 0; 0]%Z 0);
    reflexivity.
Defined.

End SystemFacts.

(** ** More on the live sessions *)

Module TracesFacts.

Import AudioUtils Live Traces LiveFacts.

(** *** What is sent, and in which order *)

Lemma open_session_sends m es s :
  sessionPromise s = Fulfilled ->
  isCleaningUp s = false ->
  sent (state_after m es s) = sent s ++ chunks_of (before_stop es).
Proof.
  revert s. induction es as [|e es IH]; intros s Hp Hc.
  - cbn. now rewrite app_nil_r.
  - rewrite state_after_cons.
    destruct e; cbn [handle fst before_stop chunks_of];
      try (apply IH; assumption).
    + unfold resolve. rewrite Hp. now apply IH.
    + unfold reject. rewrite Hp. now apply IH.
    + unfold onaudioprocess, then_. rewrite Hp. cbn [react]. rewrite Hc.
      rewrite IH by assumption. cbn [sent sendRealtimeInput].
      now rewrite <- app_assoc.
    + destruct (contextCloses s); [now apply IH|].
      rewrite (IH (context_closed s) Hp Hc). reflexivity.
    + destruct (cleaning_forever m es (stop s) (stop_cleaning s)) as [_ H].
      rewrite H, stop_sent, app_nil_r. reflexivity.
Qed.

Lemma pending_session_sends m es s :
  sessionPromise s = Pending ->
  isCleaningUp s = false ->
  sent (state_after m es s) =
  sent s ++ (if opened (before_stop es)
             then held (reactions s) ++ chunks_of (before_stop es)
             else []).
Proof.
  revert s. induction es as [|e es IH]; intros s Hp Hc.
  - cbn. now rewrite app_nil_r.
  - rewrite state_after_cons.
    destruct e; cbn [handle fst before_stop chunks_of opened];
      try (apply IH; assumption).
    + (* Resolve *)
      pose proof (resolve_sent s Hp) as Hs. rewrite Hc in Hs.
      assert (Hp' : sessionPromise (resolve s) = Fulfilled).
      { unfold resolve. rewrite Hp.
        pose proof (reactions_capture (reactions s) (settle Fulfilled s)) as R.
        cbn zeta in R. destruct R as (_ & _ & _ & _ & _ & R). exact R. }
      assert (Hc' : isCleaningUp (resolve s) = false).
      { unfold resolve. rewrite Hp, reactions_cleaning. exact Hc. }
      rewrite (open_session_sends m es _ Hp' Hc'), Hs.
      now rewrite <- app_assoc.
    + (* Reject *)
      unfold reject. rewrite Hp. cbn [fst].
      destruct (rejected_forever m es (settle Rejected s) eq_refl) as [_ H].
      rewrite H. cbn. now rewrite app_nil_r.
    + (* AudioProcess *)
      unfold onaudioprocess, then_. rewrite Hp.
      rewrite IH by assumption. cbn [sent reactions enqueue].
      rewrite held_app. cbn [held].
      destruct (opened (before_stop es)); [|reflexivity].
      now rewrite <- app_assoc.
    + destruct (contextCloses s); [now apply IH|].
      rewrite (IH (context_closed s) Hp Hc). reflexivity.
    + destruct (cleaning_forever m es (stop s) (stop_cleaning s)) as [_ H].
      rewrite H, stop_sent, app_nil_r. reflexivity.
Qed.

(** X1.  In both modes and for every trace of a session: if the
    handshake succeeds before the stop function is first called, the
    chunks sent are exactly those of the frames the tap delivered before
    that call, each once and in capture order; otherwise nothing is ever
    sent. *)
Theorem sent_is_capture_order (m : Mode) (tracks : nat) (es : list Event) :
  sent (state_after m es (connected tracks)) =
  if opened (before_stop es) then chunks_of (before_stop es) else [].
Proof.
  rewrite (pending_session_sends m es (connected tracks) eq_refl eq_refl).
  cbn. reflexivity.
Qed.

Example capture_then_stop_sent :
  sent (state_after Avatar capture_then_stop (connected 1))
  = [createPcmBlob sample_frame; createPcmBlob [0%Q]].
Proof. reflexivity. Qed.


(** *** What avatar mode hands to the caller *)

Lemma audioData_first_part msg : audioData msg = first_part_audio msg.
Proof.
  unfold audioData, first_part_audio, chain.
  destruct (serverContent msg) as [content|]; [|reflexivity].
  destruct (modelTurn content) as [turn|]; [|reflexivity].
  destruct (parts turn) as [[|p rest]|]; reflexivity.
Qed.

Lemma avatar_hook_mono e es c : avatar_hook es c -> avatar_hook (e :: es) c.
Proof.
  destruct c; cbn; auto.
  intros [Hd [msg [Hin Hm]]]. split; [exact Hd|].
  exists msg. split; [now right | exact Hm].
Qed.

Lemma avatar_handle e s : Forall (avatar_hook [e]) (snd (handle Avatar e s)).
Proof.
  destruct e; cbn [handle snd].
  - constructor.
  - unfold reject. destruct (sessionPromise s); cbn; constructor.
  - repeat constructor.
  - cbn [onmessage].
    destruct (truthy (audioData msg)) as [d|] eqn:E; [|constructor].
    apply truthy_some in E. destruct E as [E Hne].
    constructor; [|constructor]. cbn. split; [exact Hne|].
    exists msg. split; [now left | now rewrite <- audioData_first_part].
  - unfold onclose. destruct (isCleaningUp s); repeat constructor.
  - repeat constructor.
  - constructor.
  - constructor.
  - constructor.
Qed.

(** X2.  In avatar mode the caller is handed nothing but open, close
    and audio: never an error and never a transcription.  The audio hook
    is called exactly for the messages whose first part carries non-empty
    inline data, with that data; the other parts of a message are never
    read. *)
Theorem avatar_delivers_first_part_audio (s : St) (es : list Event) :
  Forall (avatar_hook es) (calls Avatar es s) /\
  (forall msg,
      snd (handle Avatar (SocketMessage msg) s) =
      match truthy (first_part_audio msg) with
      | Some d => [OnAudioData d]
      | None => []
      end) /\
  (forall p rest,
      truthy (chain (inlineData p) inline_data) = None ->
      snd (handle Avatar (SocketMessage (message_of_parts (p :: rest))) s) = []).
Proof.
  split; [|split].
  - revert s. induction es as [|e es IH]; intro s.
    + constructor.
    + rewrite calls_cons. apply Forall_app. split.
      * eapply Forall_impl; [|apply avatar_handle].
        intros c Hc. destruct c; cbn in *; auto.
        destruct Hc as [Hd [msg [[Hin|[]] Hm]]]. split; [exact Hd|].
        exists msg. split; [left; exact Hin | exact Hm].
      * eapply Forall_impl; [|apply IH].
        intros c. apply avatar_hook_mono.
  - intro msg. cbn [handle snd onmessage]. now rewrite audioData_first_part.
  - intros p rest H. cbn [handle snd onmessage].
    unfold audioData, message_of_parts. cbn. unfold chain in *.
    now rewrite H.
Qed.

(** *** A handshake that fails *)

Lemma settled_handle m e s :
  sessionPromise s <> Pending ->
  sessionPromise (fst (handle m e s)) = sessionPromise s.
Proof.
  intro Hp. destruct e; cbn [handle fst]; try reflexivity.
  - unfold resolve. destruct (sessionPromise s) eqn:E; congruence.
  - unfold reject. destruct (sessionPromise s) eqn:E; cbn; congruence.
  - unfold onaudioprocess, then_.
    destruct (sessionPromise s) eqn:E; [congruence | | exact E].
    rewrite react_promise. exact E.
  - destruct (contextCloses s); reflexivity.
  - unfold stop. cbn.
    destruct (contextState s); cbn; destruct (activeSession s); cbn;
      try reflexivity; unfold then_; cbn;
      destruct (sessionPromise s) eqn:E; cbn; congruence.
Qed.

Lemma settled_silent m es s :
  sessionPromise s <> Pending ->
  no_socket es = true ->
  calls m es s = [].
Proof.
  revert s. induction es as [|e es IH]; intros s Hp Hn; [reflexivity|].
  cbn [no_socket forallb] in Hn. apply andb_true_iff in Hn. destruct Hn as [He Hn].
  rewrite calls_cons, IH; [| now rewrite settled_handle | exact Hn].
  rewrite app_nil_r.
  destruct e; try discriminate He; cbn [handle snd]; try reflexivity.
  unfold reject. destruct (sessionPromise s); [congruence | reflexivity | reflexivity].
Qed.

Lemma pending_handle_promise m e s :
  sessionPromise s = Pending ->
  settles e = false ->
  sessionPromise (fst (handle m e s)) = Pending.
Proof. intros Hp He. apply (pending_handle m e s Hp He). Qed.

Lemma pending_silent m es s :
  sessionPromise s = Pending ->
  no_socket es = true ->
  calls m es s =
  match m, handshake_error es with
  | Dictation, Some err => [OnError err]
  | _, _ => []
  end.
Proof.
  revert s. induction es as [|e es IH]; intros s Hp Hn.
  - destruct m; reflexivity.
  - cbn [no_socket forallb] in Hn. apply andb_true_iff in Hn. destruct Hn as [He Hn].
    rewrite calls_cons.
    destruct e; try discriminate He; cbn [handle snd fst handshake_error].
    + rewrite settled_silent; [destruct m; reflexivity | | exact Hn].
      unfold resolve. rewrite Hp.
      pose proof (reactions_capture (reactions s) (settle Fulfilled s)) as R.
      cbn zeta in R. destruct R as (_ & _ & _ & _ & _ & R). rewrite R. discriminate.
    + unfold reject. rewrite Hp. cbn [fst snd].
      rewrite settled_silent; [destruct m; reflexivity | discriminate | exact Hn].
    + rewrite IH; [reflexivity | | exact Hn].
      now apply (pending_handle_promise m (AudioProcess frame)).
    + rewrite IH; [reflexivity | | exact Hn].
      now apply (pending_handle_promise m ContextClosed).
    + rewrite IH; [reflexivity | | exact Hn].
      now apply (pending_handle_promise m Stop).
Qed.

(** X3.  A handshake that fails is by itself reported through no hook
    in avatar mode, and through onError, once and with the handshake's
    error, in dictation mode: in a trace without socket events these are
    all the hooks called, whatever frames, stops and later settlements it
    holds. *)
Theorem handshake_failure_reporting (tracks : nat) (es : list Event) :
  no_socket es = true ->
  calls Avatar es (connected tracks) = [] /\
  calls Dictation es (connected tracks) =
    match handshake_error es with
    | Some err => [OnError err]
    | None => []
    end.
Proof.
  intro Hn. split.
  - now rewrite (pending_silent Avatar es (connected tracks) eq_refl Hn).
  - now rewrite (pending_silent Dictation es (connected tracks) eq_refl Hn).
Qed.

Lemma handshake_failure_reporting_witness :
  calls Avatar failed_handshake (connected 1) = [] /\
  calls Dictation failed_handshake (connected 1) =
    match handshake_error failed_handshake with
    | Some err => [OnError err]
    | None => []
    end.
Proof.
  apply (handshake_failure_reporting 1 failed_handshake). reflexivity.
Defined.
End TracesFacts.

(** ** More on the schedule *)

Module ScheduleFacts.

Import AudioUtils Modal Schedule ModalFacts.

Local Open Scope Q_scope.

Lemma run_app es1 es2 m : run (es1 ++ es2) m = run es2 (run es1 m).
Proof. unfold run. apply fold_left_app. Qed.

(** *** The cursor never moves back *)

Lemma onAudioData_cursor d m : nextStartTimeRef m <= nextStartTimeRef (onAudioData d m).
Proof.
  unfold onAudioData.
  destruct (cleanup m); [apply Qle_refl|].
  cbn [audioContextRef setIsTalking].
  destruct (audioContextRef m) as [[now]|]; [|apply Qle_refl].
  destruct (base64ToUint8Array d) as [bytes|]; [|apply Qle_refl].
  destruct (decodeAudioData bytes 24000 1) as [err|buffer] eqn:D; [apply Qle_refl|].
  cbn [nextStartTimeRef setIsTalking schedule currentTime].
  pose proof (decoded_duration_nonneg _ _ D) as Hd.
  destruct (clamped_start now (nextStartTimeRef m)) as (_ & _ & W).
  cbn zeta in W. lra.
Qed.

Lemma handle_cursor e m : nextStartTimeRef m <= nextStartTimeRef (handle e m).
Proof.
  destruct e as [hook| |dt|]; cbn [handle].
  - destruct hook; try apply Qle_refl.
    + unfold onOpen. destruct (cleanup m); apply Qle_refl.
    + apply onAudioData_cursor.
    + unfold onClose. destruct (cleanup m); apply Qle_refl.
  - unfold onended. destruct (audioContextRef m); [|apply Qle_refl].
    destruct (Qle_bool _ _); apply Qle_refl.
  - destruct (audioContextRef m); apply Qle_refl.
  - apply Qle_refl.
Qed.

Lemma run_cursor es m : nextStartTimeRef m <= nextStartTimeRef (run es m).
Proof.
  revert m. induction es as [|e es IH]; intro m; [apply Qle_refl|].
  eapply Qle_trans; [apply (handle_cursor e) | apply IH].
Qed.

(** X5.  The playback cursor never moves back: along any run of the
    component, from any state, its value after more events is at least
    its value before them. *)
Theorem cursor_never_moves_back (m0 : St) (es1 es2 : list Event) :
  nextStartTimeRef (run es1 m0) <= nextStartTimeRef (run (es1 ++ es2) m0).
Proof. rewrite run_app. apply run_cursor. Qed.

(** *** No two buffers overlap *)

Lemma chained_from c l : chained c l -> Forall (fun b => c <= startAt b) l.
Proof.
  revert c. induction l as [|b l IH]; intros c H; constructor.
  - destruct H as (Hb & (Sb & _ & _) & _). rewrite Sb, Hb. apply Q.le_max_r.
  - destruct H as (Hb & (Sb & _ & Db) & Hl).
    eapply Forall_impl; [|apply (IH _ Hl)].
    cbn. intros x Hx.
    assert (c <= startAt b) by (rewrite Sb, Hb; apply Q.le_max_r).
    lra.
Qed.

Lemma chained_tail c pre l : chained c (pre ++ l) -> exists c', chained c' l.
Proof.
  revert c. induction pre as [|x pre IH]; intros c H.
  - now exists c.
  - cbn [app chained] in H. destruct H as (_ & _ & H). now apply (IH _ H).
Qed.

Lemma chained_ends c l :
  chained c l -> c <= cursor_end c l /\ Forall (fun b => startAt b + dur b <= cursor_end c l) l.
Proof.
  revert c. induction l as [|b l IH]; intros c H.
  - split; [apply Qle_refl | constructor].
  - destruct H as (Hb & (Sb & _ & Db) & Hl).
    destruct (IH _ Hl) as [I1 I2].
    assert (c <= startAt b) by (rewrite Sb, Hb; apply Q.le_max_r).
    change (cursor_end c (b :: l)) with (cursor_end (startAt b + dur b) l).
    split; [lra|]. constructor; assumption.
Qed.

(** X6.  In a session no two scheduled buffers overlap, adjacent or
    not: each buffer ends at or before the start of every buffer
    scheduled after it, and at or before the cursor. *)
Theorem buffers_never_overlap (m0 : St) (es : list Event) :
  started m0 = [] ->
  let m := run es m0 in
  (forall pre a mid b post,
      started m = pre ++ a :: mid ++ b :: post ->
      startAt a + dur a <= startAt b) /\
  Forall (fun b => startAt b + dur b <= nextStartTimeRef m) (started m).
Proof.
  intro H0. cbn zeta.
  assert (I0 : scheduled_from (nextStartTimeRef m0) m0).
  { unfold scheduled_from. rewrite H0. split; [exact I | reflexivity]. }
  destruct (run_scheduled _ es _ I0) as [Hc Hn].
  split.
  - intros pre a mid b post E. rewrite E in Hc.
    destruct (chained_tail _ _ _ Hc) as [c' Ha].
    cbn [chained] in Ha. destruct Ha as (_ & _ & Ha).
    pose proof (chained_from _ _ Ha) as F.
    rewrite Forall_forall in F. apply F.
    apply in_or_app. right. now left.
  - rewrite Hn. now apply chained_ends.
Qed.

Lemma buffers_never_overlap_witness :
  let m := run jittery_session (startSession mounted) in
  (forall pre a mid b post,
      started m = pre ++ a :: mid ++ b :: post ->
      startAt a + dur a <= startAt b) /\
  Forall (fun b => startAt b + dur b <= nextStartTimeRef m) (started m).
Proof.
  apply (buffers_never_overlap (startSession mounted) jittery_session).
  reflexivity.
Defined.

(** *** Playback without gaps *)

Lemma chained_in_time c l :
  chained c l -> Forall in_time l -> cursor_end c l == c + total l.
Proof.
  revert c. induction l as [|b l IH]; intros c H Ht.
  - cbn. lra.
  - destruct H as (Hb & (Sb & _ & _) & Hl).
    inversion_clear Ht as [|? ? Tb Tl].
    change (cursor_end c (b :: l)) with (cursor_end (startAt b + dur b) l).
    rewrite (IH _ Hl Tl). cbn [total fold_right].
    assert (E : startAt b == c).
    { rewrite Sb, Hb in *. unfold in_time in Tb. rewrite Hb in Tb.
      apply Q.max_r. exact Tb. }
    fold (total l). rewrite E. lra.
Qed.

(** X7.  When every buffer after the first is scheduled before the clock
    has passed the cursor, the session plays without a gap: the cursor
    stands at the first start plus the playing time of all the buffers
    started. *)
Theorem playback_without_gaps (m0 : St) (es : list Event) (first : Started)
        (rest : list Started) :
  started m0 = [] ->
  started (run es m0) = first :: rest ->
  Forall in_time rest ->
  nextStartTimeRef (run es m0) == startAt first + total (started (run es m0)).
Proof.
  intros H0 E Ht.
  assert (I0 : scheduled_from (nextStartTimeRef m0) m0).
  { unfold scheduled_from. rewrite H0. split; [exact I | reflexivity]. }
  destruct (run_scheduled _ es _ I0) as [Hc Hn].
  rewrite Hn, E in *. destruct Hc as (_ & _ & Hl).
  change (cursor_end (nextStartTimeRef m0) (first :: rest))
    with (cursor_end (startAt first + dur first) rest).
  rewrite (chained_in_time _ _ Hl Ht). cbn [total fold_right]. fold (total rest). lra.
Qed.

Lemma playback_without_gaps_witness :
  let m := run two_chunks_with_jitter (startSession mounted) in
  nextStartTimeRef m == 0 + total (started m).
Proof.
  apply (playback_without_gaps (startSession mounted) two_chunks_with_jitter
           {| startAt := 0; dur := 4096 # 24000; clockAt := 0; cursorBefore := 0 |}
           [ {| startAt := 4096 # 24000; dur := 4096 # 24000;
                clockAt := 50 # 1000; cursorBefore := 4096 # 24000 |} ]).
  - reflexivity.
  - vm_compute. reflexivity.
  - repeat constructor. vm_compute. discriminate.
Defined.

End ScheduleFacts.

(** ** After the effect's cleanup *)

Module CleanupFacts.

Import AudioUtils System Cleanup.

Lemma settled_step e a b :
  settled a b -> settled a (Modal.handle e b).
Proof.
  intros (Hc & H1 & H2 & H3 & H4 & H5).
  destruct e as [hook| |dt|]; cbn [Modal.handle].
  - destruct hook; try (repeat split; assumption).
    + unfold Modal.onOpen. rewrite Hc. repeat split; assumption.
    + unfold Modal.onAudioData. rewrite Hc. repeat split; assumption.
    + unfold Modal.onClose. rewrite Hc. repeat split; assumption.
  - unfold Modal.onended.
    destruct (Modal.audioContextRef b); [|repeat split; assumption].
    destruct (Qle_bool _ _); repeat split; try assumption.
    cbn. discriminate.
  - destruct (Modal.audioContextRef b); repeat split; assumption.
  - repeat split; assumption.
Qed.

Lemma settled_deliver out a b :
  settled a b -> settled a (deliver out b).
Proof.
  revert b. induction out as [|c out IH]; intros b H; [exact H|].
  cbn [deliver fold_left]. apply IH, settled_step, H.
Qed.

Lemma settled_refl m : Modal.cleanup m = true -> settled m m.
Proof. intro H. repeat split; auto. Qed.

(** The component after one more event, with or without a session. *)
Lemma settled_without_session e m ref :
  Modal.cleanup m = true -> settled m (fst (without_session e m ref)).
Proof.
  intro H. destruct e as [ev|ev|]; cbn [without_session fst];
    try (now apply settled_refl).
  destruct ev; cbn [fst]; try (now apply settled_refl);
    apply settled_step; now apply settled_refl.
Qed.

Lemma settled_handle_modal e s :
  Modal.cleanup (modal s) = true -> settled (modal s) (modal (handle e s)).
Proof.
  intro H. destruct e as [ev|ev|]; cbn [handle].
  - destruct (Live.handle Live.Avatar ev (live s)) as [l out]. cbn [modal].
    apply settled_deliver. now apply settled_refl.
  - destruct ev; unfold effectCleanup; cbn [modal];
      try (apply settled_step; now apply settled_refl).
    apply (settled_step Modal.EffectCleanup). now apply settled_refl.
  - now apply settled_refl.
Qed.

Lemma stopped_handle e s sent0 :
  Live.isCleaningUp (live s) = true -> Live.sent (live s) = sent0 ->
  Live.isCleaningUp (live (handle e s)) = true /\ Live.sent (live (handle e s)) = sent0.
Proof.
  intros Hc Hs. destruct e as [ev|ev|]; cbn [handle].
  - destruct (LiveFacts.handle_cleaning Live.Avatar ev (live s) Hc) as [Hc' Hs'].
    destruct (Live.handle Live.Avatar ev (live s)) as [l out]. cbn [fst live] in *.
    split; [exact Hc' | congruence].
  - destruct ev; unfold effectCleanup; cbn [live]; try (now split).
    destruct (stopSessionRef s) as [[|]|]; try (now split).
    split; [apply LiveFacts.stop_cleaning | now rewrite LiveFacts.stop_sent].
  - now split.
Qed.

(** The shape of [cleaned] that the steps keep: the component settled
    against itself, one step on. *)
Lemma cleaned_step w0 w w' :
  cleaned w0 w ->
  settled (shown w) (shown w') ->
  (awaiting w' = true -> awaiting w = true) ->
  (holds_own_stop w0 = true ->
   match w' with
   | Wired s => Live.isCleaningUp (live s) = true /\ Live.sent (live s) = sent_on w0
   | _ => False
   end) ->
  cleaned w0 w'.
Proof.
  intros (C & S & N & R & T & St & A & O) (C' & St' & S' & N' & R' & T') A' O'.
  split; [exact C'|]. split; [congruence|]. split; [congruence|].
  split; [congruence|]. split; [auto|]. split; [|split; [|exact O']].
  - destruct St as [E|[E F]]; [left | right; split; [|exact F]]; congruence.
  - intro H. destruct (A (A' H)) as [A1 A2]. split; [exact A1 | congruence].
Qed.

Lemma cleaned_caught w0 m ref :
  cleaned w0 (Awaiting m ref) -> cleaned w0 (Thrown (caught m) ref).
Proof.
  intros (C & S & N & R & T & St & A & O).
  destruct (A eq_refl) as [A0 _].
  split; [exact C|]. split; [exact S|]. split; [exact N|]. split; [exact R|].
  split; [exact T|]. split; [right; now split|]. split; [discriminate|].
  intro H. exact (O H).
Qed.

Lemma cleaned_proceed x w0 w : cleaned w0 w -> cleaned w0 (proceed x w).
Proof.
  intro H. pose proof H as (C & _ & _ & _ & _ & _ & _ & O).
  destruct w as [m ref|s|m ref]; cbn [proceed].
  - destruct x as [|dev|e].
    + now apply cleaned_caught.
    + destruct (Live.connectLiveTriageSession dev) as [err|session];
        [now apply cleaned_caught|].
      apply (cleaned_step w0 _ _ H); cbn [shown modal awaiting].
      * now apply settled_refl.
      * discriminate.
      * intro K. exact (False_ind _ (O K)).
    + pose proof (settled_without_session e m ref C) as K.
      destruct (without_session e m ref) as [m' ref']. cbn [fst] in K.
      apply (cleaned_step w0 _ _ H); cbn [shown awaiting]; auto.
  - destruct x as [|dev|e]; try exact H.
    apply (cleaned_step w0 _ _ H); cbn [shown awaiting].
    + now apply settled_handle_modal.
    + discriminate.
    + intro K. destruct (O K) as [Hc Hs]. now apply stopped_handle.
  - destruct x as [|dev|e]; try exact H.
    pose proof (settled_without_session e m ref C) as K.
    destruct (without_session e m ref) as [m' ref']. cbn [fst] in K.
    apply (cleaned_step w0 _ _ H); cbn [shown awaiting]; auto.
Qed.

Lemma cleaned_proceed_all xs w0 w : cleaned w0 w -> cleaned w0 (proceed_all xs w).
Proof.
  revert w. induction xs as [|x xs IH]; intros w H; [exact H|].
  cbn [proceed_all fold_left]. apply IH, cleaned_proceed, H.
Qed.

Lemma cleaned_at_cleanup w : cleaned w (proceed cleanupStep w).
Proof.
  destruct w as [m ref|s|m ref]; unfold cleanupStep; cbn [proceed without_session handle].
  - repeat split; auto. discriminate.
  - unfold cleaned, effectCleanup. cbn [shown modal awaiting holds_own_stop sent_on live].
    split; [reflexivity|]. repeat (split; [reflexivity|]).
    split; [auto|]. split; [now left|]. split; [discriminate|].
    destruct (stopSessionRef s) as [[|]|]; try discriminate.
    intros _. split; [apply LiveFacts.stop_cleaning | apply LiveFacts.stop_sent].
  - repeat split; auto; discriminate.
Qed.

(** X4.  Once the effect's cleanup has run, nothing more is shown or
    played, whether the session exists by then or not: the buffers
    started, the cursor and the rejections recorded stay as they were and
    the indicator is never set again; the status stays too, unless the
    cleanup ran during the setup and the setup throws afterwards, which
    sets it to the error.  No further chunk goes out on the session when
    the cleanup found this session's stop function in the ref; a cleanup
    that finds another session's function there, or none, leaves this
    session as it is. *)
Theorem nothing_after_cleanup (w : Effect) (xs : list Step) :
  let after := proceed_all (cleanupStep :: xs) w in
  Modal.started (shown after) = Modal.started (shown w) /\
  Modal.nextStartTimeRef (shown after) = Modal.nextStartTimeRef (shown w) /\
  Modal.rejections (shown after) = Modal.rejections (shown w) /\
  (Modal.isTalking (shown after) = true -> Modal.isTalking (shown w) = true) /\
  (Modal.status (shown after) = Modal.status (shown w) \/
   Modal.status (shown after) = Modal.Failed /\ awaiting w = true) /\
  (holds_own_stop w = true -> sent_on after = sent_on w) /\
  (awaiting w = true ->
   Modal.status (shown (proceed_all [cleanupStep; OwnStreamRefused] w)) = Modal.Failed) /\
  (forall s, w = Wired s ->
             proceed cleanupStep w =
             Wired {| live := if holds_own_stop w then Live.stop (live s) else live s;
                      modal := Modal.setCleanup (modal s);
                      stopSessionRef := stopSessionRef s |}).
Proof.
  cbn zeta.
  change (proceed_all (cleanupStep :: xs) w)
    with (proceed_all xs (proceed cleanupStep w)).
  pose proof (cleaned_proceed_all xs w _ (cleaned_at_cleanup w))
    as (_ & S & N & R & T & St & _ & O).
  split; [exact S|]. split; [exact N|]. split; [exact R|]. split; [exact T|].
  split; [exact St|]. split; [|split].
  - intro H. specialize (O H).
    destruct (proceed_all xs (proceed cleanupStep w)) as [m ref|s|m ref];
      try contradiction.
    exact (proj2 O).
  - destruct w as [m ref|s|m ref]; try discriminate. reflexivity.
  - intros s ->. unfold cleanupStep. cbn [proceed handle holds_own_stop].
    unfold effectCleanup. now destruct (stopSessionRef s) as [[|]|].
Qed.

Lemma nothing_after_cleanup_witness :
  let after := proceed_all (cleanupStep :: closed_while_open) (Wired open_session) in
  Modal.started (shown after) = [] /\
  Modal.status (shown after) = Modal.Connecting /\
  sent_on after = [].
Proof.
  destruct (nothing_after_cleanup (Wired open_session) closed_while_open)
    as (S & _ & _ & _ & [St|[_ St]] & O & _).
  - cbn zeta. split; [exact S|]. split; [exact St|]. apply O. reflexivity.
  - discriminate St.
Defined.

(** *** A session made after the cleanup *)

Lemma awaiting_steps xs m ref :
  unsettled xs = true ->
  Modal.cleanup m = true ->
  exists m' ref',
    proceed_all xs (Awaiting m ref) = Awaiting m' ref' /\ settled m m'.
Proof.
  revert m ref. induction xs as [|x xs IH]; intros m ref U C.
  - exists m, ref. split; [reflexivity | now apply settled_refl].
  - cbn [unsettled forallb] in U. apply andb_true_iff in U. destruct U as [Ux U].
    destruct x as [|dev|e]; try discriminate Ux.
    cbn [proceed_all fold_left proceed].
    pose proof (settled_without_session e m ref C) as K.
    destruct (without_session e m ref) as [m1 ref1]. cbn [fst] in K.
    destruct (IH m1 ref1 U (proj1 K)) as (m' & ref' & E & K').
    exists m', ref'. split; [exact E|].
    destruct K as (_ & K1 & K2 & K3 & K4 & K5).
    destruct K' as (C' & L1 & L2 & L3 & L4 & L5).
    repeat split; try congruence. auto.
Qed.

Lemma wired_steps xs s :
  no_cleanup xs = true ->
  Modal.cleanup (modal s) = true ->
  exists s',
    proceed_all xs (Wired s) = Wired s' /\
    live s' = Live.state_after Live.Avatar (session_events xs) (live s) /\
    settled (modal s) (modal s').
Proof.
  revert s. induction xs as [|x xs IH]; intros s U C.
  - exists s. split; [reflexivity|]. split; [reflexivity | now apply settled_refl].
  - cbn [no_cleanup forallb] in U. apply andb_true_iff in U. destruct U as [Ux U].
    assert (K : exists s1,
               proceed x (Wired s) = Wired s1 /\
               Live.state_after Live.Avatar (session_events (x :: xs)) (live s) =
               Live.state_after Live.Avatar (session_events xs) (live s1) /\
               settled (modal s) (modal s1)).
    { destruct x as [|dev|e]; cbn [proceed session_events].
      - exists s. split; [reflexivity|]. split; [reflexivity | now apply settled_refl].
      - exists s. split; [reflexivity|]. split; [reflexivity | now apply settled_refl].
      - exists (handle e s). split; [reflexivity|].
        split; [|now apply settled_handle_modal].
        destruct e as [ev|ev|]; cbn [handle session_events].
        + rewrite LiveFacts.state_after_cons.
          now destruct (Live.handle Live.Avatar ev (live s)).
        + destruct ev; try reflexivity. discriminate Ux.
        + reflexivity. }
    destruct K as (s1 & E1 & L1 & K1).
    cbn [proceed_all fold_left]. rewrite E1.
    destruct (IH s1 U (proj1 K1)) as (s' & E & L & K').
    exists s'. split; [exact E|]. split; [congruence|].
    destruct K1 as (_ & A1 & A2 & A3 & A4 & A5).
    destruct K' as (C' & B1 & B2 & B3 & B4 & B5).
    repeat split; try congruence. auto.
Qed.

Lemma proceed_all_app xs ys w :
  proceed_all (xs ++ ys) w = proceed_all ys (proceed_all xs w).
Proof. apply fold_left_app. Qed.

(** X19.  When the cleanup runs while the setup is still awaited, the
    session is made all the same once the setup returns, and the cleanup
    of this run of the effect never reaches it: with its hooks muted, it
    goes through its handshake, its frames and its messages as a session
    that nobody has stopped. *)
Theorem session_made_after_cleanup
        (m : Modal.St) (ref : option StopFunction) (dev : Live.Device)
        (session : Live.St) (xs ys : list Step) :
  unsettled xs = true ->
  Live.connectLiveTriageSession dev = inr session ->
  no_cleanup ys = true ->
  exists s,
    proceed_all (cleanupStep :: xs ++ Returned dev :: ys) (Awaiting m ref) = Wired s /\
    live s = Live.state_after Live.Avatar (session_events ys) session /\
    Modal.cleanup (modal s) = true /\
    Modal.started (modal s) = Modal.started m /\
    Modal.nextStartTimeRef (modal s) = Modal.nextStartTimeRef m.
Proof.
  intros U D N.
  change (proceed_all (cleanupStep :: xs ++ Returned dev :: ys) (Awaiting m ref))
    with (proceed_all (xs ++ Returned dev :: ys) (Awaiting (Modal.setCleanup m) ref)).
  rewrite proceed_all_app.
  destruct (awaiting_steps xs (Modal.setCleanup m) ref U eq_refl)
    as (m1 & ref1 & E1 & K1).
  rewrite E1. cbn [proceed_all fold_left proceed]. rewrite D.
  set (s1 := {| live := session; modal := m1; stopSessionRef := Some OfThisSession |}).
  destruct (wired_steps ys s1 N (proj1 K1)) as (s & E & L & K).
  exists s. split; [exact E|]. split; [exact L|].
  destruct K1 as (_ & _ & A2 & A3 & _).
  destruct K as (C & _ & B2 & B3 & _).
  cbn [modal s1 Modal.started Modal.nextStartTimeRef Modal.setCleanup] in *.
  split; [exact C|]. split; congruence.
Qed.

Lemma session_made_after_cleanup_witness :
  exists s,
    proceed_all closed_while_connecting (Awaiting (Modal.startSession Modal.mounted) None)
    = Wired s /\
    Live.sent (live s) = [createPcmBlob [1 # 2; -1 # 2]%Q] /\
    Live.isCleaningUp (live s) = false /\
    Live.sessionCloses (live s) = 0%nat /\
    Modal.cleanup (modal s) = true.
Proof.
  destruct (session_made_after_cleanup
              (Modal.startSession Modal.mounted) None
              {| Live.resume := None; Live.getUserMedia := inr 1%nat |}
              (Live.connected 1) []
              [ Then (Session Live.Resolve);
                Then (Session (Live.AudioProcess [1 # 2; -1 # 2]%Q)) ]
              eq_refl eq_refl eq_refl) as (s & E & L & C & _).
  exists s. split; [exact E|]. rewrite L.
  split; [reflexivity|]. split; [reflexivity|]. split; [reflexivity | exact C].
Defined.

End CleanupFacts.

(** ** Strings *)

Module JsFacts.

Import Js.

Lemma trimStart_head s :
  trimStart s = [] \/ exists c r, trimStart s = c :: r /\ is_space c = false.
Proof.
  induction s as [|c s IH]; [now left|].
  cbn [trimStart]. destruct (is_space c) eqn:E; [exact IH|].
  right. now exists c, s.
Qed.

Lemma trimEnd_last s :
  trimEnd s = [] \/ exists r c, trimEnd s = r ++ [c] /\ is_space c = false.
Proof.
  unfold trimEnd.
  destruct (trimStart_head (rev s)) as [E|(c & r & E & Hc)]; rewrite E.
  - now left.
  - right. exists (rev r), c. now split.
Qed.

Lemma trim_last s :
  trim s = [] \/ exists r c, trim s = r ++ [c] /\ is_space c = false.
Proof. apply trimEnd_last. Qed.

Lemma endsWithSpace_snoc r c : endsWithSpace (r ++ [c]) = Ascii.eqb c " ".
Proof. unfold endsWithSpace. now rewrite rev_app_distr. Qed.

Lemma not_space_not_blank c : is_space c = false -> Ascii.eqb c " " = false.
Proof.
  intro H. destruct (Ascii.eqb c " ") eqn:E; [|reflexivity].
  apply Ascii.eqb_eq in E. subst c. discriminate H.
Qed.

Lemma length_pos_snoc {A} (r : list A) c : (0 <? List.length (r ++ [c]))%nat = true.
Proof. apply Nat.ltb_lt. rewrite length_app. cbn [List.length]. lia. Qed.

Lemma trimStart_blank s : trimStart s = [] -> forallb is_space s = true.
Proof.
  induction s as [|c s IH]; [reflexivity|].
  cbn [trimStart forallb]. destruct (is_space c); [exact IH | discriminate].
Qed.

Lemma snoc_cons {A} (r : list A) z c l :
  r ++ [z] = c :: l -> l <> [] -> exists r', l = r' ++ [z].
Proof.
  destruct r as [|x r]; cbn; intros E Hl; inversion E; subst.
  - congruence.
  - now exists r.
Qed.

End JsFacts.

(** ** Dictation into the input field *)

Module DictationFacts.

Import Js Dictation JsFacts.

Lemma separator_after pre r c ws :
  is_space c = false ->
  separator (pre ++ r ++ [c]) ws = if is_empty ws then [] else lit " ".
Proof.
  intro Hc. unfold separator.
  rewrite app_assoc, endsWithSpace_snoc, length_pos_snoc.
  rewrite (not_space_not_blank c Hc). cbn.
  destruct ws; reflexivity.
Qed.

Lemma join_cons w ws :
  w ++ (if is_empty ws then [] else lit " ") ++ join ws = join (w :: ws).
Proof.
  destruct ws as [|w' ws]; cbn [is_empty join app].
  - now rewrite app_nil_r.
  - reflexivity.
Qed.

Lemma dictate_from input fragments :
  dictate fragments input =
  input ++ separator input (words fragments) ++ join (words fragments).
Proof.
  revert input. induction fragments as [|f fs IH]; intro input.
  - cbn. unfold separator. cbn. rewrite andb_false_r. now rewrite app_nil_r.
  - unfold dictate in *. cbn [fold_left]. rewrite IH. clear IH.
    unfold onTranscription, words. cbn [map filter].
    fold (words fs).
    destruct (trim_last f) as [E|(r & c & E & Hc)]; rewrite E.
    + reflexivity.
    + assert (Hne : is_empty (r ++ [c]) = false) by (destruct r; reflexivity).
      rewrite Hne. cbn [negb].
      unfold separator at 2. cbn [is_empty negb]. rewrite andb_true_r.
      destruct ((0 <? List.length input)%nat && negb (endsWithSpace input)).
      * replace (input ++ lit " " ++ r ++ [c]) with ((input ++ lit " ") ++ r ++ [c])
          by now rewrite <- app_assoc.
        rewrite (separator_after _ r c _ Hc).
        rewrite <- (join_cons (r ++ [c]) (words fs)).
        now rewrite <- !app_assoc.
      * rewrite (separator_after _ r c _ Hc).
        rewrite <- (join_cons (r ++ [c]) (words fs)).
        now rewrite <- !app_assoc.
Qed.

(** X8.  Dictation never alters what the input field already holds and
    never doubles or drops a space: after any fragments, the field is
    its former content, then one space if that content is not empty, does
    not end with a space and some fragment carries text, then the
    trimmed non-blank fragments joined by single spaces.  From an empty
    field it is exactly those fragments joined by single spaces. *)
Theorem dictation_joins_words (fragments : list text) (input : text) :
  dictate fragments input =
    input ++ separator input (words fragments) ++ join (words fragments) /\
  dictate fragments [] = join (words fragments).
Proof.
  split; [apply dictate_from|].
  rewrite dictate_from. reflexivity.
Qed.

Example heard_sentence :
  dictate heard [] = lit "me duele la cabeza hoy" /\
  dictate heard (lit "Doctor,") = lit "Doctor, me duele la cabeza hoy".
Proof. split; reflexivity. Qed.

End DictationFacts.

(** ** Formatting a message *)

Module ChatAreaFacts.

Import Js ChatArea.

Lemma scan_cons2 inside c d rest' :
  scan inside (c :: d :: rest') =
  if Ascii.eqb c "*" && Ascii.eqb d "*" && (inside || closes rest')
  then [] :: scan (negb inside) rest'
  else push c (scan inside (d :: rest')).
Proof. reflexivity. Qed.

Lemma push_nonempty c parts : push c parts <> [].
Proof. destruct parts; discriminate. Qed.

Lemma scan_nonempty inside s : scan inside s <> [].
Proof.
  destruct s as [|c [|d rest']]; try discriminate.
  rewrite scan_cons2. destruct (_ && _); [discriminate | apply push_nonempty].
Qed.

Lemma render_push_plain c parts :
  parts <> [] -> render false (push c parts) = c :: render false parts.
Proof. destruct parts as [|p ps]; [congruence | reflexivity]. Qed.

Lemma render_push_bold c parts rest :
  render true parts = lit "**" ++ rest ->
  render true (push c parts) = lit "**" ++ c :: rest.
Proof.
  destruct parts as [|p ps]; [discriminate|].
  cbn [push render]. intro H.
  rewrite <- !app_assoc in *. apply app_inv_head in H.
  cbn [app]. now rewrite H.
Qed.

Lemma length_push c parts :
  parts <> [] -> List.length (push c parts) = List.length parts.
Proof. destruct parts; [congruence | reflexivity]. Qed.

Lemma star_star c d rest :
  Ascii.eqb c "*" && Ascii.eqb d "*" = true -> c :: d :: rest = lit "**" ++ rest.
Proof.
  intro H. apply andb_true_iff in H. destruct H as [Hc Hd].
  apply Ascii.eqb_eq in Hc, Hd. now subst.
Qed.

Lemma closes_step c s :
  startsWith (lit "**") (c :: s) = false ->
  closes (c :: s) = true ->
  closes s = true.
Proof.
  intros Hs H. cbn [closes] in H. rewrite Hs in H. cbn [orb] in H.
  destruct (is_line_terminator c); [discriminate | exact H].
Qed.

Lemma startsWith_stars c d rest :
  startsWith (lit "**") (c :: d :: rest) = Ascii.eqb c "*" && Ascii.eqb d "*".
Proof.
  change (startsWith (lit "**") (c :: d :: rest))
    with (Ascii.eqb "*" c && (Ascii.eqb "*" d && true)).
  rewrite andb_true_r.
  rewrite (Ascii.eqb_sym "*" c), (Ascii.eqb_sym "*" d). reflexivity.
Qed.

Lemma closes_one c : closes [c] = false.
Proof.
  cbn [closes].
  change (startsWith (lit "**") [c]) with (Ascii.eqb "*" c && false).
  rewrite andb_false_r. cbn [orb].
  destruct (is_line_terminator c); reflexivity.
Qed.

(** Both readings of [scan] at once: outside a match the parts give the
    text back; inside one, after its opening [**]. *)
Lemma scan_spec n s :
  (List.length s <= n)%nat ->
  (render false (scan false s) = s /\
   Nat.odd (List.length (scan false s)) = true) /\
  (closes s = true ->
   render true (scan true s) = lit "**" ++ s /\
   Nat.even (List.length (scan true s)) = true).
Proof.
  revert s. induction n as [|n IH]; intros s Hn.
  - destruct s; [|cbn in Hn; lia]. cbn. split; [split; reflexivity | discriminate].
  - destruct s as [|c [|d rest']].
    + cbn. split; [split; reflexivity | discriminate].
    + split; [split; reflexivity|].
      rewrite closes_one. discriminate.
    + assert (H1 : (List.length (d :: rest') <= n)%nat) by (cbn in *; lia).
      assert (H2 : (List.length rest' <= n)%nat) by (cbn in *; lia).
      destruct (IH _ H1) as [[A1 A2] A3].
      destruct (IH _ H2) as [[B1 B2] B3].
      split.
      * rewrite scan_cons2. cbn [orb].
        destruct (Ascii.eqb c "*" && Ascii.eqb d "*") eqn:E; cbn [andb].
        -- destruct (closes rest') eqn:C.
           ++ destruct (B3 eq_refl) as [R L]. cbn [negb render].
              cbn [app]. rewrite R. split; [symmetry; now apply star_star|].
              cbn [List.length]. rewrite Nat.odd_succ. exact L.
           ++ rewrite render_push_plain, length_push by apply scan_nonempty.
              now rewrite A1.
        -- rewrite render_push_plain, length_push by apply scan_nonempty.
           now rewrite A1.
      * intro C. rewrite scan_cons2. cbn [orb].
        destruct (Ascii.eqb c "*" && Ascii.eqb d "*") eqn:E; cbn [andb].
        -- cbn [negb render app]. rewrite B1. split.
           ++ rewrite (star_star c d rest' E). reflexivity.
           ++ cbn [List.length]. rewrite Nat.even_succ. exact B2.
        -- assert (C' : closes (d :: rest') = true).
           { apply (closes_step c); [|exact C]. now rewrite startsWith_stars. }
           destruct (A3 C') as [R L].
           rewrite length_push by apply scan_nonempty.
           split; [now apply render_push_bold | exact L].
Qed.

Lemma splitBold_keeps_the_text_aux (s : text) :
  render false (splitBold s) = s /\
  Nat.odd (List.length (splitBold s)) = true.
Proof. apply (scan_spec (List.length s) s). lia. Qed.

(** X9.  Splitting a line at its bold markers loses nothing: the parts,
    with the ones at odd indices put back between [**], are the line
    again, and their number is odd, so the line always begins and ends
    with a plain part. *)
Theorem splitBold_keeps_the_text (s : text) :
  render false (splitBold s) = s /\
  Nat.odd (List.length (splitBold s)) = true.
Proof. apply splitBold_keeps_the_text_aux. Qed.

Example splitBold_nearest_closing :
  splitBold (lit "***a** b **c") = [lit ""; lit "*a"; lit " b **c"].
Proof. reflexivity. Qed.


(** *** Lines *)

Lemma bullet_has_text t :
  isListLine t = true ->
  (exists r z, t = r ++ [z] /\ is_space z = false) ->
  dropMarker t <> [].
Proof.
  intros Hl (r & z & E & Hz).
  destruct t as [|c [|d rest]]; try discriminate Hl.
  cbn [isListLine] in Hl. apply andb_true_iff in Hl. destruct Hl as [_ Hd].
  cbn [dropMarker]. intro Hb.
  apply JsFacts.trimStart_blank in Hb.
  symmetry in E. destruct (JsFacts.snoc_cons _ _ _ _ E) as [r' E']; [discriminate|].
  rewrite E', forallb_app in Hb. cbn in Hb.
  rewrite Hz in Hb. rewrite andb_false_r in Hb. discriminate.
Qed.

Lemma lines_length t :
  List.length (lines t) = S (List.length (filter is_newline t)).
Proof.
  induction t as [|c t IH]; [reflexivity|].
  cbn [lines filter]. unfold is_newline at 1.
  destruct (Ascii.eqb c "010").
  - cbn [List.length]. now rewrite IH.
  - destruct (lines t) as [|l ls] eqn:E; [discriminate IH|].
    cbn [List.length] in *. exact IH.
Qed.

Lemma formatMessageText_blocks t blocks :
  formatMessageText t = Some blocks ->
  t <> [] /\
  blocks = map formatLine (lines t) /\
  List.length blocks = S (List.length (filter is_newline t)).
Proof.
  unfold formatMessageText.
  destruct (is_empty t) eqn:Et; [discriminate|].
  intro H. injection H as <-.
  split; [destruct t; [discriminate Et | discriminate]|].
  split; [reflexivity|].
  rewrite length_map. apply lines_length.
Qed.

Lemma formatLine_cases line :
  (trim line = [] /\ formatLine line = Spacer) \/
  (shown line <> [] /\
   formatLine line = Row (isListLine (trim line)) (splitBold (shown line))).
Proof.
  unfold formatLine, shown.
  destruct (JsFacts.trim_last line) as [E|(r & z & E & Hz)].
  - left. rewrite E. split; reflexivity.
  - right. destruct (isListLine (trim line)) eqn:L.
    + assert (Hb : dropMarker (trim line) <> []).
      { apply bullet_has_text; [exact L|]. now exists r, z. }
      split; [exact Hb|].
      destruct (dropMarker (trim line)); [congruence | reflexivity].
    + rewrite E. split; [destruct r; discriminate|].
      destruct r; reflexivity.
Qed.

(** X10.  A line is rendered as a spacer exactly when it is blank.
    Otherwise it is a row whose parts, written back, are the trimmed
    line without its list marker, which is never empty: a bullet is
    never shown without text.  A non-empty message gets one block per
    line. *)
Theorem formatLine_shows_the_line (line : text) :
  (formatLine line = Spacer <-> trim line = []) /\
  (forall isList parts,
      formatLine line = Row isList parts ->
      isList = isListLine (trim line) /\
      render false parts = shown line /\
      shown line <> [] /\
      Nat.odd (List.length parts) = true) /\
  (forall t blocks,
      formatMessageText t = Some blocks ->
      t <> [] /\
      blocks = map formatLine (lines t) /\
      List.length blocks = S (List.length (filter is_newline t))).
Proof.
  split; [|split; [|apply formatMessageText_blocks]].
  - destruct (formatLine_cases line) as [[E H]|[Hs H]].
    + split; auto.
    + rewrite H. split; [discriminate|].
      intro E. exfalso. apply Hs. unfold shown. rewrite E. reflexivity.
  - intros isList parts H.
    destruct (formatLine_cases line) as [[E H']|[Hs H']]; rewrite H' in H.
    + discriminate.
    + injection H as <- <-.
      destruct (splitBold_keeps_the_text_aux (shown line)) as [R O].
      repeat split; assumption.
Qed.

Example reply_blocks :
  formatMessageText reply =
  Some [ Row true [lit ""; lit "Reposo"; lit ": descansa"];
         Row true [lit "toma agua"];
         Spacer;
         Row false [lit "Si hay "; lit "fiebre alta"; lit " ve a *urgencias*"] ].
Proof. reflexivity. Qed.
End ChatAreaFacts.

(** ** Cleaning a response *)

Module CleaningFacts.

Import Js Cleaning JsFacts.

(** *** Suffixes and subsequences *)

Lemma suffix_refl s : suffix s s.
Proof. now exists []. Qed.

Lemma suffix_cons c b s : suffix b s -> suffix b (c :: s).
Proof. intros [pre E]. exists (c :: pre). now rewrite E. Qed.

Lemma suffix_trans a b c : suffix a b -> suffix b c -> suffix a c.
Proof.
  intros [p1 E1] [p2 E2]. exists (p2 ++ p1). now rewrite E2, E1, app_assoc.
Qed.

Lemma subseq_refl s : subseq s s.
Proof. induction s; [constructor | now apply subseq_keep]. Qed.

Lemma subseq_nil_l s : subseq [] s.
Proof. induction s; constructor; assumption. Qed.

Lemma subseq_trans a b c : subseq a b -> subseq b c -> subseq a c.
Proof.
  intros Hab Hbc. revert a Hab.
  induction Hbc as [|b c0 c Hbc IH|b c0 c Hbc IH]; intros a Hab.
  - exact Hab.
  - constructor. now apply IH.
  - inversion Hab; subst.
    + apply subseq_drop. now apply IH.
    + apply subseq_keep. now apply IH.
Qed.

Lemma suffix_subseq b s : suffix b s -> subseq b s.
Proof.
  intros [pre E]. subst s. induction pre as [|c pre IH].
  - apply subseq_refl.
  - cbn. now apply subseq_drop.
Qed.

Lemma prefix_subseq a post : subseq a (a ++ post).
Proof.
  induction a as [|c a IH]; cbn.
  - apply subseq_nil_l.
  - now apply subseq_keep.
Qed.

(** *** What a match leaves is a suffix *)

Lemma after_ci_suffix p s rest : after_ci p s = Some rest -> suffix rest s.
Proof.
  revert s. induction p as [|a p IH]; intros s H.
  - cbn in H. inversion H. apply suffix_refl.
  - destruct s as [|b s]; [discriminate|]. cbn in H.
    destruct (same_letter a b); [|discriminate].
    apply suffix_cons. now apply IH.
Qed.

Lemma lazy_any_suffix k : leaves_suffix k -> leaves_suffix (lazy_any k).
Proof.
  intros Hk s. induction s as [|c s IH]; intros rest H; cbn in H.
  - destruct (k []) eqn:E; [|discriminate]. inversion H; subst. now apply Hk.
  - destruct (k (c :: s)) eqn:E.
    + inversion H; subst. now apply Hk.
    + apply suffix_cons. now apply IH.
Qed.

Lemma digits_suffix k : leaves_suffix k -> leaves_suffix (digits k).
Proof.
  intros Hk s. induction s as [|c s IH]; intros rest H; cbn in H; [discriminate|].
  destruct (is_digit c); [|discriminate].
  destruct (digits k s) eqn:E.
  - inversion H; subst. apply suffix_cons. now apply IH.
  - apply suffix_cons. now apply Hk.
Qed.

Lemma matcher_suffix re : leaves_suffix (matcher re).
Proof.
  induction re as [|a re IH]; intros s rest H.
  - cbn in H. inversion H. apply suffix_refl.
  - destruct a; cbn [matcher] in H.
    + destruct (after_ci l s) as [r|] eqn:E; [|discriminate].
      eapply suffix_trans; [apply (IH _ _ H) | apply (after_ci_suffix _ _ _ E)].
    + now apply (lazy_any_suffix _ IH).
    + destruct (existsb _ _); [|discriminate]. now apply IH.
    + now apply (digits_suffix _ IH).
Qed.

Lemma replaceFirst_subseq re s : subseq (replaceFirst re s) s.
Proof.
  induction s as [|c s IH]; cbn [replaceFirst].
  - destruct (matcher re []) eqn:E; [|constructor].
    apply suffix_subseq, (matcher_suffix re _ _ E).
  - destruct (matcher re (c :: s)) eqn:E.
    + apply suffix_subseq, (matcher_suffix re _ _ E).
    + now apply subseq_keep.
Qed.

Lemma stripBullets_step b c t :
  stripBullets b (c :: t) = c :: stripBullets (is_line_terminator c) t \/
  exists t', b = true /\ c :: t = lit "* **" ++ t' /\
             stripBullets b (c :: t) = stripBullets false t'.
Proof.
  destruct t as [|c2 [|c3 [|c4 t']]]; try (left; reflexivity).
  change (stripBullets b (c :: c2 :: c3 :: c4 :: t'))
    with (if b && Ascii.eqb c "*" && Ascii.eqb c2 " "
             && Ascii.eqb c3 "*" && Ascii.eqb c4 "*"
          then stripBullets false t'
          else c :: stripBullets (is_line_terminator c) (c2 :: c3 :: c4 :: t')).
  destruct (b && Ascii.eqb c "*" && Ascii.eqb c2 " "
            && Ascii.eqb c3 "*" && Ascii.eqb c4 "*") eqn:E; [|now left].
  right. exists t'.
  repeat (apply andb_true_iff in E; destruct E as [E ?]).
  repeat match goal with
         | H : Ascii.eqb _ _ = true |- _ => apply Ascii.eqb_eq in H
         end.
  subst. repeat split.
Qed.

Lemma stripBullets_subseq b s : subseq (stripBullets b s) s.
Proof.
  revert b.
  assert (H : forall n s, (List.length s <= n)%nat -> forall b, subseq (stripBullets b s) s).
  { induction n as [|n IH]; intros s0 Hn b.
    - destruct s0; [constructor | cbn in Hn; lia].
    - destruct s0 as [|c t]; [constructor|].
      assert (Ht : (List.length t <= n)%nat) by (cbn in Hn; lia).
      destruct (stripBullets_step b c t) as [E|(t' & _ & Et & E)]; rewrite E.
      + apply subseq_keep. now apply IH.
      + rewrite Et. cbn [lit list_ascii_of_string app].
        do 4 apply subseq_drop. apply IH.
        cbn in Et. inversion Et; subst. cbn in Ht. lia. }
  intro b. apply (H (List.length s)). lia.
Qed.

Lemma trimStart_suffix s : suffix (trimStart s) s.
Proof.
  induction s as [|c s IH]; [apply suffix_refl|].
  cbn [trimStart]. destruct (is_space c); [now apply suffix_cons | apply suffix_refl].
Qed.

Lemma trimEnd_prefix s : exists post, s = trimEnd s ++ post.
Proof.
  unfold trimEnd. destruct (trimStart_suffix (rev s)) as [pre E].
  exists (rev pre). rewrite <- rev_app_distr, <- E. now rewrite rev_involutive.
Qed.

Lemma trim_subseq s : subseq (trim s) s.
Proof.
  unfold trim.
  eapply subseq_trans; [|apply suffix_subseq, trimStart_suffix].
  destruct (trimEnd_prefix (trimStart s)) as [post E].
  rewrite E at 2. apply prefix_subseq.
Qed.

Lemma skipn_suffix {n} (s : text) : suffix (skipn n s) s.
Proof. exists (firstn n s). now rewrite firstn_skipn. Qed.

Lemma afterLast_suffix p s rest : afterLast p s = Some rest -> suffix rest s.
Proof.
  revert rest. induction s as [|c s IH]; intros rest H; [discriminate|].
  cbn [afterLast] in H. destruct (afterLast p s) as [r|].
  - inversion H; subst. apply suffix_cons. now apply IH.
  - destruct (startsWith p (c :: s)); [|discriminate].
    inversion H. apply skipn_suffix.
Qed.

Lemma replaceAll_subseq ps t :
  subseq (fold_left (fun acc re => replaceFirst re acc) ps t) t.
Proof.
  revert t. induction ps as [|re ps IH]; intro t; cbn [fold_left].
  - apply subseq_refl.
  - eapply subseq_trans; [apply IH | apply replaceFirst_subseq].
Qed.

(** X11.  Cleaning a response only deletes: the result can be got from
    the response by removing characters, so nothing is added, changed or
    moved. *)
Theorem cleaning_only_deletes (t : text) : subseq (cleanResponseText t) t.
Proof.
  unfold cleanResponseText.
  destruct (is_empty t); [apply subseq_nil_l|].
  set (cleaned := fold_left (fun acc re => replaceFirst re acc) patterns t).
  assert (H1 : subseq cleaned t) by apply replaceAll_subseq.
  assert (H2 : subseq (stripBullets true cleaned) t).
  { eapply subseq_trans; [apply stripBullets_subseq | exact H1]. }
  destruct (afterLast answer (stripBullets true cleaned)) as [last|] eqn:E.
  - eapply subseq_trans; [apply trim_subseq|].
    eapply subseq_trans; [|exact H2].
    apply suffix_subseq, (afterLast_suffix _ _ _ E).
  - eapply subseq_trans; [apply trim_subseq | exact H2].
Qed.


(** *** The result is trimmed and holds no ["Answer:"] *)

Lemma trimStart_idem s : trimStart (trimStart s) = trimStart s.
Proof.
  induction s as [|c s IH]; [reflexivity|].
  cbn [trimStart]. destruct (is_space c) eqn:E; [exact IH|].
  cbn [trimStart]. now rewrite E.
Qed.

Lemma trimEnd_idem s : trimEnd (trimEnd s) = trimEnd s.
Proof. unfold trimEnd. now rewrite rev_involutive, trimStart_idem. Qed.

Lemma trimEnd_keeps_head c r :
  is_space c = false -> exists r', trimEnd (c :: r) = c :: r'.
Proof.
  intro Hc.
  destruct (trimEnd_prefix (c :: r)) as [post E].
  destruct (trimEnd (c :: r)) as [|x r'] eqn:T.
  - exfalso. unfold trimEnd in T.
    apply (f_equal (@rev ascii)) in T. rewrite rev_involutive in T. cbn [rev] in T.
    apply trimStart_blank in T. cbn [rev] in T.
    rewrite forallb_app in T. cbn in T. rewrite Hc, andb_false_r in T. discriminate.
  - cbn in E. inversion E; subst. now exists r'.
Qed.

Lemma trim_trimmed s : trimmed (trim s).
Proof.
  unfold trimmed, trim. split; [|apply trimEnd_idem].
  destruct (trimStart_head s) as [E|(c & r & E & Hc)]; rewrite E.
  - reflexivity.
  - destruct (trimEnd_keeps_head c r Hc) as [r' T]. rewrite T.
    cbn [trimStart]. now rewrite Hc.
Qed.

Lemma startsWith_app p a post :
  startsWith p a = true -> startsWith p (a ++ post) = true.
Proof.
  revert a. induction p as [|x p IH]; intros a H; [reflexivity|].
  destruct a as [|y a]; [discriminate|]. cbn in *.
  apply andb_true_iff in H. destruct H as [H1 H2].
  rewrite H1. cbn. now apply IH.
Qed.

Lemma includes_prefix p a post :
  includes p a = true -> includes p (a ++ post) = true.
Proof.
  induction a as [|c a IH]; cbn [includes app]; intro H.
  - rewrite orb_false_r in H.
    destruct p; [|discriminate]. destruct post; reflexivity.
  - apply orb_true_iff in H. apply orb_true_iff. destruct H as [H|H].
    + left. apply (startsWith_app p (c :: a) post H).
    + right. now apply IH.
Qed.

Lemma includes_suffix p b s :
  suffix b s -> includes p b = true -> includes p s = true.
Proof.
  intros [pre E] H. subst s. induction pre as [|c pre IH]; [exact H|].
  cbn [app includes]. rewrite IH. apply orb_true_r.
Qed.

Lemma includes_trim p s : includes p (trim s) = true -> includes p s = true.
Proof.
  unfold trim. intro H.
  apply (includes_suffix p _ _ (trimStart_suffix s)).
  destruct (trimEnd_prefix (trimStart s)) as [post E].
  rewrite E. now apply includes_prefix.
Qed.

Lemma afterLast_none s :
  afterLast answer s = None <-> includes answer s = false.
Proof.
  induction s as [|c s IH].
  - split; reflexivity.
  - cbn [afterLast includes]. split.
    + intro H. destruct (afterLast answer s); [discriminate|].
      destruct (startsWith answer (c :: s)); [discriminate|].
      cbn [orb]. now apply IH.
    + intro H. apply orb_false_iff in H. destruct H as [H1 H2].
      apply IH in H2. now rewrite H2, H1.
Qed.

Lemma afterLast_last s rest :
  afterLast answer s = Some rest -> includes answer rest = false.
Proof.
  revert rest. induction s as [|c s IH]; intros rest H; [discriminate|].
  cbn [afterLast] in H. destruct (afterLast answer s) as [r|] eqn:E.
  - inversion H; subst. now apply IH.
  - destruct (startsWith answer (c :: s)); [|discriminate].
    injection H as <-. apply afterLast_none in E.
    assert (I : includes answer (skipn 6 s) = false).
    { destruct (includes answer (skipn 6 s)) eqn:I; [|reflexivity].
      rewrite <- E. symmetry.
      apply (includes_suffix answer (skipn 6 s) s); [apply skipn_suffix | exact I]. }
    exact I.
Qed.

Lemma cleaned_is_trimmed_answer_aux (t : text) :
  trimmed (cleanResponseText t) /\ includes answer (cleanResponseText t) = false.
Proof.
  unfold cleanResponseText.
  destruct (is_empty t); [split; [split; reflexivity | reflexivity]|].
  set (cleaned := stripBullets true _).
  destruct (afterLast answer cleaned) as [last|] eqn:E.
  - split; [apply trim_trimmed|].
    destruct (includes answer (trim last)) eqn:I; [|reflexivity].
    apply includes_trim in I. now rewrite (afterLast_last _ _ E) in I.
  - split; [apply trim_trimmed|].
    destruct (includes answer (trim cleaned)) eqn:I; [|reflexivity].
    apply includes_trim in I. apply afterLast_none in E. now rewrite E in I.
Qed.

(** X12.  A cleaned response neither begins nor ends with white space,
    and never holds ["Answer:"]: when the response holds it, only what
    follows its last occurrence is kept. *)
Theorem cleaned_is_trimmed_answer (t : text) :
  trimmed (cleanResponseText t) /\
  includes answer (cleanResponseText t) = false /\
  (forall last,
      afterLast answer
        (stripBullets true (fold_left (fun acc re => replaceFirst re acc) patterns t))
      = Some last ->
      t <> [] ->
      cleanResponseText t = trim last).
Proof.
  unfold cleanResponseText.
  destruct (is_empty t) eqn:Et.
  - split; [split; reflexivity|]. split; [reflexivity|].
    intros last _ Hne. destruct t; [congruence | discriminate].
  - set (cleaned := stripBullets true _).
    destruct (afterLast answer cleaned) as [last|] eqn:E.
    + split; [apply trim_trimmed|]. split.
      * destruct (includes answer (trim last)) eqn:I; [|reflexivity].
        apply includes_trim in I. now rewrite (afterLast_last _ _ E) in I.
      * intros last' H _. now inversion H.
    + split; [apply trim_trimmed|]. split; [|discriminate].
      destruct (includes answer (trim cleaned)) eqn:I; [|reflexivity].
      apply includes_trim in I. apply afterLast_none in E. now rewrite E in I.
Qed.

(** *** A reply without artifacts is only trimmed *)

Lemma begins_ci_prefix l0 l1 s :
  begins_ci (l0 ++ l1) s = true -> begins_ci l0 s = true.
Proof.
  unfold begins_ci. revert s. induction l0 as [|a l0 IH]; intros s H; [reflexivity|].
  destruct s as [|b s]; [discriminate|]. cbn in *.
  destruct (same_letter a b); [now apply IH | discriminate].
Qed.

Lemma includes_ci_prefix l0 l1 s :
  includes_ci (l0 ++ l1) s = false \/ includes_ci l0 s = true.
Proof.
  induction s as [|c s IH]; cbn [includes_ci].
  - destruct (begins_ci (l0 ++ l1) []) eqn:E; [|now left].
    right. now rewrite (begins_ci_prefix _ _ _ E).
  - destruct (begins_ci (l0 ++ l1) (c :: s)) eqn:E.
    + right. now rewrite (begins_ci_prefix _ _ _ E).
    + destruct IH as [IH|IH]; [left | right].
      * exact IH.
      * rewrite IH. apply orb_true_r.
Qed.

Lemma replaceFirst_absent l k s :
  includes_ci l s = false -> replaceFirst (Ci l :: k) s = s.
Proof.
  induction s as [|c s IH]; cbn [includes_ci replaceFirst matcher]; intro H.
  - rewrite orb_false_r in H. unfold begins_ci in H.
    destruct (after_ci l []); [discriminate | reflexivity].
  - apply orb_false_iff in H. destruct H as [H1 H2]. unfold begins_ci in H1.
    destruct (after_ci l (c :: s)); [discriminate|].
    now rewrite IH.
Qed.

Lemma stripBullets_absent b s :
  has_bullet b s = false -> stripBullets b s = s.
Proof.
  assert (H : forall n s, (List.length s <= n)%nat ->
                          forall b, has_bullet b s = false -> stripBullets b s = s).
  { induction n as [|n IH]; intros s0 Hn b0 Hb.
    - destruct s0; [reflexivity | cbn in Hn; lia].
    - destruct s0 as [|c t]; [reflexivity|].
      assert (Ht : (List.length t <= n)%nat) by (cbn in Hn; lia).
      cbn [has_bullet] in Hb. apply orb_false_iff in Hb. destruct Hb as [Hb1 Hb2].
      destruct (stripBullets_step b0 c t) as [E|(t' & Eb & Et & E)]; rewrite E.
      + f_equal. now apply IH.
      + exfalso. subst b0. rewrite Et in Hb1. cbn in Hb1. discriminate. }
  apply (H (List.length s)). lia.
Qed.

(** X13.  A response that holds none of the artifacts (the four marker
    phrases in any letter case, a line beginning with ["* **"], or
    ["Answer:"]) is only trimmed: ordinary replies pass through with
    their text and their formatting. *)
Theorem ordinary_reply_is_only_trimmed (t : text) :
  ordinary t = true -> cleanResponseText t = trim t.
Proof.
  unfold ordinary, markers. cbn [forallb].
  intro H.
  repeat (apply andb_true_iff in H; destruct H as [H ?]).
  repeat match goal with
         | H : negb _ = true |- _ => apply negb_true_iff in H
         | H : _ && _ = true |- _ => apply andb_true_iff in H; destruct H
         end.
  unfold cleanResponseText.
  destruct (is_empty t) eqn:Et; [destruct t; [reflexivity | discriminate]|].
  assert (Hc : includes_ci (lit "Constraint Checklist & Confidence Score:") t = false).
  { destruct (includes_ci_prefix (lit "Constraint Checklist")
                                 (lit " & Confidence Score:") t) as [E|E].
    - exact E.
    - congruence. }
  unfold patterns. cbn [fold_left].
  rewrite (replaceFirst_absent (lit "Constraint Checklist & Confidence Score:") _ t Hc).
  rewrite (replaceFirst_absent (lit "Mental Sandbox:") _ t) by assumption.
  rewrite (replaceFirst_absent (lit "Constraint Checklist") _ t) by assumption.
  rewrite (replaceFirst_absent (lit "Confidence Score: ") _ t) by assumption.
  rewrite (replaceFirst_absent (lit "Mental Sandbox:") _ t) by assumption.
  rewrite (replaceFirst_absent (lit "Let's execute the tool call") _ t) by assumption.
  rewrite stripBullets_absent by assumption.
  assert (E : afterLast answer t = None) by now apply afterLast_none.
  now rewrite E.
Qed.

Lemma ordinary_reply_is_only_trimmed_witness :
  cleanResponseText plain_reply = trim plain_reply.
Proof.
  apply (ordinary_reply_is_only_trimmed plain_reply). reflexivity.
Defined.

Example raw_reply_cleaned : cleanResponseText raw_reply = lit "descansa hoy.".
Proof. reflexivity. Qed.
End CleaningFacts.

(** ** The text chat *)

Module ChatFacts.

Import Js Cleaning Chat Places Answers.

(** *** The places of a reply *)

Lemma kept_has_target chunks :
  Forall has_target (map link_of (filter has_place chunks)).
Proof.
  induction chunks as [|c chunks IH]; [constructor|].
  cbn [filter]. destruct (has_place c) eqn:E; [|exact IH].
  cbn [map]. constructor; [|exact IH].
  unfold has_place in E. unfold has_target, link_of.
  destruct (maps c) as [p|]; [|discriminate]. cbn.
  now apply orb_true_iff.
Qed.

Lemma Forall_firstn {A} (P : A -> Prop) n l : Forall P l -> Forall P (firstn n l).
Proof.
  revert l. induction n as [|n IH]; intros l H; [constructor|].
  destruct H; cbn; constructor; auto.
Qed.

Lemma link_of_place c p : maps c = Some p -> link_of c = p.
Proof. unfold link_of. intros ->. now destruct p. Qed.

Lemma taken_firstn n chunks :
  taken n chunks (firstn n (map link_of (filter has_place chunks))).
Proof.
  revert n. induction chunks as [|c chunks IH]; intro n.
  - cbn. rewrite firstn_nil. apply taken_all.
  - cbn [filter]. destruct (has_place c) eqn:E.
    + destruct n as [|n]; [apply taken_enough|].
      cbn [map firstn].
      destruct (maps c) as [p|] eqn:M;
        [|unfold has_place in E; rewrite M in E; discriminate E].
      rewrite (link_of_place c p M). now apply taken_keep.
    + apply taken_skip; [exact E | apply IH].
Qed.

Lemma taken_none chunks found : taken 0 chunks found -> found = [].
Proof.
  intro H. remember 0%nat as n eqn:E.
  induction H; try reflexivity; [auto | discriminate E].
Qed.

Lemma taken_unique n chunks found found' :
  taken n chunks found -> taken n chunks found' -> found = found'.
Proof.
  intro H. revert found'.
  induction H as [chunks | n | n c chunks found E H IH | n c p chunks found M E H IH];
    intros found' H'.
  - symmetry. now apply (taken_none chunks).
  - now inversion H'.
  - inversion H'; subst.
    + now apply (taken_none chunks).
    + now apply IH.
    + congruence.
  - inversion H'; subst; [congruence|].
    assert (p0 = p) by congruence. subst. f_equal. now apply IH.
Qed.

(** X14.  The places of a reply are those of the response's grounding
    chunks that carry a non-empty uri or a non-empty title, in the order
    of the response and without skipping any, up to five.  So every
    link shown can be followed: to its uri, or to a search for its title,
    which is then not empty. *)
Theorem map_links_can_be_followed (response : Response) (found : list Place)
        (encodeURIComponent : option text -> text) :
  mapLinks response = Some found ->
  (exists chunks,
      grounding response = Some chunks /\
      taken 5 chunks found /\
      (forall other, taken 5 chunks other -> other = found) /\
      found = firstn 5 (map link_of (filter has_place chunks))) /\
  (List.length found <= 5)%nat /\
  Forall (fun link =>
            (exists u, uri link = Some u /\ u <> [] /\
                       safeUrl encodeURIComponent link = u) \/
            (exists t, title link = Some t /\ t <> [] /\
                       safeUrl encodeURIComponent link =
                       search ++ encodeURIComponent (Some t))) found.
Proof.
  unfold mapLinks, grounding.
  destruct (candidates response) as [[|first rest]|]; try discriminate.
  destruct (groundingMetadata first) as [meta|]; [|discriminate].
  destruct (groundingChunks meta) as [chunks|]; [|discriminate].
  intro H.
  assert (E : found = firstn 5 (map link_of (filter has_place chunks))) by congruence.
  rewrite E. clear H E.
  split.
  { exists chunks. split; [reflexivity|]. split; [apply taken_firstn|].
    split; [|reflexivity].
    intros other H. apply (taken_unique 5 chunks); [exact H | apply taken_firstn]. }
  split; [apply firstn_le_length|].
  eapply Forall_impl; [|apply Forall_firstn, kept_has_target].
  intros link [H|H]; unfold safeUrl, truthy in *.
  - left. destruct (uri link) as [[|c u]|]; try discriminate.
    exists (c :: u). repeat split. discriminate.
  - destruct (uri link) as [[|c u]|].
    + right. destruct (title link) as [[|d t]|]; try discriminate.
      exists (d :: t). repeat split. discriminate.
    + left. exists (c :: u). repeat split. discriminate.
    + right. destruct (title link) as [[|d t]|]; try discriminate.
      exists (d :: t). repeat split. discriminate.
Qed.

Lemma map_links_can_be_followed_witness :
  let found := [ {| uri := Some (lit "u1"); title := Some (lit "A") |};
                 {| uri := None; title := Some (lit "B") |};
                 {| uri := Some (lit "u3"); title := None |};
                 {| uri := Some (lit "u4"); title := Some (lit "D") |};
                 {| uri := Some (lit "u5"); title := Some (lit "E") |} ] in
  let encode := fun o : option text => match o with Some t => t | None => lit "undefined" end in
  (exists chunks,
      grounding six_places = Some chunks /\
      taken 5 chunks found /\
      (forall other, taken 5 chunks other -> other = found) /\
      found = firstn 5 (map link_of (filter has_place chunks))) /\
  (List.length found <= 5)%nat /\
  Forall (fun link =>
            (exists u, uri link = Some u /\ u <> [] /\ safeUrl encode link = u) \/
            (exists t, title link = Some t /\ t <> [] /\
                       safeUrl encode link = search ++ encode (Some t))) found.
Proof.
  apply (map_links_can_be_followed six_places). reflexivity.
Defined.

(** No grounding chunks, no list of places: the reply then carries
    none, not an empty one. *)
Lemma map_links_absent response :
  mapLinks response = None <-> grounding response = None.
Proof.
  unfold mapLinks, grounding.
  destruct (candidates response) as [[|first rest]|]; try tauto.
  destruct (groundingMetadata first) as [meta|]; [|tauto].
  destruct (groundingChunks meta); split; intro H; try discriminate H; reflexivity.
Qed.


(** *** Sending a message *)

Lemma apologies_clean :
  trimmed maps_trouble /\ includes answer maps_trouble = false.
Proof. split; [split; reflexivity | reflexivity]. Qed.

Lemma cleaned_clean t :
  trimmed (cleanResponseText t) /\ includes answer (cleanResponseText t) = false.
Proof.
  destruct (CleaningFacts.cleaned_is_trimmed_answer_aux t) as (H1 & H2).
  now split.
Qed.

Lemma links_bounded response found :
  mapLinks response = Some found ->
  (List.length found <= 5)%nat /\ Forall has_target found.
Proof.
  unfold mapLinks.
  destruct (candidates response) as [[|first rest]|]; try discriminate.
  destruct (groundingMetadata first) as [meta|]; [|discriminate].
  destruct (groundingChunks meta) as [chunks|]; [|discriminate].
  intro H.
  assert (E : found = firstn 5 (map link_of (filter has_place chunks))) by congruence.
  rewrite E. split; [apply firstn_le_length | apply Forall_firstn, kept_has_target].
Qed.

Lemma pro_text_clean env location history userMessage t :
  pro_text env location history userMessage = Some t ->
  t <> [] /\ trimmed t /\ includes answer t = false.
Proof.
  unfold pro_text.
  destruct (generateContent env _) as [e|response]; [discriminate|].
  destruct (cleaned_clean (or_else (responseText response) [])) as [T A].
  destruct (cleanResponseText _) as [|c r]; cbn [is_empty]; [discriminate|].
  intro H. injection H as <-. split; [discriminate | now split].
Qed.

Lemma chat_reply_cases env location history userMessage :
  match chat_reply env location history userMessage with
  | inl err =>
      pro_text env location history userMessage = None /\
      generateContent env (fallback_request location history userMessage) = inl err
  | inr reply =>
      trimmed (reply_text reply) /\
      includes answer (reply_text reply) = false /\
      reply_links reply = None /\
      (forall t, pro_text env location history userMessage = Some t ->
                 reply_text reply = t /\ t <> [])
  end.
Proof.
  unfold chat_reply.
  destruct (pro_text env location history userMessage) as [t|] eqn:P.
  - destruct (pro_text_clean _ _ _ _ _ P) as (N & T & A). cbn.
    split; [exact T|]. split; [exact A|]. split; [reflexivity|].
    intros t' E. injection E as <-. now split.
  - destruct (generateContent env (fallback_request _ _ _)) as [err|response] eqn:F.
    + now split.
    + destruct (cleaned_clean (or_else (responseText response) service_error)) as [T A].
      cbn. split; [exact T|]. split; [exact A|]. split; [reflexivity | discriminate].
Qed.

Lemma maps_reply_cases env here history userMessage :
  exists reply,
    maps_reply env here history userMessage = inr reply /\
    trimmed (reply_text reply) /\
    includes answer (reply_text reply) = false /\
    (forall found, reply_links reply = Some found ->
                   (List.length found <= 5)%nat /\ Forall has_target found).
Proof.
  unfold maps_reply.
  destruct (generateContent env (maps_request here history userMessage))
    as [err|response].
  - eexists. split; [reflexivity|]. cbn.
    destruct apologies_clean as [T A].
    split; [exact T|]. split; [exact A | discriminate].
  - eexists. split; [reflexivity|]. cbn.
    destruct (cleaned_clean (or_else (responseText response) not_found)) as [T A].
    split; [exact T|]. split; [exact A|]. apply links_bounded.
Qed.

(** X15.  Sending a message fails only on the chat path, when the
    stronger model fails or answers nothing after cleaning and the
    fallback call fails too, and then with the fallback's error; the maps
    path never fails.  Every reply text is trimmed and free of
    ["Answer:"]; a text of the stronger model is never empty; places come
    with replies of the maps path only, at most five, each with a
    target. *)
Theorem reply_or_rejection (env : Env) (history : list Message) (userMessage : text) :
  let here := getCurrentLocation env in
  match sendMessageToDrGemini env history userMessage with
  | inl err =>
      by_maps env userMessage = false /\
      pro_text env here history userMessage = None /\
      generateContent env (fallback_request here history userMessage) = inl err
  | inr reply =>
      trimmed (reply_text reply) /\
      includes answer (reply_text reply) = false /\
      (by_maps env userMessage = false -> reply_links reply = None) /\
      (forall found, reply_links reply = Some found ->
                     (List.length found <= 5)%nat /\ Forall has_target found) /\
      (forall t, by_maps env userMessage = false ->
                 pro_text env here history userMessage = Some t ->
                 reply_text reply = t /\ t <> [])
  end.
Proof.
  cbn zeta. unfold sendMessageToDrGemini, by_maps.
  pose proof (chat_reply_cases env (getCurrentLocation env) history userMessage) as Hc.
  destruct (needsMaps userMessage); cbn [andb].
  - destruct (getCurrentLocation env) as [here|] eqn:L.
    + destruct (maps_reply_cases env here history userMessage)
        as (reply & E & T & A & K).
      rewrite E. split; [exact T|]. split; [exact A|].
      split; [discriminate|]. split; [exact K | discriminate].
    + destruct (chat_reply env None history userMessage) as [err|reply].
      * destruct Hc as [H1 H2]. now repeat split.
      * destruct Hc as (T & A & K & P).
        split; [exact T|]. split; [exact A|]. split; [now intros _|].
        split; [intros found E; rewrite K in E; discriminate|].
        intros t _ E. now apply P.
  - destruct (chat_reply env (getCurrentLocation env) history userMessage) as [err|reply].
    + destruct Hc as [H1 H2]. now repeat split.
    + destruct Hc as (T & A & K & P).
      split; [exact T|]. split; [exact A|]. split; [now intros _|].
      split; [intros found E; rewrite K in E; discriminate|].
      intros t _ E. now apply P.
Qed.

Example service_down_rejects :
  sendMessageToDrGemini service_down [] (lit "me duele la cabeza") = inl "503"%string.
Proof. reflexivity. Qed.

Example pro_down_goes_by_maps :
  sendMessageToDrGemini Answers.pro_down [] (lit "Necesito un DOCTOR") =
  inr {| reply_text := lit "Estas son las opciones.";
         reply_links := mapLinks six_places |}.
Proof. reflexivity. Qed.
End ChatFacts.

(* ================================================================= *)
(** ** App: the chat and the microphone *)

Module AppFacts.

Import Js Chat App.

(** *** Lists updated at an index *)

Lemma nth_error_at_index {A} (f : A -> A) l i j :
  nth_error (at_index i f l) j =
  if Nat.eqb i j then option_map f (nth_error l j) else nth_error l j.
Proof.
  revert i j. induction l as [|x l IH]; intros [|i] [|j]; cbn; try reflexivity.
  - destruct (Nat.eqb i j); reflexivity.
  - apply IH.
Qed.

Lemma Forall_nth_error {A} (P : A -> Prop) l :
  Forall P l <-> (forall i x, nth_error l i = Some x -> P x).
Proof.
  split.
  - intros H i x E. rewrite Forall_forall in H. eapply H, nth_error_In, E.
  - intro H. apply Forall_forall. intros x Hin.
    destruct (In_nth_error _ _ Hin) as [i E]. eapply H, E.
Qed.

Lemma nth_error_snoc {A} (l : list A) x i y :
  nth_error (l ++ [x]) i = Some y ->
  nth_error l i = Some y \/ (i = List.length l /\ y = x).
Proof.
  intro E. destruct (Nat.lt_ge_cases i (List.length l)) as [Hlt|Hge].
  - left. now rewrite nth_error_app1 in E.
  - rewrite nth_error_app2 in E by exact Hge.
    destruct (i - List.length l)%nat as [|k] eqn:D; cbn in E.
    + right. split; [lia | congruence].
    + destruct k; discriminate.
Qed.

(** *** The session under the App's events *)

Lemma cleaning_handle m e st :
  Live.isCleaningUp (fst (Live.handle m e st)) =
  Live.isCleaningUp st || Live.is_stop e.
Proof.
  destruct e; cbn [Live.handle fst Live.is_stop];
    rewrite ?orb_false_r, ?orb_true_r; try reflexivity.
  - unfold Live.resolve. destruct (Live.sessionPromise st); try reflexivity.
    now rewrite LiveFacts.reactions_cleaning.
  - unfold Live.reject. destruct (Live.sessionPromise st); reflexivity.
  - unfold Live.onaudioprocess. apply LiveFacts.then_cleaning.
  - destruct (Live.contextCloses st); reflexivity.
  - apply LiveFacts.stop_cleaning.
Qed.

Lemma released_handle e st :
  Live.is_stop e = false ->
  released_at_most_once st ->
  released_at_most_once (fst (Live.handle Live.Dictation e st)).
Proof.
  unfold released_at_most_once. intros He H.
  rewrite cleaning_handle, He, orb_false_r.
  apply (LiveFacts.torn_down_handle Live.Dictation e) in H.
  rewrite He, Nat.add_0_r in H. exact H.
Qed.

Lemma released_stop st :
  Live.isCleaningUp st = false ->
  released_at_most_once st ->
  released_at_most_once (Live.stop st).
Proof.
  unfold released_at_most_once. intros Hc H. rewrite Hc in H.
  rewrite LiveFacts.stop_cleaning.
  exact (LiveFacts.torn_down_handle Live.Dictation Live.Stop 0 st H).
Qed.

Lemma released_connected tracks : released_at_most_once (Live.connected tracks).
Proof. exact (LiveFacts.torn_down_connected tracks). Qed.

Lemma capturing st :
  released_at_most_once st -> Live.isCleaningUp st = false -> still_capturing st.
Proof.
  unfold released_at_most_once, still_capturing. intros H Hc. rewrite Hc in H.
  destruct H as (T & S & P & C & _ & _ & X).
  split; [exact Hc|]. split; [exact T|]. split; [exact S|]. split; [exact P|].
  split; [lia|].
  destruct (Live.sessionPromise st); tauto.
Qed.

(** *** What the handlers keep *)

Lemma tidy_same s s' :
  sessions s' = sessions s -> stopDictationRef s' = stopDictationRef s ->
  tidy s -> tidy s'.
Proof. unfold tidy, ref_is_fresh. intros -> ->. auto. Qed.

Lemma orphan_same i s s' :
  sessions s' = sessions s -> stopDictationRef s' = stopDictationRef s ->
  orphan i s -> orphan i s'.
Proof. unfold orphan. intros -> ->. auto. Qed.

Lemma tidy_unref s : tidy s -> tidy (setRef None s).
Proof. intros [R _]. split; [exact R|]. intros i H. discriminate H. Qed.

Lemma orphan_unref i s : orphan i s -> orphan i (setRef None s).
Proof. intros [_ H]. split; [discriminate | exact H]. Qed.

Lemma tidy_stopDictation s : tidy s -> tidy (stopDictation s).
Proof.
  intros [R F]. unfold stopDictation.
  destruct (stopDictationRef s) as [i|] eqn:E; [|now split].
  destruct (F i E) as (st & Hn & Hc).
  split; [|intros j Hj; discriminate Hj].
  cbn. apply Forall_nth_error. intros j x Hx.
  rewrite nth_error_at_index in Hx. rewrite Forall_nth_error in R.
  destruct (Nat.eqb_spec i j) as [<-|_].
  - rewrite Hn in Hx. cbn in Hx. injection Hx as <-.
    apply released_stop; [exact Hc|]. eapply R, Hn.
  - eapply R, Hx.
Qed.

Lemma orphan_stopDictation i s : orphan i s -> orphan i (stopDictation s).
Proof.
  intros [N (st & Hn & Hc)]. unfold stopDictation.
  destruct (stopDictationRef s) as [j|] eqn:E.
  - split; [discriminate|]. exists st. cbn. rewrite nth_error_at_index.
    destruct (Nat.eqb_spec j i) as [->|_]; [now elim N|]. now split.
  - split; [now rewrite E|]. now exists st.
Qed.

Lemma tidy_hook c s : tidy s -> tidy (hook c s).
Proof.
  intro H. destruct c; cbn [hook]; try exact H.
  - apply tidy_stopDictation. exact H.
  - apply tidy_unref. exact H.
Qed.

Lemma orphan_hook i c s : orphan i s -> orphan i (hook c s).
Proof.
  intro H. destruct c; cbn [hook]; try exact H.
  - apply orphan_stopDictation. exact H.
  - apply orphan_unref. exact H.
Qed.

Lemma tidy_hooks out s : tidy s -> tidy (fold_left (fun acc c => hook c acc) out s).
Proof.
  revert s. induction out as [|c out IH]; intros s H; [exact H|].
  cbn. apply IH, tidy_hook, H.
Qed.

Lemma orphan_hooks i out s :
  orphan i s -> orphan i (fold_left (fun acc c => hook c acc) out s).
Proof.
  revert s. induction out as [|c out IH]; intros s H; [exact H|].
  cbn. apply IH, orphan_hook, H.
Qed.

Lemma session_unfold j ev s :
  session j ev s =
  if Live.is_stop ev then s
  else match nth_error (sessions s) j with
       | None => s
       | Some st =>
           fold_left (fun acc c => hook c acc)
                     (snd (Live.handle Live.Dictation ev st))
                     (setSessions
                        (at_index j (fun _ => fst (Live.handle Live.Dictation ev st))
                                  (sessions s)) s)
       end.
Proof.
  unfold session.
  destruct ev; cbn [Live.is_stop]; try reflexivity;
    destruct (nth_error (sessions s) j) as [st|]; try reflexivity;
    now destruct (Live.handle Live.Dictation _ st).
Qed.

Lemma tidy_session j ev s : tidy s -> tidy (session j ev s).
Proof.
  intro H. rewrite session_unfold.
  destruct (Live.is_stop ev) eqn:He; [exact H|].
  destruct (nth_error (sessions s) j) as [st|] eqn:Hn; [|exact H].
  apply tidy_hooks. destruct H as [R F]. split; cbn.
  - apply Forall_nth_error. intros k x Hx.
    rewrite nth_error_at_index in Hx. rewrite Forall_nth_error in R.
    destruct (Nat.eqb_spec j k) as [<-|_].
    + rewrite Hn in Hx. cbn in Hx. injection Hx as <-.
      apply released_handle; [exact He|]. eapply R, Hn.
    + eapply R, Hx.
  - intros k Hk. destruct (F k Hk) as (st0 & H0 & Hc).
    cbn. rewrite nth_error_at_index.
    destruct (Nat.eqb_spec j k) as [<-|_].
    + rewrite Hn. cbn. eexists. split; [reflexivity|].
      rewrite cleaning_handle, He, orb_false_r. congruence.
    + now exists st0.
Qed.

Lemma orphan_session i j ev s : orphan i s -> orphan i (session j ev s).
Proof.
  intro H. rewrite session_unfold.
  destruct (Live.is_stop ev) eqn:He; [exact H|].
  destruct (nth_error (sessions s) j) as [st|] eqn:Hn; [|exact H].
  apply orphan_hooks. destruct H as [N (st0 & H0 & Hc)]. split; [exact N|].
  cbn. rewrite nth_error_at_index.
  destruct (Nat.eqb_spec j i) as [->|_].
  - rewrite Hn. cbn. eexists. split; [reflexivity|].
    rewrite cleaning_handle, He, orb_false_r. congruence.
  - now exists st0.
Qed.

Lemma startLiveDictation_connected dev st :
  Live.startLiveDictation dev = inr st -> exists tracks, st = Live.connected tracks.
Proof.
  unfold Live.startLiveDictation.
  destruct (Live.resume dev); [discriminate|].
  destruct (Live.getUserMedia dev) as [err|tracks]; [discriminate|].
  intro H. exists tracks. congruence.
Qed.

Lemma tidy_started dev s : tidy s -> tidy (started dev s).
Proof.
  intro H. unfold started. destruct (starting s) as [|n]; [exact H|].
  destruct (Live.startLiveDictation dev) as [err|st] eqn:E.
  - revert H. now apply tidy_same.
  - destruct (startLiveDictation_connected _ _ E) as [tracks ->].
    destruct H as [R F]. split; cbn.
    + apply Forall_app. split; [exact R|].
      constructor; [apply released_connected | constructor].
    + intros k Hk. cbn in Hk. injection Hk as <-. cbn.
      rewrite nth_error_app2, Nat.sub_diag by lia. cbn.
      eexists. split; reflexivity.
Qed.

Lemma orphan_started i dev s : orphan i s -> orphan i (started dev s).
Proof.
  intro H. unfold started. destruct (starting s) as [|n]; [exact H|].
  destruct (Live.startLiveDictation dev) as [err|st] eqn:E.
  - revert H. now apply orphan_same.
  - destruct H as [N (st0 & H0 & Hc)].
    assert (Hlt : (i < List.length (sessions s))%nat)
      by (apply nth_error_Some; congruence).
    split; cbn.
    + intro K. injection K as K. lia.
    + exists st0. now rewrite nth_error_app1.
Qed.

Lemma tidy_handleMicClick s : tidy s -> tidy (handleMicClick s).
Proof.
  intro H. unfold handleMicClick. destruct (isRecording s).
  - apply tidy_stopDictation in H. revert H. now apply tidy_same.
  - revert H. now apply tidy_same.
Qed.

Lemma orphan_handleMicClick i s : orphan i s -> orphan i (handleMicClick s).
Proof.
  intro H. unfold handleMicClick. destruct (isRecording s).
  - apply orphan_stopDictation in H. revert H. now apply orphan_same.
  - revert H. now apply orphan_same.
Qed.

Lemma tidy_handleSend now s : tidy s -> tidy (handleSend now s).
Proof.
  intro H. unfold handleSend. destruct (is_empty (trim (inputText s))); [exact H|].
  destruct (isRecording s).
  - apply tidy_stopDictation in H. revert H. now apply tidy_same.
  - revert H. now apply tidy_same.
Qed.

Lemma orphan_handleSend i now s : orphan i s -> orphan i (handleSend now s).
Proof.
  intro H. unfold handleSend. destruct (is_empty (trim (inputText s))); [exact H|].
  destruct (isRecording s).
  - apply orphan_stopDictation in H. revert H. now apply orphan_same.
  - revert H. now apply orphan_same.
Qed.

Lemma answered_sessions k env now s :
  sessions (answered k env now s) = sessions s /\
  stopDictationRef (answered k env now s) = stopDictationRef s.
Proof.
  unfold answered. destruct (nth_error (asked s) k) as [call|]; [|now split].
  destruct (sendMessageToDrGemini env _ _); now split.
Qed.

Lemma tidy_handle e s : tidy s -> tidy (handle e s).
Proof.
  intro H. destruct e; cbn [handle].
  - revert H. now apply tidy_same.
  - now apply tidy_handleSend.
  - unfold button.
    destruct (isRecording s) eqn:R; [now apply tidy_handleMicClick|].
    destruct (is_empty (trim (inputText s)));
      [now apply tidy_handleMicClick | now apply tidy_handleSend].
  - now apply tidy_started.
  - now apply tidy_session.
  - destruct (answered_sessions k env now s) as [A B].
    revert H. now apply tidy_same.
Qed.

Lemma orphan_handle i e s : orphan i s -> orphan i (handle e s).
Proof.
  intro H. destruct e; cbn [handle].
  - revert H. now apply orphan_same.
  - now apply orphan_handleSend.
  - unfold button.
    destruct (isRecording s) eqn:R; [now apply orphan_handleMicClick|].
    destruct (is_empty (trim (inputText s)));
      [now apply orphan_handleMicClick | now apply orphan_handleSend].
  - now apply orphan_started.
  - now apply orphan_session.
  - destruct (answered_sessions k env now s) as [A B].
    revert H. now apply orphan_same.
Qed.

Lemma tidy_run es s : tidy s -> tidy (run es s).
Proof.
  revert s. induction es as [|e es IH]; intros s H; [exact H|].
  cbn. apply IH, tidy_handle, H.
Qed.

Lemma orphan_run i es s : orphan i s -> orphan i (run es s).
Proof.
  revert s. induction es as [|e es IH]; intros s H; [exact H|].
  cbn. apply IH, orphan_handle, H.
Qed.

Lemma tidy_initial : tidy initial.
Proof. split; [constructor | intros i H; discriminate H]. Qed.

Lemma run_append es1 es2 s : run (es1 ++ es2) s = run es2 (run es1 s).
Proof. apply fold_left_app. Qed.


(** X17.  When the far end closes a dictation session that the App has
    not stopped, the App forgets its stop function without calling it:
    whatever happens afterwards, that session is never stopped, and its
    tracks, its tap and its audio context stay as they were made. *)
Theorem closed_session_keeps_the_microphone
        (es1 es2 : list Event) (i : nat) (st : Live.St) :
  nth_error (sessions (run es1 initial)) i = Some st ->
  Live.isCleaningUp st = false ->
  exists st',
    nth_error (sessions (run (es1 ++ Session i Live.SocketClose :: es2) initial)) i
    = Some st' /\
    still_capturing st'.
Proof.
  intros Hn Hc.
  pose proof (tidy_run es1 initial tidy_initial) as T.
  rewrite run_append. cbn [run fold_left]. fold (run es2).
  set (s1 := run es1 initial) in *.
  assert (O : orphan i (handle (Session i Live.SocketClose) s1)).
  { cbn [handle]. rewrite session_unfold. cbn [Live.is_stop]. rewrite Hn.
    cbn [Live.handle fst snd]. unfold Live.onclose. rewrite Hc.
    cbn [fold_left hook]. unfold onClose. split; [discriminate|].
    exists st. cbn. rewrite nth_error_at_index, Nat.eqb_refl, Hn. now split. }
  apply (tidy_handle (Session i Live.SocketClose)) in T.
  apply (orphan_run i es2) in O. apply (tidy_run es2) in T.
  destruct O as [_ (st' & Hn' & Hc')].
  exists st'. split; [exact Hn'|].
  apply capturing; [|exact Hc'].
  destruct T as [R _]. rewrite Forall_nth_error in R. eapply R, Hn'.
Qed.

Lemma closed_session_keeps_the_microphone_witness :
  exists st',
    nth_error (sessions (run (dictating ++ Session 0 Live.SocketClose :: and_on)
                             initial)) 0 = Some st' /\
    still_capturing st'.
Proof.
  apply (closed_session_keeps_the_microphone dictating and_on 0
           (Live.resolve (Live.connected 1))); reflexivity.
Defined.

(** *** The conversation *)

Lemma reply_is_clean env history userMessage reply :
  sendMessageToDrGemini env history userMessage = inr reply ->
  Cleaning.trimmed (reply_text reply) /\
  includes Cleaning.answer (reply_text reply) = false /\
  (forall found, reply_links reply = Some found ->
                 (List.length found <= 5)%nat /\ Forall Places.has_target found).
Proof.
  unfold sendMessageToDrGemini.
  assert (C : forall location,
             chat_reply env location history userMessage = inr reply ->
             Cleaning.trimmed (reply_text reply) /\
             includes Cleaning.answer (reply_text reply) = false /\
             (forall found, reply_links reply = Some found ->
                            (List.length found <= 5)%nat /\
                            Forall Places.has_target found)).
  { intros location E.
    pose proof (ChatFacts.chat_reply_cases env location history userMessage) as H.
    rewrite E in H. destruct H as (T & A & K & _).
    split; [exact T|]. split; [exact A|].
    intros found F. rewrite K in F. discriminate F. }
  destruct (needsMaps userMessage); [|apply C].
  destruct (getCurrentLocation env) as [here|]; [|apply C].
  destruct (ChatFacts.maps_reply_cases env here history userMessage)
    as (r & E & T & A & K).
  rewrite E. intro H. injection H as <-. now split.
Qed.

Lemma stopDictation_messages s : messages (stopDictation s) = messages s.
Proof. unfold stopDictation. now destruct (stopDictationRef s). Qed.

Lemma hooks_messages out s :
  messages (fold_left (fun acc c => hook c acc) out s) = messages s.
Proof.
  revert s. induction out as [|c out IH]; intro s; [reflexivity|].
  cbn. rewrite IH. destruct c; cbn [hook]; try reflexivity.
  unfold onError. now rewrite stopDictation_messages.
Qed.

Lemma handleMicClick_messages s : messages (handleMicClick s) = messages s.
Proof.
  unfold handleMicClick. destruct (isRecording s); [|reflexivity].
  cbn. apply stopDictation_messages.
Qed.

Lemma handleSend_messages now s :
  exists more, messages (handleSend now s) = messages s ++ more /\ Forall sound more.
Proof.
  unfold handleSend. destruct (is_empty (trim (inputText s))) eqn:E.
  - exists []. now rewrite app_nil_r.
  - eexists. split.
    + cbn. destruct (isRecording s); cbn; rewrite ?stopDictation_messages; reflexivity.
    + constructor; [|constructor]. unfold sound. cbn. now split.
Qed.

Lemma answered_messages k env now s :
  exists more, messages (answered k env now s) = messages s ++ more /\ Forall sound more.
Proof.
  unfold answered. destruct (nth_error (asked s) k) as [call|].
  - destruct (sendMessageToDrGemini env (asked_history call) (asked_text call))
      as [err|reply] eqn:E.
    + exists []. now rewrite app_nil_r.
    + destruct (reply_is_clean _ _ _ _ E) as (T & A & K).
      eexists. split; [reflexivity|].
      constructor; [|constructor]. unfold sound. cbn.
      split; [exact T|]. split; [exact A|]. split; [|exact K].
      destruct (reply_links reply); split; intro H; try discriminate H;
        try reflexivity; now elim H.
  - exists []. now rewrite app_nil_r.
Qed.

Lemma handle_messages e s :
  exists more, messages (handle e s) = messages s ++ more /\ Forall sound more.
Proof.
  destruct e; cbn [handle].
  - exists []. now rewrite app_nil_r.
  - apply handleSend_messages.
  - unfold button.
    destruct (isRecording s);
      [exists []; now rewrite app_nil_r, handleMicClick_messages|].
    destruct (is_empty (trim (inputText s)));
      [exists []; now rewrite app_nil_r, handleMicClick_messages|].
    apply handleSend_messages.
  - exists []. rewrite app_nil_r. split; [|constructor]. unfold started.
    destruct (starting s); [reflexivity|].
    now destruct (Live.startLiveDictation dev).
  - exists []. rewrite app_nil_r, session_unfold. split; [|constructor].
    destruct (Live.is_stop e); [reflexivity|].
    destruct (nth_error (sessions s) i); [|reflexivity].
    now rewrite hooks_messages.
  - apply answered_messages.
Qed.

(** X18.  The conversation is only ever appended to.  A message of the
    user is added only with text that is not blank; a message of the
    assistant carries a trimmed text without ["Answer:"], is marked as a
    map result exactly when it carries a list of places, and that list
    has at most five places, each with a target. *)
Theorem conversation_only_grows (es : list Event) (s : St) :
  exists more,
    messages (run es s) = messages s ++ more /\ Forall sound more.
Proof.
  revert s. induction es as [|e es IH]; intro s.
  - exists []. now rewrite app_nil_r.
  - change (run (e :: es) s) with (run es (handle e s)).
    destruct (handle_messages e s) as (m1 & E1 & S1).
    destruct (IH (handle e s)) as (m2 & E2 & S2).
    exists (m1 ++ m2). split.
    + now rewrite E2, E1, app_assoc.
    + apply Forall_app. now split.
Qed.

Example two_clicks_before_the_microphone_starts :
  let s := run [Button 10; Button 20; Started microphone] initial in
  isRecording s = false /\ stopDictationRef s = Some 0%nat /\
  exists st, nth_error (sessions s) 0 = Some st /\ still_capturing st.
Proof.
  cbn. split; [reflexivity|]. split; [reflexivity|].
  eexists. split; [reflexivity|].
  unfold still_capturing. cbn. repeat split. repeat constructor.
Qed.
End AppFacts.
